(** * Cos2PhiQubit: the cosine-two-phi qubit of scqubits

    A shallow embedding of [scqubits/core/operators.py] and
    [scqubits/core/cos2phi_qubit.py].

    Conventions of the embedding.
    - A Python [float] is a real number ([R]); a Python [complex] is a pair
      of reals ([C]).  Rounding is not modelled.
    - A Python [int] is an integer ([Z]); a matrix dimension is the natural
      number [Z.to_nat] of it.
    - A call that raises returns [Raise e]; a call that returns [v] is
      [Ok v].  Operands are evaluated in Python's order, left to right.
    - A division by zero has no real value: Python raises
      [ZeroDivisionError] on floats, numpy scalars yield [inf] or [nan].
      The model returns [Raise ZeroDivisionError] in both cases, so that a
      result [Ok v] is always one of real arithmetic.
    - A scipy sparse matrix and a numpy 2-d array are both a function from
      row and column index to their entry, with the shape kept in the type. *)

From Stdlib Require Import Reals Lra Lia ZArith List String Bool Arith.
Import ListNotations.

Set Implicit Arguments.

Local Open Scope R_scope.

(* ================================================================== *)
(** ** Exceptions and results *)

Inductive exn : Type :=
| ZeroDivisionError
| ValueError
| TypeError
| IndexError
| NotImplementedError
| RuntimeError (msg : string).

Inductive result (A : Type) : Type :=
| Ok (a : A)
| Raise (e : exn).

Arguments Ok {A} a.
Arguments Raise {A} e.

Definition bind {A B : Type} (c : result A) (k : A -> result B) : result B :=
  match c with
  | Ok a => k a
  | Raise e => Raise e
  end.

Declare Scope py_scope.
Delimit Scope py_scope with py.

Notation "x <- c ;; k" := (bind c (fun x => k))
  (at level 61, c at next level, right associativity) : py_scope.
Notation "'ret' v" := (Ok v) (at level 60) : py_scope.

Local Open Scope py_scope.

Definition returns {A : Type} (c : result A) : Prop := exists a, c = Ok a.
Definition raises {A : Type} (c : result A) : Prop := exists e, c = Raise e.

(* ================================================================== *)
(** ** Complex numbers *)

Definition C : Type := (R * R)%type.

Definition RtoC (x : R) : C := (x, 0).
Definition Ci : C := (0, 1).
Definition C0 : C := RtoC 0.
Definition C1 : C := RtoC 1.
Definition Cplus (a b : C) : C := (fst a + fst b, snd a + snd b).
Definition Copp (a : C) : C := (- fst a, - snd a).
Definition Cminus (a b : C) : C := Cplus a (Copp b).
Definition Cmult (a b : C) : C :=
  (fst a * fst b - snd a * snd b, fst a * snd b + snd a * fst b).
Definition Cconj (a : C) : C := (fst a, - snd a).
Definition Cnorm2 (a : C) : R := fst a * fst a + snd a * snd a.
Definition Cinv (a : C) : C := (fst a / Cnorm2 a, - snd a / Cnorm2 a).
Definition is_real (a : C) : Prop := snd a = 0.

Declare Scope C_scope.
Delimit Scope C_scope with C.
Bind Scope C_scope with C.
Infix "+" := Cplus : C_scope.
Infix "-" := Cminus : C_scope.
Infix "*" := Cmult : C_scope.
Notation "- a" := (Copp a) : C_scope.
Notation "a ^*" := (Cconj a) (at level 1, format "a ^*") : C_scope.

Coercion RtoC : R >-> C.

Definition Ceq_dec (a b : C) : {a = b} + {a <> b}.
Proof.
  destruct a as [a1 a2], b as [b1 b2].
  destruct (Req_dec_T a1 b1) as [H1 | H1].
  - destruct (Req_dec_T a2 b2) as [H2 | H2].
    + left; subst; reflexivity.
    + right; intros E; inversion E; contradiction.
  - right; intros E; inversion E; contradiction.
Defined.

(* ================================================================== *)
(** ** Python float arithmetic that can raise *)

(** [x / y] on floats. *)
Definition py_div (x y : R) : result R :=
  if Req_dec_T y 0 then Raise ZeroDivisionError else Ok (x / y).

(** [x / y] on complex numbers ([1. / other] with a complex [other]). *)
Definition py_cdiv (x y : C) : result C :=
  if Ceq_dec y C0 then Raise ZeroDivisionError else Ok (x * Cinv y)%C.

(** [math.sqrt(x)]: a negative argument raises "math domain error". *)
Definition math_sqrt (x : R) : result R :=
  if Rlt_dec x 0 then Raise ValueError else Ok (sqrt x).

(** [x ** 0.25] for a float [x]: the real fourth root of a nonnegative
    base, the principal complex fourth root of a negative one. *)
Definition pow_quarter (x : R) : C :=
  if Rle_dec 0 x then RtoC (sqrt (sqrt x))
  else (sqrt (sqrt (- x)) * (sqrt 2 / 2), sqrt (sqrt (- x)) * (sqrt 2 / 2)).

Notation "x // y" := (py_div x y) (at level 40, left associativity) : py_scope.

(* ================================================================== *)
(** ** Matrices

    [Matrix m n] is an [m] by [n] matrix; only the entries with a row index
    below [m] and a column index below [n] belong to it. *)

Record Matrix (m n : nat) : Type := mk_matrix { coeff : nat -> nat -> C }.
Arguments mk_matrix {m n} coeff.
Arguments coeff {m n} _ _ _.
Coercion coeff : Matrix >-> Funclass.

Definition mat_equiv {m n : nat} (A B : Matrix m n) : Prop :=
  forall i j, (i < m)%nat -> (j < n)%nat -> A i j = B i j.

Declare Scope matrix_scope.
Delimit Scope matrix_scope with M.
Infix "==" := mat_equiv (at level 70) : matrix_scope.

Fixpoint Csum (f : nat -> C) (n : nat) : C :=
  match n with
  | O => C0
  | S k => (Csum f k + f k)%C
  end.

Definition Mplus {m n} (A B : Matrix m n) : Matrix m n :=
  mk_matrix (fun i j => (A i j + B i j)%C).
Definition Mopp {m n} (A : Matrix m n) : Matrix m n :=
  mk_matrix (fun i j => (- A i j)%C).
Definition Mminus {m n} (A B : Matrix m n) : Matrix m n :=
  mk_matrix (fun i j => (A i j - B i j)%C).
(** [c * A] and [A * c] for a scalar [c]. *)
Definition scale {m n} (c : C) (A : Matrix m n) : Matrix m n :=
  mk_matrix (fun i j => (c * A i j)%C).
(** [A * B] for two sparse matrices (matrix product). *)
Definition Mmult {m n o} (A : Matrix m n) (B : Matrix n o) : Matrix m o :=
  mk_matrix (fun i j => Csum (fun k => (A i k * B k j)%C) n).
(** [A ** 2] for a sparse matrix: the matrix power. *)
Definition Mpow2 {n} (A : Matrix n n) : Matrix n n := Mmult A A.
(** [A.T] *)
Definition transpose {m n} (A : Matrix m n) : Matrix n m :=
  mk_matrix (fun i j => A j i).
(** [A.conj()] *)
Definition conj {m n} (A : Matrix m n) : Matrix m n :=
  mk_matrix (fun i j => (A i j)^*%C).
(** [A.conj().T] *)
Definition adjoint {m n} (A : Matrix m n) : Matrix n m := transpose (conj A).

(** [scipy.sparse.eye(n)] *)
Definition eye (n : nat) : Matrix n n :=
  mk_matrix (fun i j => if (i =? j)%nat then C1 else C0).

(** [scipy.sparse.kron(A, B)] *)
Definition kron {m n p q} (A : Matrix m n) (B : Matrix p q)
  : Matrix (m * p) (n * q) :=
  mk_matrix
    (fun i j => (A (i / p)%nat (j / q)%nat * B (i mod p)%nat (j mod q)%nat)%C).

(** [scipy.sparse.dia_matrix((data, [offset]), shape=(n, n))]: the only
    stored diagonal is [offset]; its entry in column [j] is [data[j]]. *)
Definition dia_matrix (data : nat -> C) (offset : Z) (n : nat) : Matrix n n :=
  mk_matrix
    (fun i j => if (Z.of_nat j - Z.of_nat i =? offset)%Z then data j else C0).

(** [numpy.diagflat(v)] *)
Definition diagflat (v : nat -> C) (n : nat) : Matrix n n :=
  mk_matrix (fun i j => if (i =? j)%nat then v i else C0).

(** [A - s] for a sparse matrix [A] and a scalar [s]: scipy returns a copy
    of [A] for [s == 0] and raises [NotImplementedError] otherwise. *)
Definition sub_scalar {m n} (A : Matrix m n) (s : R) : result (Matrix m n) :=
  if Req_dec_T s 0 then Ok A else Raise NotImplementedError.

(** [A / s] for a sparse matrix [A] and a scalar [s]: scipy multiplies [A]
    by [1. / s]. *)
Definition div_scalar {m n} (A : Matrix m n) (s : C) : result (Matrix m n) :=
  inv <- py_cdiv C1 s ;; ret (scale inv A).

Infix "+" := Mplus : matrix_scope.
Infix "-" := Mminus : matrix_scope.
Notation "- A" := (Mopp A) : matrix_scope.
Infix "*s" := scale (at level 40, left associativity) : matrix_scope.

Local Open Scope matrix_scope.

(* ================================================================== *)
(** ** operators.py *)

Module op.

(** A prefactor is [None], a float or a complex number. *)
Inductive prefactor : Type :=
| PNone
| PFloat (x : R)
| PComplex (z : C).

(** Truth value of [if prefactor:]. *)
Definition truthy (p : prefactor) : bool :=
  match p with
  | PNone => false
  | PFloat x => if Req_dec_T x 0 then false else true
  | PComplex z => if Ceq_dec z C0 then false else true
  end.

(** [diag_elements *= prefactor] on a [float64] array: the product with a
    float stays in the array; the product with a complex number is a
    [complex128] array, which numpy refuses to cast back into the
    [float64] array ([UFuncTypeError], a [TypeError]). *)
Definition imul_float64 (diag_elements : nat -> R) (p : prefactor)
  : result (nat -> R) :=
  match p with
  | PNone => Raise TypeError
  | PFloat x => Ok (fun k => diag_elements k * x)
  | PComplex _ => Raise TypeError
  end.

(** [np.arange(dimension, dtype=np.float64)] *)
Definition arange (k : nat) : R := INR k.

Definition annihilation_sparse (dimension : nat) : Matrix dimension dimension :=
  let offdiag_elements := fun k => RtoC (sqrt (INR k)) in
  dia_matrix offdiag_elements 1 dimension.

Definition creation_sparse (dimension : nat) : Matrix dimension dimension :=
  transpose (annihilation_sparse dimension).

Definition number (dimension : nat) (p : prefactor)
  : result (Matrix dimension dimension) :=
  let diag_elements := arange in
  diag_elements <-
    (if truthy p then imul_float64 diag_elements p else ret diag_elements) ;;
  ret (diagflat (fun k => RtoC (diag_elements k)) dimension).

Definition number_sparse (dimension : nat) (p : prefactor)
  : result (Matrix dimension dimension) :=
  let diag_elements := arange in
  diag_elements <-
    (if truthy p then imul_float64 diag_elements p else ret diag_elements) ;;
  ret (dia_matrix (fun k => RtoC (diag_elements k)) 0 dimension).

(** [np.diagflat(v, 1)] for [v] of length [len]: [v] on the first
    super-diagonal of a matrix with one row more than [v] has entries. *)
Definition diagflat1 (v : nat -> C) (len : nat) : Matrix (S len) (S len) :=
  mk_matrix (fun i j => if (j =? S i)%nat then v i else C0).

(** [np.sqrt(range(1, dimension))] has [dimension - 1] entries, none for
    [dimension = 0]. *)
Definition annihilation (dimension : nat)
  : Matrix (S (dimension - 1)) (S (dimension - 1)) :=
  let offdiag_elements := fun k => RtoC (sqrt (INR (1 + k))) in
  diagflat1 offdiag_elements (dimension - 1).

Definition creation (dimension : nat)
  : Matrix (S (dimension - 1)) (S (dimension - 1)) :=
  transpose (annihilation dimension).

(** An integer index into an axis of length [len], as scipy validates it:
    out of [-len, len) it raises [IndexError], a negative index counts from
    the end. *)
Definition validate_index (idx : Z) (len : nat) : result nat :=
  if ((idx <? - Z.of_nat len) || (Z.of_nat len <=? idx))%Z%bool
  then Raise IndexError
  else ret (Z.to_nat (if (idx <? 0)%Z then idx + Z.of_nat len else idx)%Z).

Definition hubbard_sparse (j1 j2 : Z) (dimension : nat)
  : result (Matrix dimension dimension) :=
  row <- validate_index j1 dimension ;;
  col <- validate_index j2 dimension ;;
  ret (mk_matrix
         (fun i j => if ((i =? row) && (j =? col))%nat then C1 else C0)).

(** [prefactor if prefactor is not None else 1.0] *)
Definition prefactor_or_one (p : prefactor) : C :=
  match p with
  | PNone => C1
  | PFloat x => RtoC x
  | PComplex z => z
  end.

Definition a_plus_adag_sparse (dimension : nat) (p : prefactor)
  : Matrix dimension dimension :=
  let prefactor := prefactor_or_one p in
  prefactor *s (annihilation_sparse dimension + creation_sparse dimension).

Definition a_plus_adag (dimension : nat) (p : prefactor)
  : Matrix dimension dimension :=
  a_plus_adag_sparse dimension p.

Definition iadag_minus_ia_sparse (dimension : nat) (p : prefactor)
  : Matrix dimension dimension :=
  let prefactor := prefactor_or_one p in
  prefactor
  *s (Ci *s creation_sparse dimension - Ci *s annihilation_sparse dimension).

Definition iadag_minus_ia (dimension : nat) (p : prefactor)
  : Matrix dimension dimension :=
  iadag_minus_ia_sparse dimension p.

(** [np.asarray([[a, b], [c, d]])] *)
Definition asarray2 (a b c d : C) : Matrix 2 2 :=
  mk_matrix (fun i j =>
    match i, j with
    | O, O => a
    | O, S O => b
    | S O, O => c
    | S O, S O => d
    | _, _ => C0
    end).

Definition sigma_plus : Matrix 2 2 := asarray2 C0 C1 C0 C0.

Definition sigma_minus : Matrix 2 2 := transpose sigma_plus.

Definition sigma_x : Matrix 2 2 := asarray2 C0 C1 C1 C0.

Definition sigma_y : Matrix 2 2 := asarray2 C0 (- Ci)%C Ci C0.

Definition sigma_z : Matrix 2 2 := asarray2 C1 C0 C0 (RtoC (-1)).

End op.

(* ================================================================== *)
(** ** External collaborators of cos2phi_qubit.py

    Functions the source calls that belong to other modules or to
    scipy.  Nothing is assumed about their values. *)

(** [discretization.Grid1d] *)
Record Grid1d : Type := {
  min_val : R;
  max_val : R;
  pt_count : nat
}.

Class Collaborators : Type := {
  (** [scipy.sparse.linalg.expm] *)
  expm : forall n : nat, Matrix n n -> Matrix n n;
  (** [osc.harm_osc_wavefunction(n, x, l_osc)] at the grid point [x] *)
  harm_osc_wavefunction : Z -> R -> C -> C;
  (** [Grid1d.make_linspace()]: the grid point of an index *)
  make_linspace : Grid1d -> nat -> R;
  (** [calc_therm_ratio(omega, T, omega_in_standard_units)] *)
  calc_therm_ratio : R -> R -> bool -> R;
  (** [units.to_standard_units] *)
  to_standard_units : R -> R;
  (** [scipy.special.kv] *)
  kv : R -> R -> R
}.

(* ================================================================== *)
(** ** cos2phi_qubit.py: class Cos2PhiQubit *)

Record Cos2PhiQubit : Type := {
  EJ : R;
  ECJ : R;
  EL : R;
  EC : R;
  dL : R;
  dCJ : R;
  dEJ : R;
  flux : R;
  ng : R;
  ncut : Z;
  zeta_cut : Z;
  phi_cut : Z;
  truncated_dim : Z
}.

(** A value of the dictionary of [default_params]. *)
Inductive pyval : Type :=
| PyFloat (x : R)
| PyInt (n : Z).

Definition default_params : list (string * pyval) :=
  [ ("EJ"%string, PyFloat 15);
    ("ECJ"%string, PyFloat 2);
    ("EL"%string, PyFloat 1);
    ("EC"%string, PyFloat (4 / 100));
    ("dCJ"%string, PyFloat 0);
    ("dL"%string, PyFloat (6 / 10));
    ("dEJ"%string, PyFloat 0);
    ("flux"%string, PyFloat (5 / 10));
    ("ng"%string, PyFloat 0);
    ("ncut"%string, PyInt 7);
    ("zeta_cut"%string, PyInt 30);
    ("phi_cut"%string, PyInt 7) ].

Fixpoint kwarg (kw : list (string * pyval)) (key : string) : option pyval :=
  match kw with
  | [] => None
  | (k, v) :: rest => if String.eqb k key then Some v else kwarg rest key
  end.

Definition kwfloat (kw : list (string * pyval)) (key : string) : option R :=
  match kwarg kw key with
  | Some (PyFloat x) => Some x
  | Some (PyInt n) => Some (IZR n)
  | None => None
  end.

Definition kwint (kw : list (string * pyval)) (key : string) : option Z :=
  match kwarg kw key with
  | Some (PyInt n) => Some n
  | _ => None
  end.

Definition obind {A B : Type} (o : option A) (k : A -> option B) : option B :=
  match o with
  | Some a => k a
  | None => None
  end.

(** [__init__] called with the keyword arguments [kw]: it stores them;
    [truncated_dim] defaults to 6. *)
Definition init (kw : list (string * pyval)) : option Cos2PhiQubit :=
  obind (kwfloat kw "EJ") (fun vEJ =>
  obind (kwfloat kw "ECJ") (fun vECJ =>
  obind (kwfloat kw "EL") (fun vEL =>
  obind (kwfloat kw "EC") (fun vEC =>
  obind (kwfloat kw "dL") (fun vdL =>
  obind (kwfloat kw "dCJ") (fun vdCJ =>
  obind (kwfloat kw "dEJ") (fun vdEJ =>
  obind (kwfloat kw "flux") (fun vflux =>
  obind (kwfloat kw "ng") (fun vng =>
  obind (kwint kw "ncut") (fun vncut =>
  obind (kwint kw "zeta_cut") (fun vzeta_cut =>
  obind (kwint kw "phi_cut") (fun vphi_cut =>
  Some {| EJ := vEJ; ECJ := vECJ; EL := vEL; EC := vEC; dL := vdL;
          dCJ := vdCJ; dEJ := vdEJ; flux := vflux; ng := vng;
          ncut := vncut; zeta_cut := vzeta_cut; phi_cut := vphi_cut;
          truncated_dim :=
            match kwint kw "truncated_dim" with
            | Some n => n
            | None => 6%Z
            end |})))))))))))).

Definition supported_noise_channels : list string :=
  [ "tphi_1_over_f_cc"%string;
    "tphi_1_over_f_flux"%string;
    "tphi_1_over_f_ng"%string;
    "t1_capacitive"%string;
    "t1_inductive"%string;
    "t1_purcell"%string ].

Definition _dim_phi (self : Cos2PhiQubit) : Z := phi_cut self.
Definition _dim_zeta (self : Cos2PhiQubit) : Z := zeta_cut self.
Definition _dim_theta (self : Cos2PhiQubit) : Z := 2 * ncut self + 1.

Definition hilbertdim (self : Cos2PhiQubit) : Z :=
  (_dim_phi self * _dim_zeta self * _dim_theta self)%Z.

(** Shapes of the matrices of the three subspaces and of the full space. *)
Definition nphi (self : Cos2PhiQubit) : nat := Z.to_nat (_dim_phi self).
Definition nzeta (self : Cos2PhiQubit) : nat := Z.to_nat (_dim_zeta self).
Definition ntheta (self : Cos2PhiQubit) : nat := Z.to_nat (_dim_theta self).
Definition ndim (self : Cos2PhiQubit) : nat :=
  (nphi self * nzeta self * ntheta self)%nat.

Definition _disordered_el (self : Cos2PhiQubit) : result R :=
  EL self // (1 - dL self ^ 2).

Definition _disordered_ecj (self : Cos2PhiQubit) : result R :=
  ECJ self // (1 - dCJ self ^ 2).

Definition phi_osc (self : Cos2PhiQubit) : result C :=
  ecj <- _disordered_ecj self ;;
  el <- _disordered_el self ;;
  r <- (2 * ecj) // el ;;
  ret (pow_quarter r).

Definition zeta_osc (self : Cos2PhiQubit) : result C :=
  el <- _disordered_el self ;;
  r <- (4 * EC self) // el ;;
  ret (pow_quarter r).

Definition phi_plasma (self : Cos2PhiQubit) : result R :=
  el <- _disordered_el self ;;
  ecj <- _disordered_ecj self ;;
  math_sqrt (8 * el * ecj).

Definition zeta_plasma (self : Cos2PhiQubit) : result R :=
  el <- _disordered_el self ;;
  math_sqrt (16 * EC self * el).

(** Modelled from the spec: [process_op] and [process_hamiltonian] of the
    qubit base class, which are not under src/.  "[False] returns the raw
    native operator": every operator below is the one returned for
    [energy_esys=False]. *)
Definition process_op {n : nat} (native_op : Matrix n n) : Matrix n n :=
  native_op.

Definition process_hamiltonian {n : nat} (native_hamiltonian : Matrix n n)
  : Matrix n n := native_hamiltonian.

Definition _kron3 {a b c : nat}
  (mat1 : Matrix a a) (mat2 : Matrix b b) (mat3 : Matrix c c)
  : Matrix (a * b * c) (a * b * c) :=
  kron (kron mat1 mat2) mat3.

Definition _identity_phi (self : Cos2PhiQubit) : Matrix (nphi self) (nphi self) :=
  eye (nphi self).
Definition _identity_zeta (self : Cos2PhiQubit)
  : Matrix (nzeta self) (nzeta self) := eye (nzeta self).
Definition _identity_theta (self : Cos2PhiQubit)
  : Matrix (ntheta self) (ntheta self) := eye (ntheta self).

Definition total_identity (self : Cos2PhiQubit)
  : Matrix (ndim self) (ndim self) :=
  _kron3 (_identity_phi self) (_identity_zeta self) (_identity_theta self).

Definition potential (self : Cos2PhiQubit) (phi zeta theta : R) : result R :=
  el <- _disordered_el self ;;
  el' <- _disordered_el self ;;
  ret (el * (phi * phi) + el' * (zeta * zeta)
       - 2 * EJ self * cos theta * cos (phi + PI * flux self)
       + 2 * dEJ self * EJ self * sin (phi + PI * flux self) * sin theta)%R.

Definition reduced_potential (self : Cos2PhiQubit) (phi theta : R)
  : result R :=
  potential self phi 0 theta.

Section Operators.

Context {ext : Collaborators}.

Definition _phi_operator (self : Cos2PhiQubit)
  : result (Matrix (nphi self) (nphi self)) :=
  let dimension := nphi self in
  osc <- phi_osc self ;;
  div_scalar
    (osc *s (op.creation_sparse dimension + op.annihilation_sparse dimension))
    (RtoC (sqrt 2)).

Definition phi_operator (self : Cos2PhiQubit)
  : result (Matrix (ndim self) (ndim self)) :=
  phi <- _phi_operator self ;;
  let native := _kron3 phi (_identity_zeta self) (_identity_theta self) in
  ret (process_op native).

Definition _n_phi_operator (self : Cos2PhiQubit)
  : result (Matrix (nphi self) (nphi self)) :=
  let dimension := nphi self in
  let num :=
    Ci *s (op.creation_sparse dimension - op.annihilation_sparse dimension) in
  osc <- phi_osc self ;;
  div_scalar num (osc * RtoC (sqrt 2))%C.

Definition n_phi_operator (self : Cos2PhiQubit)
  : result (Matrix (ndim self) (ndim self)) :=
  nphi_op <- _n_phi_operator self ;;
  let native := _kron3 nphi_op (_identity_zeta self) (_identity_theta self) in
  ret (process_op native).

Definition _zeta_operator (self : Cos2PhiQubit)
  : result (Matrix (nzeta self) (nzeta self)) :=
  let dimension := nzeta self in
  osc <- zeta_osc self ;;
  div_scalar
    (osc *s (op.creation_sparse dimension + op.annihilation_sparse dimension))
    (RtoC (sqrt 2)).

Definition zeta_operator (self : Cos2PhiQubit)
  : result (Matrix (ndim self) (ndim self)) :=
  zeta <- _zeta_operator self ;;
  let native := _kron3 (_identity_phi self) zeta (_identity_theta self) in
  ret (process_op native).

Definition _n_zeta_operator (self : Cos2PhiQubit)
  : result (Matrix (nzeta self) (nzeta self)) :=
  let dimension := nzeta self in
  let num :=
    Ci *s (op.creation_sparse dimension - op.annihilation_sparse dimension) in
  osc <- zeta_osc self ;;
  div_scalar num (osc * RtoC (sqrt 2))%C.

Definition n_zeta_operator (self : Cos2PhiQubit)
  : result (Matrix (ndim self) (ndim self)) :=
  nzeta_op <- _n_zeta_operator self ;;
  let native := _kron3 (_identity_phi self) nzeta_op (_identity_theta self) in
  ret (process_op native).

Definition _exp_i_phi_operator (self : Cos2PhiQubit)
  : result (Matrix (nphi self) (nphi self)) :=
  phi <- _phi_operator self ;;
  let exponent := Ci *s phi in
  ret (expm exponent).

Definition _cos_phi_operator (self : Cos2PhiQubit)
  : result (Matrix (nphi self) (nphi self)) :=
  e <- _exp_i_phi_operator self ;;
  let cos_phi_op := RtoC (5 / 10) *s e in
  ret (cos_phi_op + adjoint cos_phi_op).

Definition _sin_phi_operator (self : Cos2PhiQubit)
  : result (Matrix (nphi self) (nphi self)) :=
  e <- _exp_i_phi_operator self ;;
  let sin_phi_op := (- Ci * RtoC (5 / 10))%C *s e in
  ret (sin_phi_op + adjoint sin_phi_op).

Definition _n_theta_operator (self : Cos2PhiQubit)
  : Matrix (ntheta self) (ntheta self) :=
  let diag_elements := fun k => RtoC (IZR (- ncut self + Z.of_nat k)) in
  dia_matrix diag_elements 0 (ntheta self).

Definition n_theta_operator (self : Cos2PhiQubit)
  : Matrix (ndim self) (ndim self) :=
  let native :=
    _kron3 (_identity_phi self) (_identity_zeta self) (_n_theta_operator self)
  in process_op native.

(** [np.ones(n)] *)
Definition ones : nat -> C := fun _ => C1.

Definition _cos_theta_operator (self : Cos2PhiQubit)
  : Matrix (ntheta self) (ntheta self) :=
  let cos_op := RtoC (5 / 10) *s dia_matrix ones 1 (ntheta self) in
  cos_op + RtoC (5 / 10) *s dia_matrix ones (-1) (ntheta self).

Definition _sin_theta_operator (self : Cos2PhiQubit)
  : Matrix (ntheta self) (ntheta self) :=
  let sin_op := RtoC (5 / 10) *s dia_matrix ones (-1) (ntheta self) in
  let sin_op := sin_op - RtoC (5 / 10) *s dia_matrix ones 1 (ntheta self) in
  (- Ci)%C *s sin_op.

Definition hamiltonian (self : Cos2PhiQubit)
  : result (Matrix (ndim self) (ndim self)) :=
  w_phi <- phi_plasma self ;;
  num_phi <- op.number_sparse (nphi self) (op.PFloat w_phi) ;;
  let phi_osc_mat :=
    _kron3 num_phi (_identity_zeta self) (_identity_theta self) in
  w_zeta <- zeta_plasma self ;;
  num_zeta <- op.number_sparse (nzeta self) (op.PFloat w_zeta) ;;
  let zeta_osc_mat :=
    _kron3 (_identity_phi self) num_zeta (_identity_theta self) in
  ecj <- _disordered_ecj self ;;
  n_zeta <- n_zeta_operator self ;;
  let cross_kinetic_mat :=
    RtoC (2 * ecj)
    *s Mpow2 (n_theta_operator self - RtoC (ng self) *s total_identity self
              - n_zeta) in
  cos_phi <- _cos_phi_operator self ;;
  sin_phi <- _sin_phi_operator self ;;
  let phi_flux_term :=
    RtoC (cos (flux self * PI)) *s cos_phi
    - RtoC (sin (flux self * PI)) *s sin_phi in
  let junction_mat :=
    RtoC (-2 * EJ self)
    *s _kron3 phi_flux_term (_identity_zeta self) (_cos_theta_operator self)
    + RtoC (2 * EJ self) *s total_identity self in
  el <- _disordered_el self ;;
  phi <- _phi_operator self ;;
  zeta <- _zeta_operator self ;;
  let disorder_l :=
    RtoC (-2 * el * dL self) *s _kron3 phi zeta (_identity_theta self) in
  sin_phi' <- _sin_phi_operator self ;;
  cos_phi' <- _cos_phi_operator self ;;
  let dis_phi_flux_term :=
    RtoC (cos (flux self * PI)) *s sin_phi'
    + RtoC (sin (flux self * PI)) *s cos_phi' in
  let disorder_j :=
    RtoC (2 * EJ self * dEJ self)
    *s _kron3 dis_phi_flux_term (_identity_zeta self)
         (_sin_theta_operator self) in
  n_phi_a <- _n_phi_operator self ;;
  n_phi_full <- n_phi_operator self ;;
  n_phi_b <- _n_phi_operator self ;;
  n_zeta_b <- _n_zeta_operator self ;;
  let dis_c_opt :=
    _kron3 n_phi_a (_identity_zeta self) (_n_theta_operator self)
    - RtoC (ng self) *s n_phi_full
    - _kron3 n_phi_b n_zeta_b (_identity_theta self) in
  ecj' <- _disordered_ecj self ;;
  let disorder_c := RtoC (-4 * ecj' * dCJ self) *s dis_c_opt in
  let hamiltonian_mat :=
    phi_osc_mat + zeta_osc_mat + cross_kinetic_mat + junction_mat
    + disorder_l + disorder_j + disorder_c in
  ret (process_hamiltonian hamiltonian_mat).

Definition phi_1_operator (self : Cos2PhiQubit)
  : result (Matrix (ndim self) (ndim self)) :=
  zeta <- zeta_operator self ;;
  phi <- phi_operator self ;;
  ret (process_op (zeta - phi)).

Definition phi_2_operator (self : Cos2PhiQubit)
  : result (Matrix (ndim self) (ndim self)) :=
  zeta <- zeta_operator self ;;
  phi <- phi_operator self ;;
  ret (process_op (- zeta - phi)).

Definition n_1_operator (self : Cos2PhiQubit)
  : result (Matrix (ndim self) (ndim self)) :=
  n_phi <- n_phi_operator self ;;
  n_zeta <- n_zeta_operator self ;;
  ret (process_op
         (RtoC (5 / 10) *s n_phi
          + RtoC (5 / 10) *s (n_theta_operator self - n_zeta))).

Definition n_2_operator (self : Cos2PhiQubit)
  : result (Matrix (ndim self) (ndim self)) :=
  n_phi <- n_phi_operator self ;;
  n_zeta <- n_zeta_operator self ;;
  ret (process_op
         (RtoC (5 / 10) *s n_phi
          - RtoC (5 / 10) *s (n_theta_operator self - n_zeta))).

Definition d_hamiltonian_d_flux (self : Cos2PhiQubit)
  : result (Matrix (ndim self) (ndim self)) :=
  sin_phi <- _sin_phi_operator self ;;
  cos_phi <- _cos_phi_operator self ;;
  let phi_flux_term :=
    RtoC (cos (flux self * PI)) *s sin_phi
    + RtoC (sin (flux self * PI)) *s cos_phi in
  let junction_mat :=
    RtoC PI
    *s (RtoC (2 * EJ self)
        *s _kron3 phi_flux_term (_identity_zeta self)
             (_cos_theta_operator self)) in
  cos_phi' <- _cos_phi_operator self ;;
  sin_phi' <- _sin_phi_operator self ;;
  let dis_phi_flux_term :=
    RtoC (cos (flux self * PI)) *s cos_phi'
    - RtoC (sin (flux self * PI)) *s sin_phi' in
  let dis_junction_mat :=
    RtoC PI
    *s (RtoC (2 * dEJ self * EJ self)
        *s _kron3 dis_phi_flux_term (_identity_zeta self)
             (_sin_theta_operator self)) in
  ret (process_op (junction_mat + dis_junction_mat)).

Definition d_hamiltonian_d_EJ (self : Cos2PhiQubit)
  : result (Matrix (ndim self) (ndim self)) :=
  cos_phi <- _cos_phi_operator self ;;
  sin_phi <- _sin_phi_operator self ;;
  let phi_flux_term :=
    RtoC (cos (flux self * PI)) *s cos_phi
    - RtoC (sin (flux self * PI)) *s sin_phi in
  let junction_mat :=
    RtoC (-2)
    *s _kron3 phi_flux_term (_identity_zeta self) (_cos_theta_operator self) in
  sin_phi' <- _sin_phi_operator self ;;
  cos_phi' <- _cos_phi_operator self ;;
  let dis_phi_flux_term :=
    RtoC (cos (flux self * PI)) *s sin_phi'
    + RtoC (sin (flux self * PI)) *s cos_phi' in
  let dis_junction_mat :=
    RtoC (2 * dEJ self)
    *s _kron3 dis_phi_flux_term (_identity_zeta self)
         (_sin_theta_operator self) in
  ret (process_op (junction_mat + dis_junction_mat)).

Definition d_hamiltonian_d_ng (self : Cos2PhiQubit)
  : result (Matrix (ndim self) (ndim self)) :=
  ecj <- _disordered_ecj self ;;
  n_phi <- n_phi_operator self ;;
  let first := RtoC (4 * dCJ self * ecj) *s n_phi in
  ecj' <- _disordered_ecj self ;;
  shifted <- sub_scalar (n_theta_operator self) (ng self) ;;
  n_zeta <- n_zeta_operator self ;;
  ret (process_op (first - RtoC (4 * ecj') *s (shifted - n_zeta))).

End Operators.

Local Close Scope matrix_scope.

(** *** wavefunction *)

(** [storage.WaveFunctionOnGrid]: the three grids and the amplitude at
    every triple of grid indices. *)
Record WaveFunctionOnGrid : Type := {
  gridspec : Grid1d * Grid1d * Grid1d;
  amplitudes : nat -> nat -> nat -> C
}.

(** An eigensystem [(evals, evecs)]: [evecs] has one row per basis state
    and [n_evals] columns. *)
Record Eigensystem (rows : nat) : Type := {
  n_evals : nat;
  evals : nat -> R;
  evecs : Matrix rows n_evals
}.

(** [for k in range(n): s = body(k, s)] *)
Fixpoint for_range {S : Type} (n : nat) (body : nat -> S -> result S) (s : S)
  : result S :=
  match n with
  | O => ret s
  | Datatypes.S k => s' <- for_range k body s ;; body k s'
  end.

(** [np.exp(1j * t)] *)
Definition Cexp_i (t : R) : C := (cos t, sin t).

(** [z / s] for a complex [z] and a nonzero float [s]. *)
Definition Cdiv_real (z : C) (s : R) : C := (fst z / s, snd z / s).

Definition _default_phi_grid : Grid1d :=
  {| min_val := -4 * PI; max_val := 4 * PI; pt_count := 100 |}.
Definition _default_zeta_grid : Grid1d :=
  {| min_val := -4 * PI; max_val := 4 * PI; pt_count := 100 |}.
Definition _default_theta_grid : Grid1d :=
  {| min_val := - (5 / 10) * PI; max_val := (15 / 10) * PI; pt_count := 100 |}.

(** [grid or default] *)
Definition grid_or (grid : option Grid1d) (default : Grid1d) : Grid1d :=
  match grid with
  | Some g => g
  | None => default
  end.

Section Wavefunction.

Context {ext : Collaborators}.

(** [self.eigensys(evals_count)] of the qubit base class. *)
Variable eigensys :
  forall self : Cos2PhiQubit, nat -> result (Eigensystem (ndim self)).

(** The body of the innermost loop: the contribution of the basis state
    [(i, j, k)], added to the amplitudes so far. *)
Definition wavefunction_term (self : Cos2PhiQubit)
  (wavefunc_basis_amplitudes : nat -> nat -> nat -> C)
  (phi_basis_labels zeta_basis_labels theta_basis_labels : nat -> R)
  (i j k : nat) (wavefunc_amplitudes : nat -> nat -> nat -> C)
  : result (nat -> nat -> nat -> C) :=
  let n_phi := Z.of_nat i in
  let n_zeta := Z.of_nat j in
  let n_theta := (Z.of_nat k - ncut self)%Z in
  l_phi <- phi_osc self ;;
  let phi_wavefunc_amplitudes :=
    fun a => harm_osc_wavefunction n_phi (phi_basis_labels a) l_phi in
  l_zeta <- zeta_osc self ;;
  let zeta_wavefunc_amplitudes :=
    fun b => harm_osc_wavefunction n_zeta (zeta_basis_labels b) l_zeta in
  let theta_wavefunc_amplitudes :=
    fun c =>
      Cdiv_real (Cexp_i (- (IZR n_theta * theta_basis_labels c)))
        (sqrt (2 * PI)) in
  ret (fun a b c =>
         wavefunc_amplitudes a b c
         + wavefunc_basis_amplitudes i j k
           * (phi_wavefunc_amplitudes a * zeta_wavefunc_amplitudes b
              * theta_wavefunc_amplitudes c))%C.

Definition wavefunction (self : Cos2PhiQubit)
  (esys : option (Eigensystem (ndim self))) (which : nat)
  (phi_grid zeta_grid theta_grid : option Grid1d)
  : result WaveFunctionOnGrid :=
  let evals_count := Nat.max (which + 1) 3 in
  es <- match esys with
        | None => eigensys self evals_count
        | Some es => ret es
        end ;;
  let phi_grid := grid_or phi_grid _default_phi_grid in
  let zeta_grid := grid_or zeta_grid _default_zeta_grid in
  let theta_grid := grid_or theta_grid _default_theta_grid in
  let phi_basis_labels := make_linspace phi_grid in
  let zeta_basis_labels := make_linspace zeta_grid in
  let theta_basis_labels := make_linspace theta_grid in
  column <-
    (if (which <? es.(n_evals))%nat
     then ret (fun r => es.(evecs) r which)
     else Raise IndexError) ;;
  let wavefunc_basis_amplitudes :=
    fun i j k => column ((i * nzeta self + j) * ntheta self + k)%nat in
  let wavefunc_amplitudes := fun _ _ _ : nat => C0 in
  wavefunc_amplitudes <-
    for_range (nphi self) (fun i acc =>
      for_range (nzeta self) (fun j acc =>
        for_range (ntheta self) (fun k acc =>
          wavefunction_term self wavefunc_basis_amplitudes
            phi_basis_labels zeta_basis_labels theta_basis_labels
            i j k acc) acc) acc) wavefunc_amplitudes ;;
  ret {| gridspec := (phi_grid, zeta_grid, theta_grid);
         amplitudes := wavefunc_amplitudes |}.

End Wavefunction.

(* ================================================================== *)
(** ** cos2phi_qubit.py: class NoisyCos2PhiQubit *)

Module NoisyCos2PhiQubit.

(** What the noise methods use of [self]: the abstract operator methods,
    the attributes they read, [supported_noise_channels] as it is bound
    when the method is called, and the method [t1] inherited from
    [NoisySystem] (the golden-rule integrator, not under src/). *)
Class methods (Self : Type) : Type := {
  operator : Type;
  esys : Type;
  supported_noise_channels : Self -> list string;
  phi_1_operator : Self -> result operator;
  phi_2_operator : Self -> result operator;
  n_1_operator : Self -> result operator;
  n_2_operator : Self -> result operator;
  n_zeta_operator : Self -> result operator;
  EL : Self -> R;
  dL : Self -> R;
  ECJ : Self -> R;
  dCJ : Self -> R;
  EC : Self -> R;
  t1 : Self -> Z -> Z -> operator -> (R -> R -> result R) -> bool ->
       option esys -> bool -> result R
}.

(** The argument [Q_ind] or [Q_cap]: [None], a function of [omega], or a
    number. *)
Inductive quality : Type :=
| QNone
| QFun (f : R -> result R)
| QNum (x : R).

(** [name in channels] *)
Definition mem (name : string) (channels : list string) : bool :=
  existsb (String.eqb name) channels.

Definition unsupported (name : string) : exn :=
  RuntimeError ("Noise channel '" ++ name ++ "' is not supported in this system.").

Section Noise.

Context {ext : Collaborators} {Self : Type} {M : methods Self}.

(** The default [q_ind_fun] of [t1_inductive]. *)
Definition default_q_ind_fun (T omega : R) : result R :=
  let therm_ratio := Rabs (calc_therm_ratio omega T false) in
  let therm_ratio_500MHz := calc_therm_ratio (2 * PI * 500000000) T true in
  (500000000
   * (kv 0 (1 / 2 * therm_ratio_500MHz) * sinh (1 / 2 * therm_ratio_500MHz)))
  // (kv 0 (1 / 2 * therm_ratio) * sinh (1 / 2 * therm_ratio)).

(** The default [q_cap_fun] of [t1_capacitive] and [t1_purcell]; the base
    of the power is positive whenever the division returns. *)
Definition default_q_cap_fun (omega : R) : result R :=
  base <- (2 * PI * 6000000000) // Rabs (to_standard_units omega) ;;
  ret (1000000 * Rpower base (7 / 10)).

Definition q_ind_fun (Q_ind : quality) (T : R) : R -> result R :=
  match Q_ind with
  | QNone => default_q_ind_fun T
  | QFun f => f
  | QNum x => fun _ => ret x
  end.

Definition q_cap_fun (Q_cap : quality) : R -> result R :=
  match Q_cap with
  | QNone => default_q_cap_fun
  | QFun f => f
  | QNum x => fun _ => ret x
  end.

(** The thermal factor shared by all spectral densities, applied to the
    prefactor [s] already divided by the quality factor:
    [s * (1 / np.tanh(0.5 * np.abs(therm_ratio))) / (1 + np.exp(-therm_ratio))]. *)
Definition thermal (s therm_ratio : R) : result R :=
  c <- 1 // tanh (5 / 10 * Rabs therm_ratio) ;;
  (s * c) // (1 + exp (- therm_ratio)).

(** [spectral_density1] of [t1_inductive] *)
Definition t1_inductive_spectral_density1 (self : Self)
  (q_fun : R -> result R) (omega T : R) : result R :=
  let therm_ratio := calc_therm_ratio omega T false in
  a <- (2 * EL self) // (1 - dL self) ;;
  q <- q_fun omega ;;
  b <- a // q ;;
  s <- thermal b therm_ratio ;;
  ret (s * (2 * PI)).

(** [spectral_density2] of [t1_inductive] *)
Definition t1_inductive_spectral_density2 (self : Self)
  (q_fun : R -> result R) (omega T : R) : result R :=
  let therm_ratio := calc_therm_ratio omega T false in
  a <- (2 * EL self) // (1 + dL self) ;;
  q <- q_fun omega ;;
  b <- a // q ;;
  s <- thermal b therm_ratio ;;
  ret (s * (2 * PI)).

Definition t1_inductive (self : Self) (i j : Z) (Q_ind : quality) (T : R)
  (total : bool) (es : option esys) (get_rate : bool) : result R :=
  if negb (mem "t1_inductive" (supported_noise_channels self)) then
    Raise (unsupported "t1_inductive")
  else
    let q_fun := q_ind_fun Q_ind T in
    let spectral_density1 := t1_inductive_spectral_density1 self q_fun in
    noise_op1 <- phi_1_operator self ;;
    let spectral_density2 := t1_inductive_spectral_density2 self q_fun in
    noise_op2 <- phi_2_operator self ;;
    rate_1 <- t1 self i j noise_op1 spectral_density1 total es true ;;
    rate_2 <- t1 self i j noise_op2 spectral_density2 total es true ;;
    if get_rate then ret (rate_1 + rate_2)%R else 1 // (rate_1 + rate_2)%R.

(** [spectral_density1] of [t1_capacitive] *)
Definition t1_capacitive_spectral_density1 (self : Self)
  (q_fun : R -> result R) (omega T : R) : result R :=
  let therm_ratio := calc_therm_ratio omega T false in
  a <- (2 * 8 * ECJ self) // (1 - dCJ self) ;;
  q <- q_fun omega ;;
  b <- a // q ;;
  s1 <- thermal b therm_ratio ;;
  ret (s1 * (2 * PI)).

(** [spectral_density2] of [t1_capacitive] *)
Definition t1_capacitive_spectral_density2 (self : Self)
  (q_fun : R -> result R) (omega T : R) : result R :=
  let therm_ratio := calc_therm_ratio omega T false in
  a <- (2 * 8 * ECJ self) // (1 + dCJ self) ;;
  q <- q_fun omega ;;
  b <- a // q ;;
  s2 <- thermal b therm_ratio ;;
  ret (s2 * (2 * PI)).

Definition t1_capacitive (self : Self) (i j : Z) (Q_cap : quality) (T : R)
  (total : bool) (es : option esys) (get_rate : bool) : result R :=
  if negb (mem "t1_capacitive" (supported_noise_channels self)) then
    Raise (unsupported "t1_capacitive")
  else
    let q_fun := q_cap_fun Q_cap in
    let spectral_density1 := t1_capacitive_spectral_density1 self q_fun in
    let spectral_density2 := t1_capacitive_spectral_density2 self q_fun in
    noise_op1 <- n_1_operator self ;;
    noise_op2 <- n_2_operator self ;;
    rate_1 <- t1 self i j noise_op1 spectral_density1 total es true ;;
    rate_2 <- t1 self i j noise_op2 spectral_density2 total es true ;;
    if get_rate then ret (rate_1 + rate_2)%R else 1 // (rate_1 + rate_2)%R.

(** [spectral_density] of [t1_purcell] *)
Definition t1_purcell_spectral_density (self : Self)
  (q_fun : R -> result R) (omega T : R) : result R :=
  let therm_ratio := calc_therm_ratio omega T false in
  q <- q_fun omega ;;
  b <- (2 * 8 * EC self) // q ;;
  s <- thermal b therm_ratio ;;
  ret (s * (2 * PI)).

Definition t1_purcell (self : Self) (i j : Z) (Q_cap : quality) (T : R)
  (total : bool) (es : option esys) (get_rate : bool) : result R :=
  if negb (mem "t1_purcell" (supported_noise_channels self)) then
    Raise (unsupported "t1_purcell")
  else
    let q_fun := q_cap_fun Q_cap in
    let spectral_density := t1_purcell_spectral_density self q_fun in
    noise_op <- n_zeta_operator self ;;
    t1 self i j noise_op spectral_density total es get_rate.

End Noise.

End NoisyCos2PhiQubit.

(** A native operator of any size, as handed to [t1]. *)
Definition native_operator : Type := { n : nat & Matrix n n }.

Definition as_operator {n : nat} (r : result (Matrix n n))
  : result native_operator :=
  A <- r ;; ret (existT (fun n => Matrix n n) n A).

(** [Cos2PhiQubit] as a [NoisyCos2PhiQubit]: [channels] is what
    [supported_noise_channels()] returns when a noise method is called
    ([supported_noise_channels] itself unless the class was patched), and
    [inherited_t1] is the method [t1] of [NoisySystem]. *)
Definition Cos2PhiQubit_methods {ext : Collaborators}
  (channels : list string)
  (inherited_t1 :
     Cos2PhiQubit -> Z -> Z -> native_operator -> (R -> R -> result R) ->
     bool -> option { n : nat & Eigensystem n } -> bool -> result R)
  : NoisyCos2PhiQubit.methods Cos2PhiQubit :=
  {| NoisyCos2PhiQubit.operator := native_operator;
     NoisyCos2PhiQubit.esys := { n : nat & Eigensystem n };
     NoisyCos2PhiQubit.supported_noise_channels := fun _ => channels;
     NoisyCos2PhiQubit.phi_1_operator := fun q => as_operator (phi_1_operator q);
     NoisyCos2PhiQubit.phi_2_operator := fun q => as_operator (phi_2_operator q);
     NoisyCos2PhiQubit.n_1_operator := fun q => as_operator (n_1_operator q);
     NoisyCos2PhiQubit.n_2_operator := fun q => as_operator (n_2_operator q);
     NoisyCos2PhiQubit.n_zeta_operator :=
       fun q => as_operator (n_zeta_operator q);
     NoisyCos2PhiQubit.EL := EL;
     NoisyCos2PhiQubit.dL := dL;
     NoisyCos2PhiQubit.ECJ := ECJ;
     NoisyCos2PhiQubit.dCJ := dCJ;
     NoisyCos2PhiQubit.EC := EC;
     NoisyCos2PhiQubit.t1 := inherited_t1 |}.

(* ================================================================== *)
(** ** Notions used to state the properties *)

(** A matrix that equals its own conjugate transpose. *)
Definition hermitian {n : nat} (A : Matrix n n) : Prop := (adjoint A == A)%M.

(** The number operator without a prefactor: the diagonal [0 .. n-1]. *)
Definition plain_number (n : nat) : Matrix n n :=
  mk_matrix (fun i j => if (i =? j)%nat then RtoC (INR i) else C0).

(** The parameter ranges of the data model: positive energies and disorder
    fractions of magnitude below one. *)
Definition valid_parameters (self : Cos2PhiQubit) : Prop :=
  0 < EJ self /\ 0 < ECJ self /\ 0 < EL self /\ 0 < EC self /\
  -1 < dL self < 1 /\ -1 < dCJ self < 1.

(** [coth x] *)
Definition coth (x : R) : R := 1 / tanh x.

(** The plane wave [exp(-i n theta) / sqrt(2 pi)]. *)
Definition planewave (n : Z) (theta : R) : C :=
  Cdiv_real (Cexp_i (- (IZR n * theta))) (sqrt (2 * PI)).

(** A column of eigenvector amplitudes that is the basis vector of the
    first basis state [(0, 0, 0)]. *)
Definition first_basis_vector {rows cols : nat} (evecs : Matrix rows cols)
  (which : nat) : Prop :=
  (0 < rows)%nat /\
  forall r, (r < rows)%nat ->
    evecs r which = if (r =? 0)%nat then C1 else C0.

(** The commutator [A B - B A]. *)
Definition commutator {n : nat} (A B : Matrix n n) : Matrix n n :=
  (Mmult A B - Mmult B A)%M.

(** The identity with its last diagonal entry replaced by [- (n - 1)]: the
    commutator of the ladder operators of a space truncated to [n]
    levels. *)
Definition truncated_identity (n : nat) : Matrix n n :=
  mk_matrix (fun i j =>
    if (i =? j)%nat
    then if (S i =? n)%nat then RtoC (- INR i) else C1
    else C0).

(** The zero matrix. *)
Definition Zero (m n : nat) : Matrix m n := mk_matrix (fun _ _ => C0).

(** [self] with the flux set to [f]. *)
Definition with_flux (self : Cos2PhiQubit) (f : R) : Cos2PhiQubit :=
  {| EJ := EJ self; ECJ := ECJ self; EL := EL self; EC := EC self;
     dL := dL self; dCJ := dCJ self; dEJ := dEJ self; flux := f;
     ng := ng self; ncut := ncut self; zeta_cut := zeta_cut self;
     phi_cut := phi_cut self; truncated_dim := truncated_dim self |}.

(** The amplitude that the three loops of [wavefunction] build at the grid
    point [(a, b, c)]: the sum over all basis states. *)
Definition wavefunction_sum {ext : Collaborators} (self : Cos2PhiQubit)
  (amplitude : nat -> nat -> nat -> C) (l_phi l_zeta : C)
  (phi_labels zeta_labels theta_labels : nat -> R) (a b c : nat) : C :=
  Csum (fun i =>
    Csum (fun j =>
      Csum (fun k =>
        (amplitude i j k
         * (harm_osc_wavefunction (Z.of_nat i) (phi_labels a) l_phi
            * harm_osc_wavefunction (Z.of_nat j) (zeta_labels b) l_zeta
            * Cdiv_real
                (Cexp_i (- (IZR (Z.of_nat k - ncut self) * theta_labels c)))
                (sqrt (2 * PI))))%C)
        (ntheta self))
      (nzeta self))
    (nphi self).

(** A call that does not raise the unsupported-channel error. *)
Definition not_unsupported {A : Type} (c : result A) : Prop :=
  forall name, c <> Raise (NoisyCos2PhiQubit.unsupported name).

(** The collaborators of the noise methods of [self] never raise the
    unsupported-channel error themselves. *)
Definition collaborators_supported {Self : Type}
  {M : NoisyCos2PhiQubit.methods Self} (self : Self) : Prop :=
  not_unsupported (NoisyCos2PhiQubit.phi_1_operator self)
  /\ not_unsupported (NoisyCos2PhiQubit.phi_2_operator self)
  /\ not_unsupported (NoisyCos2PhiQubit.n_1_operator self)
  /\ not_unsupported (NoisyCos2PhiQubit.n_2_operator self)
  /\ not_unsupported (NoisyCos2PhiQubit.n_zeta_operator self)
  /\ forall i j noise_op spectral_density total es get_rate,
       not_unsupported
         (NoisyCos2PhiQubit.t1 self i j noise_op spectral_density total es
            get_rate).

(* ================================================================== *)
(** ** Objects of the closed examples

    The theorems hold for every collaborator; the closed examples need one
    to run on, and use these stand-ins. *)

Definition example_collaborators : Collaborators :=
  {| expm := fun n A => (eye n + A)%M;
     harm_osc_wavefunction := fun n x l => RtoC (exp (- (x * x) / 2));
     make_linspace := fun g k =>
       min_val g + INR k * (max_val g - min_val g) / (INR (pt_count g) - 1);
     calc_therm_ratio := fun omega T _ => omega / T;
     to_standard_units := fun x => x;
     kv := fun _ x => exp (- x) |}.

(** The qubit that [init default_params] builds. *)
Definition default_qubit : Cos2PhiQubit :=
  {| EJ := 15; ECJ := 2; EL := 1; EC := 4 / 100; dL := 6 / 10; dCJ := 0;
     dEJ := 0; flux := 5 / 10; ng := 0; ncut := 7; zeta_cut := 30;
     phi_cut := 7; truncated_dim := 6 |}.

(** A qubit with every disorder, the flux and the offset charge nonzero. *)
Definition disordered_qubit : Cos2PhiQubit :=
  {| EJ := 15; ECJ := 2; EL := 1; EC := 4 / 100; dL := 6 / 10;
     dCJ := 1 / 10; dEJ := 5 / 100; flux := 3 / 10; ng := 1 / 4; ncut := 2;
     zeta_cut := 3; phi_cut := 2; truncated_dim := 6 |}.

(** [self] with the offset charge set to [v]. *)
Definition with_ng (self : Cos2PhiQubit) (v : R) : Cos2PhiQubit :=
  {| EJ := EJ self; ECJ := ECJ self; EL := EL self; EC := EC self;
     dL := dL self; dCJ := dCJ self; dEJ := dEJ self; flux := flux self;
     ng := v; ncut := ncut self; zeta_cut := zeta_cut self;
     phi_cut := phi_cut self; truncated_dim := truncated_dim self |}.

(** [self] with the Josephson energy set to [e] and the flux to [f]. *)
Definition with_EJ_flux (self : Cos2PhiQubit) (e f : R) : Cos2PhiQubit :=
  {| EJ := e; ECJ := ECJ self; EL := EL self; EC := EC self;
     dL := dL self; dCJ := dCJ self; dEJ := dEJ self; flux := f;
     ng := ng self; ncut := ncut self; zeta_cut := zeta_cut self;
     phi_cut := phi_cut self; truncated_dim := truncated_dim self |}.

(** The terms of the Hamiltonian that depend on the Josephson energy [e]
    or on the flux [f]: the Josephson term with its constant offset and
    the junction-energy disorder. *)
Definition josephson_terms (self : Cos2PhiQubit) (e f : R)
  (cos_phi sin_phi : Matrix (nphi self) (nphi self))
  : Matrix (ndim self) (ndim self) :=
  (RtoC (-2 * e)
   *s _kron3 (RtoC (cos (f * PI)) *s cos_phi - RtoC (sin (f * PI)) *s sin_phi)
        (_identity_zeta self) (_cos_theta_operator self)
   + RtoC (2 * e) *s total_identity self
   + RtoC (2 * e * dEJ self)
     *s _kron3 (RtoC (cos (f * PI)) *s sin_phi + RtoC (sin (f * PI)) *s cos_phi)
          (_identity_zeta self) (_sin_theta_operator self))%M.

(** The terms of the Hamiltonian that depend on the offset charge [g]: the
    square of the cross-kinetic term and the offset part of the
    charging-energy disorder. *)
Definition charge_terms (self : Cos2PhiQubit) (g ecj : R)
  (n_zeta n_phi : Matrix (ndim self) (ndim self))
  : Matrix (ndim self) (ndim self) :=
  (RtoC (2 * ecj)
   *s Mpow2 (n_theta_operator self - RtoC g *s total_identity self - n_zeta)
   - RtoC (-4 * ecj * dCJ self) *s (RtoC g *s n_phi))%M.

(** The entry [(i, j)] of a returned matrix. *)
Definition entry {m n : nat} (r : result (Matrix m n)) (i j : nat) : C :=
  match r with
  | Ok A => A i j
  | Raise _ => C0
  end.

(** A golden-rule integrator for the closed examples: like the method
    [t1] of [NoisySystem] it refuses equal or negative level indices; its
    rate is the spectral density at unit frequency and temperature. *)
Definition example_t1 (self : Cos2PhiQubit) (i j : Z)
  (noise_op : native_operator) (spectral_density : R -> R -> result R)
  (total : bool) (es : option { n : nat & Eigensystem n })
  (get_rate : bool) : result R :=
  if ((i =? j)%Z || (i <? 0)%Z || (j <? 0)%Z)%bool then Raise ValueError
  else
    match spectral_density 1 1 with
    | Ok rate => if get_rate then ret rate else 1 // rate
    | Raise _ => Raise ValueError
    end.

(** The default qubit as a noisy system, with the channels of
    [supported_noise_channels]. *)
Definition example_methods : NoisyCos2PhiQubit.methods Cos2PhiQubit :=
  Cos2PhiQubit_methods (ext := example_collaborators)
    supported_noise_channels example_t1.

(** The same with [t1_capacitive] removed from the supported channels. *)
Definition patched_methods : NoisyCos2PhiQubit.methods Cos2PhiQubit :=
  Cos2PhiQubit_methods (ext := example_collaborators)
    (remove string_dec "t1_capacitive"%string supported_noise_channels)
    example_t1.

(** An eigensystem for the closed examples: three eigenvectors, each the
    basis vector of the first basis state. *)
Definition example_esys (rows : nat) : Eigensystem rows :=
  {| n_evals := 3;
     evals := fun k => INR k;
     evecs := mk_matrix (fun r _ => if (r =? 0)%nat then C1 else C0) |}.

(** The eigensolver of the closed examples: not available. *)
Definition example_eigensys (self : Cos2PhiQubit) (count : nat)
  : result (Eigensystem (ndim self)) := Raise ValueError.

(* ================================================================== *)
(** * Properties *)

(** ** Results *)

Lemma bind_Ok {A B : Type} (c : result A) (k : A -> result B) (b : B) :
  bind c k = Ok b -> exists a, c = Ok a /\ k a = Ok b.
Proof.
  destruct c as [a | e]; simpl; intros E.
  - exists a; split; [reflexivity | exact E].
  - discriminate E.
Qed.

Lemma bind_Raise {A B : Type} (c : result A) (k : A -> result B) (e : exn) :
  c = Raise e -> bind c k = Raise e.
Proof. intros ->; reflexivity. Qed.

Lemma py_div_Ok (x y v : R) : x // y = Ok v -> y <> 0 /\ v = x / y.
Proof.
  unfold py_div; destruct (Req_dec_T y 0) as [E | N]; intros H.
  - discriminate H.
  - inversion H; split; [exact N | reflexivity].
Qed.

Lemma py_div_nonzero (x y : R) : y <> 0 -> x // y = Ok (x / y).
Proof.
  intros N; unfold py_div; destruct (Req_dec_T y 0) as [E | _];
    [contradiction | reflexivity].
Qed.

Lemma py_div_zero (x : R) : x // 0 = Raise ZeroDivisionError.
Proof.
  unfold py_div; destruct (Req_dec_T 0 0) as [_ | N];
    [reflexivity | contradiction N; reflexivity].
Qed.

(** Splits an equation [(x <- c ;; k) = Ok v] into [c = Ok x] and
    [k x = Ok v]. *)
Ltac bind_inv H :=
  let a := fresh "v" in
  let E := fresh "E" in
  apply bind_Ok in H; destruct H as (a & E & H).

(** ** Complex numbers *)

Lemma C_eq (a b : C) : fst a = fst b -> snd a = snd b -> a = b.
Proof. destruct a, b; simpl; intros; subst; reflexivity. Qed.

(** [Csolve] proves an equation between complex expressions that holds by
    the ring laws in each component. *)
Ltac Cunfold :=
  unfold C1, C0, Ci, Cminus, Cplus, Cmult, Copp, Cconj, RtoC in *; simpl in *.
Ltac Csolve := Cunfold; apply C_eq; simpl; first [ring | lra | nra].

(** ** Matrices *)

Lemma mat_equiv_refl {m n} (A : Matrix m n) : (A == A)%M.
Proof. intros i j _ _; reflexivity. Qed.

Lemma mat_equiv_sym {m n} (A B : Matrix m n) : (A == B)%M -> (B == A)%M.
Proof. intros H i j Hi Hj; symmetry; apply H; assumption. Qed.

Lemma mat_equiv_trans {m n} (A B D : Matrix m n) :
  (A == B)%M -> (B == D)%M -> (A == D)%M.
Proof. intros H1 H2 i j Hi Hj; rewrite H1, H2; auto. Qed.

Lemma Cconj_plus (a b : C) : ((a + b)^* = a^* + b^*)%C.
Proof. Csolve. Qed.

Lemma Cconj_mult (a b : C) : ((a * b)^* = a^* * b^*)%C.
Proof. Csolve. Qed.

Lemma Cconj_involutive (a : C) : ((a^*)^* = a)%C.
Proof. Csolve. Qed.

Lemma Cconj_real (a : C) : is_real a -> (a^*)%C = a.
Proof. unfold is_real; intros H; apply C_eq; simpl; lra. Qed.

Lemma is_real_RtoC (r : R) : is_real (RtoC r).
Proof. reflexivity. Qed.

Lemma is_real_mult (a b : C) : is_real a -> is_real b -> is_real (a * b)%C.
Proof. unfold is_real; simpl; intros -> ->; ring. Qed.

Lemma is_real_inv (a : C) : is_real a -> is_real (Cinv a).
Proof. unfold is_real, Cinv; simpl; intros ->; unfold Rdiv; ring. Qed.

Lemma Csum_conj (f : nat -> C) (n : nat) :
  ((Csum f n)^*)%C = Csum (fun k => ((f k)^*)%C) n.
Proof.
  induction n as [| n IH]; simpl.
  - Csolve.
  - rewrite Cconj_plus, IH; reflexivity.
Qed.

Lemma Csum_ext (f g : nat -> C) (n : nat) :
  (forall k, (k < n)%nat -> f k = g k) -> Csum f n = Csum g n.
Proof.
  induction n as [| n IH]; intros H; simpl.
  - reflexivity.
  - rewrite IH by (intros k Hk; apply H; lia).
    rewrite H by lia; reflexivity.
Qed.

Lemma Csum_zero (f : nat -> C) (n : nat) :
  (forall k, (k < n)%nat -> f k = C0) -> Csum f n = C0.
Proof.
  induction n as [| n IH]; intros H; simpl.
  - reflexivity.
  - rewrite IH by (intros k Hk; apply H; lia).
    rewrite H by lia. Csolve.
Qed.

(** *** Hermitian matrices *)

Lemma hermitian_entry {n} (A : Matrix n n) :
  hermitian A <->
  forall i j, (i < n)%nat -> (j < n)%nat -> ((A j i)^*)%C = A i j.
Proof. unfold hermitian, mat_equiv; simpl; reflexivity. Qed.

Lemma hermitian_equiv {n} (A B : Matrix n n) :
  (A == B)%M -> hermitian A -> hermitian B.
Proof.
  intros E H; apply hermitian_entry; intros i j Hi Hj.
  rewrite <- !E by assumption.
  apply (proj1 (hermitian_entry A) H); assumption.
Qed.

Lemma hermitian_plus {n} (A B : Matrix n n) :
  hermitian A -> hermitian B -> hermitian (A + B)%M.
Proof.
  intros HA HB; apply hermitian_entry; intros i j Hi Hj; simpl.
  rewrite Cconj_plus.
  rewrite (proj1 (hermitian_entry A) HA), (proj1 (hermitian_entry B) HB);
    auto.
Qed.

Lemma hermitian_minus {n} (A B : Matrix n n) :
  hermitian A -> hermitian B -> hermitian (A - B)%M.
Proof.
  intros HA HB; apply hermitian_entry; intros i j Hi Hj; simpl.
  rewrite <- (proj1 (hermitian_entry A) HA i j),
          <- (proj1 (hermitian_entry B) HB i j) by assumption.
  Csolve.
Qed.

Lemma hermitian_scale {n} (c : C) (A : Matrix n n) :
  is_real c -> hermitian A -> hermitian (c *s A)%M.
Proof.
  intros Hc HA; apply hermitian_entry; intros i j Hi Hj; simpl.
  rewrite Cconj_mult, (Cconj_real Hc).
  rewrite (proj1 (hermitian_entry A) HA); auto.
Qed.

Lemma hermitian_plus_adjoint {n} (A : Matrix n n) :
  hermitian (A + adjoint A)%M.
Proof. apply hermitian_entry; intros i j _ _; simpl. Csolve. Qed.

Lemma hermitian_eye (n : nat) : hermitian (eye n).
Proof.
  apply hermitian_entry; intros i j _ _; simpl.
  rewrite (Nat.eqb_sym j i); destruct (i =? j)%nat; Csolve.
Qed.

Lemma hermitian_pow2 {n} (A : Matrix n n) : hermitian A -> hermitian (Mpow2 A).
Proof.
  intros HA; apply hermitian_entry; intros i j Hi Hj; simpl.
  rewrite Csum_conj. apply Csum_ext; intros k Hk.
  rewrite Cconj_mult.
  rewrite (proj1 (hermitian_entry A) HA), (proj1 (hermitian_entry A) HA);
    auto.
  Csolve.
Qed.

Lemma kron_index (i m p : nat) :
  (i < m * p)%nat -> (i / p < m)%nat /\ (i mod p < p)%nat.
Proof.
  intros H. assert (p <> 0)%nat by (intros ->; lia). split.
  - apply Nat.Div0.div_lt_upper_bound; lia.
  - apply Nat.mod_upper_bound; assumption.
Qed.

Lemma hermitian_kron {m p} (A : Matrix m m) (B : Matrix p p) :
  hermitian A -> hermitian B -> hermitian (kron A B).
Proof.
  intros HA HB; apply hermitian_entry; intros i j Hi Hj; simpl.
  destruct (kron_index _ _ Hi) as [Hi1 Hi2].
  destruct (kron_index _ _ Hj) as [Hj1 Hj2].
  rewrite Cconj_mult.
  rewrite (proj1 (hermitian_entry A) HA), (proj1 (hermitian_entry B) HB);
    auto.
Qed.

Lemma hermitian_kron3 {a b c} (A : Matrix a a) (B : Matrix b b)
  (D : Matrix c c) :
  hermitian A -> hermitian B -> hermitian D -> hermitian (_kron3 A B D).
Proof.
  intros HA HB HD; unfold _kron3.
  apply hermitian_kron; [apply hermitian_kron |]; assumption.
Qed.

Lemma hermitian_real_diagonal (data : nat -> R) (n : nat) :
  hermitian (dia_matrix (fun k => RtoC (data k)) 0 n).
Proof.
  apply hermitian_entry; intros i j _ _; simpl.
  destruct (Z.eqb_spec (Z.of_nat i - Z.of_nat j) 0) as [E | N];
    destruct (Z.eqb_spec (Z.of_nat j - Z.of_nat i) 0) as [E' | N'];
    try lia.
  - assert (i = j) by lia; subst. Csolve.
  - Csolve.
Qed.

(** *** The embedding on small inputs *)

Example annihilation_sparse_entries :
  op.annihilation_sparse 3 0%nat 1%nat = RtoC (sqrt 1)
  /\ op.annihilation_sparse 3 1%nat 2%nat = RtoC (sqrt 2)
  /\ op.annihilation_sparse 3 1%nat 0%nat = C0
  /\ op.creation_sparse 3 2%nat 1%nat = RtoC (sqrt 2).
Proof. repeat split; reflexivity. Qed.

Example kron_entries :
  kron (eye 2) (dia_matrix ones 1 3) 3%nat 4%nat = (C1 * C1)%C
  /\ kron (eye 2) (dia_matrix ones 1 3) 0%nat 4%nat = (C0 * C1)%C.
Proof. split; reflexivity. Qed.

Example n_theta_default_entries :
  _n_theta_operator default_qubit 0%nat 0%nat = RtoC (-7)
  /\ _n_theta_operator default_qubit 14%nat 14%nat = RtoC 7
  /\ _n_theta_operator default_qubit 3%nat 4%nat = C0.
Proof. repeat split; reflexivity. Qed.

Example cos_theta_default_entries :
  _cos_theta_operator default_qubit 0%nat 1%nat = RtoC (5 / 10)
  /\ _cos_theta_operator default_qubit 1%nat 0%nat = RtoC (5 / 10)
  /\ _cos_theta_operator default_qubit 1%nat 1%nat = C0.
Proof. repeat split; Csolve. Qed.

Example sin_theta_default_entries :
  _sin_theta_operator default_qubit 0%nat 1%nat = (0, 5 / 10)
  /\ _sin_theta_operator default_qubit 1%nat 0%nat = (0, - (5 / 10)).
Proof. split; Csolve. Qed.

(** The shape of the native operators is [hilbertdim]. *)
Lemma ndim_hilbertdim (self : Cos2PhiQubit) :
  (0 <= phi_cut self)%Z -> (0 <= zeta_cut self)%Z -> (0 <= ncut self)%Z ->
  Z.of_nat (ndim self) = hilbertdim self.
Proof.
  intros Hp Hz Hn.
  unfold ndim, nphi, nzeta, ntheta, hilbertdim, _dim_phi, _dim_zeta,
    _dim_theta.
  rewrite !Nat2Z.inj_mul, !Z2Nat.id by lia. reflexivity.
Qed.

(** ** C8: the dimension of the Hilbert space *)

(** C8. For every parameter set [hilbertdim] is
    [phi_cut * zeta_cut * (2 * ncut + 1)]; the qubit built from
    [default_params] has the twelve listed parameter values and
    [hilbertdim] 3150. *)
Theorem hilbertdim_product :
  (forall self : Cos2PhiQubit,
     hilbertdim self = (phi_cut self * zeta_cut self * (2 * ncut self + 1))%Z)
  /\ exists q : Cos2PhiQubit,
       init default_params = Some q
       /\ (EJ q = 15 /\ ECJ q = 2 /\ EL q = 1 /\ EC q = 4 / 100
           /\ dCJ q = 0 /\ dL q = 6 / 10 /\ dEJ q = 0 /\ flux q = 5 / 10
           /\ ng q = 0)
       /\ (ncut q = 7 /\ zeta_cut q = 30 /\ phi_cut q = 7)%Z
       /\ hilbertdim q = (7 * 30 * 15)%Z
       /\ hilbertdim q = 3150%Z.
Proof.
  split.
  - intros self; reflexivity.
  - exists default_qubit; repeat split; reflexivity.
Qed.

(** ** C10: the prefactor of the number operators *)

Lemma plain_number_not_zero (n : nat) :
  (1 < n)%nat -> ~ (plain_number n == RtoC 0 *s plain_number n)%M.
Proof.
  intros Hn Hzero. specialize (Hzero 1%nat 1%nat Hn Hn).
  apply (f_equal fst) in Hzero. simpl in Hzero. lra.
Qed.


Lemma truthy_float (x : R) : op.truthy (op.PFloat x) = true <-> x <> 0.
Proof.
  unfold op.truthy; destruct (Req_dec_T x 0) as [E | N]; split; intros H;
    try reflexivity; try discriminate; try assumption; contradiction.
Qed.

Lemma Ci_nonzero : Ci <> C0.
Proof. intros E; inversion E; lra. Qed.

Lemma truthy_Ci : op.truthy (op.PComplex Ci) = true.
Proof.
  unfold op.truthy; destruct (Ceq_dec Ci C0) as [E | _];
    [destruct (Ci_nonzero E) | reflexivity].
Qed.

Lemma number_None (n : nat) :
  exists N, op.number n op.PNone = Ok N /\ (N == plain_number n)%M.
Proof.
  eexists; split; [reflexivity |].
  intros i j _ _; reflexivity.
Qed.

Lemma number_sparse_None (n : nat) :
  exists N, op.number_sparse n op.PNone = Ok N /\ (N == plain_number n)%M.
Proof.
  eexists; split; [reflexivity |].
  intros i j _ _; simpl.
  destruct (Nat.eqb_spec i j) as [-> | Hij].
  - rewrite Z.sub_diag; reflexivity.
  - destruct (Z.eqb_spec (Z.of_nat j - Z.of_nat i) 0) as [E | _];
      [lia | reflexivity].
Qed.

Lemma number_float (n : nat) (p : R) :
  exists N,
    op.number n (op.PFloat p) = Ok N
    /\ (N == if Req_dec_T p 0 then plain_number n
             else (RtoC p *s plain_number n))%M.
Proof.
  unfold op.number, op.truthy.
  destruct (Req_dec_T p 0) as [E | N]; simpl.
  - eexists; split; [reflexivity |]. intros i j _ _; reflexivity.
  - eexists; split; [reflexivity |]. intros i j _ _; simpl.
    unfold op.arange. destruct (i =? j)%nat; Csolve.
Qed.

Lemma number_sparse_float (n : nat) (p : R) :
  exists N,
    op.number_sparse n (op.PFloat p) = Ok N
    /\ (N == if Req_dec_T p 0 then plain_number n
             else (RtoC p *s plain_number n))%M.
Proof.
  unfold op.number_sparse, op.truthy.
  destruct (Req_dec_T p 0) as [E | N]; simpl;
    (eexists; split; [reflexivity |]); intros i j _ _; simpl; unfold op.arange.
  - destruct (Nat.eqb_spec i j) as [-> | Hij].
    + rewrite Z.sub_diag; reflexivity.
    + destruct (Z.eqb_spec (Z.of_nat j - Z.of_nat i) 0) as [E' | _];
        [lia | reflexivity].
  - destruct (Nat.eqb_spec i j) as [-> | Hij].
    + rewrite Z.sub_diag; simpl. Csolve.
    + destruct (Z.eqb_spec (Z.of_nat j - Z.of_nat i) 0) as [E' | _];
        [lia | Csolve].
Qed.

(** C10, as the code has it.  For every nonzero float prefactor [p],
    [number] and [number_sparse] return [p] times the plain number
    operator; for the prefactor [0] and for no prefactor both return the
    plain number operator, the diagonal [0 .. dimension - 1]. *)
Theorem number_prefactor_truthy (dimension : nat) (p : R) :
  (exists N S0,
     op.number dimension (op.PFloat p) = Ok N
     /\ op.number_sparse dimension (op.PFloat p) = Ok S0
     /\ (p <> 0 -> (N == RtoC p *s plain_number dimension)%M
                   /\ (S0 == RtoC p *s plain_number dimension)%M)
     /\ (p = 0 -> (N == plain_number dimension)%M
                  /\ (S0 == plain_number dimension)%M)
     /\ (p = 0 -> (1 < dimension)%nat ->
         ~ (N == RtoC 0 *s plain_number dimension)%M
         /\ ~ (S0 == RtoC 0 *s plain_number dimension)%M))
  /\ (exists N S0,
        op.number dimension op.PNone = Ok N
        /\ op.number_sparse dimension op.PNone = Ok S0
        /\ (N == plain_number dimension)%M
        /\ (S0 == plain_number dimension)%M)
  /\ (forall i j,
        plain_number dimension i j
        = if (i =? j)%nat then RtoC (INR i) else C0).
Proof.
  split; [| split].
  - destruct (number_float dimension p) as (N & EN & HN).
    destruct (number_sparse_float dimension p) as (S0 & ES & HS).
    exists N, S0.
    split; [exact EN |]. split; [exact ES |].
    destruct (Req_dec_T p 0) as [E | NE].
    + split; [intros NE; contradiction |].
      split; [intros _; split; assumption |].
      intros _ Hdim; split; intros Hzero.
      * exact (plain_number_not_zero Hdim
                 (mat_equiv_trans (mat_equiv_sym HN) Hzero)).
      * exact (plain_number_not_zero Hdim
                 (mat_equiv_trans (mat_equiv_sym HS) Hzero)).
    + split; [intros _; split; assumption |].
      split; intros E; contradiction.
  - destruct (number_None dimension) as (N & EN & HN).
    destruct (number_sparse_None dimension) as (S0 & ES & HS).
    exists N, S0; repeat split; assumption.
  - intros i j; reflexivity.
Qed.

(** The theorem at dimension 3 with the prefactors 2 and 0. *)
Lemma number_prefactor_truthy_witness :
  (exists N,
     op.number 3 (op.PFloat 2) = Ok N
     /\ (N == RtoC 2 *s plain_number 3)%M)
  /\ (exists N,
        op.number 3 (op.PFloat 0) = Ok N /\ (N == plain_number 3)%M).
Proof.
  split.
  - destruct (number_prefactor_truthy 3 2)
      as ((N & S0 & EN & _ & Hnz & _) & _).
    exists N; split; [exact EN |]. apply Hnz; lra.
  - destruct (number_prefactor_truthy 3 0)
      as ((N & S0 & EN & _ & _ & Hz & _) & _).
    exists N; split; [exact EN |]. apply Hz; reflexivity.
Defined.

(** C10 as stated fails for a complex prefactor: the prefactor [1j] is
    nonzero, yet neither function returns [1j] times the number operator,
    both raise. *)
Lemma number_complex_prefactor_raises :
  Ci <> C0
  /\ op.number 2 (op.PComplex Ci) = Raise TypeError
  /\ op.number_sparse 2 (op.PComplex Ci) = Raise TypeError
  /\ ~ (exists N, op.number 2 (op.PComplex Ci) = Ok N
                  /\ (N == Ci *s plain_number 2)%M).
Proof.
  assert (E1 : op.number 2 (op.PComplex Ci) = Raise TypeError).
  { unfold op.number; rewrite truthy_Ci; reflexivity. }
  assert (E2 : op.number_sparse 2 (op.PComplex Ci) = Raise TypeError).
  { unfold op.number_sparse; rewrite truthy_Ci; reflexivity. }
  repeat split; try assumption.
  - exact Ci_nonzero.
  - intros (N & EN & _); rewrite E1 in EN; discriminate EN.
Qed.

(** ** Scalars of the qubit *)

Lemma sqrt2_pos : 0 < sqrt 2.
Proof. apply sqrt_lt_R0; lra. Qed.

Lemma RtoC_nonzero (r : R) : r <> 0 -> RtoC r <> C0.
Proof. intros N E; inversion E; contradiction. Qed.

Lemma py_cdiv_Ok (x y v : C) :
  py_cdiv x y = Ok v -> y <> C0 /\ v = (x * Cinv y)%C.
Proof.
  unfold py_cdiv; destruct (Ceq_dec y C0) as [E | N]; intros H.
  - discriminate H.
  - inversion H; split; [exact N | reflexivity].
Qed.

Lemma py_cdiv_nonzero (x y : C) :
  y <> C0 -> py_cdiv x y = Ok (x * Cinv y)%C.
Proof.
  intros N; unfold py_cdiv; destruct (Ceq_dec y C0) as [E | _];
    [contradiction | reflexivity].
Qed.

Lemma div_scalar_Ok {m n} (A B : Matrix m n) (s : C) :
  div_scalar A s = Ok B -> s <> C0 /\ B = ((C1 * Cinv s)%C *s A)%M.
Proof.
  unfold div_scalar; intros H. bind_inv H.
  apply py_cdiv_Ok in E; destruct E as [N ->].
  inversion H; split; [exact N | reflexivity].
Qed.

Lemma div_scalar_nonzero {m n} (A : Matrix m n) (s : C) :
  s <> C0 -> div_scalar A s = Ok ((C1 * Cinv s)%C *s A)%M.
Proof.
  intros N; unfold div_scalar; rewrite (py_cdiv_nonzero _ N); reflexivity.
Qed.

Lemma math_sqrt_Ok (x v : R) : math_sqrt x = Ok v -> 0 <= x /\ v = sqrt x.
Proof.
  unfold math_sqrt; destruct (Rlt_dec x 0) as [L | G]; intros H.
  - discriminate H.
  - inversion H; split; [lra | reflexivity].
Qed.

Lemma math_sqrt_nonneg (x : R) : 0 <= x -> math_sqrt x = Ok (sqrt x).
Proof.
  intros G; unfold math_sqrt; destruct (Rlt_dec x 0) as [L | _];
    [lra | reflexivity].
Qed.

Lemma pow_quarter_nonneg (x : R) :
  0 <= x -> pow_quarter x = RtoC (sqrt (sqrt x)).
Proof.
  intros G; unfold pow_quarter; destruct (Rle_dec 0 x) as [_ | L];
    [reflexivity | contradiction].
Qed.

Lemma pow_quarter_pos (x : R) : 0 < x -> 0 < sqrt (sqrt x).
Proof. intros G; apply sqrt_lt_R0, sqrt_lt_R0, G. Qed.

Example pow_quarter_16 : pow_quarter 16 = RtoC 2.
Proof.
  rewrite pow_quarter_nonneg by lra. f_equal.
  replace 16 with (4 * 4) by lra. rewrite sqrt_square by lra.
  replace 4 with (2 * 2) by lra. apply sqrt_square; lra.
Qed.

(** A quotient has the sign of the product. *)
Lemma quotient_nonneg (a b : R) : 0 <= a * b -> b <> 0 -> 0 <= a / b.
Proof.
  intros P N.
  replace (a / b) with ((a * b) * (/ b * / b)) by (field; exact N).
  apply Rmult_le_pos; [exact P |].
  assert (H : 0 <= / b * / b) by nra. exact H.
Qed.

Lemma disordered_el_Ok (self : Cos2PhiQubit) (el : R) :
  _disordered_el self = Ok el ->
  1 - dL self ^ 2 <> 0 /\ el = EL self / (1 - dL self ^ 2).
Proof. apply py_div_Ok. Qed.

Lemma disordered_ecj_Ok (self : Cos2PhiQubit) (ecj : R) :
  _disordered_ecj self = Ok ecj ->
  1 - dCJ self ^ 2 <> 0 /\ ecj = ECJ self / (1 - dCJ self ^ 2).
Proof. apply py_div_Ok. Qed.

Lemma result_inj {A : Type} (c : result A) (a b : A) :
  c = Ok a -> c = Ok b -> a = b.
Proof. intros -> E; inversion E; reflexivity. Qed.

(** Once [phi_plasma] has returned, [phi_osc] is a real number: the square
    root has checked the sign that the fourth root depends on. *)
Lemma phi_osc_real (self : Cos2PhiQubit) (w : R) (c : C) :
  phi_plasma self = Ok w -> phi_osc self = Ok c -> is_real c.
Proof.
  unfold phi_plasma, phi_osc; intros Hw Hc.
  bind_inv Hw. bind_inv Hw. apply math_sqrt_Ok in Hw; destruct Hw as [G _].
  bind_inv Hc. bind_inv Hc. bind_inv Hc.
  pose proof (result_inj E E2); pose proof (result_inj E0 E1); subst.
  apply py_div_Ok in E3; destruct E3 as [N ->].
  inversion Hc; subst.
  rewrite pow_quarter_nonneg; [apply is_real_RtoC |].
  apply quotient_nonneg; [nra | exact N].
Qed.

Lemma zeta_osc_real (self : Cos2PhiQubit) (w : R) (c : C) :
  zeta_plasma self = Ok w -> zeta_osc self = Ok c -> is_real c.
Proof.
  unfold zeta_plasma, zeta_osc; intros Hw Hc.
  bind_inv Hw. apply math_sqrt_Ok in Hw; destruct Hw as [G _].
  bind_inv Hc. bind_inv Hc.
  pose proof (result_inj E E0); subst.
  apply py_div_Ok in E1; destruct E1 as [N ->].
  inversion Hc; subst.
  rewrite pow_quarter_nonneg; [apply is_real_RtoC |].
  apply quotient_nonneg; [nra | exact N].
Qed.

(** *** The parameters of the data model *)

Lemma valid_disordered_el (self : Cos2PhiQubit) :
  valid_parameters self ->
  exists el, _disordered_el self = Ok el /\ 0 < el.
Proof.
  intros (_ & _ & HEL & _ & HdL & _).
  assert (P : 0 < 1 - dL self ^ 2) by nra.
  exists (EL self / (1 - dL self ^ 2)); split.
  - apply py_div_nonzero; lra.
  - apply Rdiv_lt_0_compat; assumption.
Qed.

Lemma valid_disordered_ecj (self : Cos2PhiQubit) :
  valid_parameters self ->
  exists ecj, _disordered_ecj self = Ok ecj /\ 0 < ecj.
Proof.
  intros (_ & HECJ & _ & _ & _ & HdCJ).
  assert (P : 0 < 1 - dCJ self ^ 2) by nra.
  exists (ECJ self / (1 - dCJ self ^ 2)); split.
  - apply py_div_nonzero; lra.
  - apply Rdiv_lt_0_compat; assumption.
Qed.

Lemma valid_phi_osc (self : Cos2PhiQubit) :
  valid_parameters self ->
  exists l, phi_osc self = Ok (RtoC l) /\ 0 < l.
Proof.
  intros V.
  destruct (valid_disordered_el V) as (el & Eel & Pel).
  destruct (valid_disordered_ecj V) as (ecj & Eecj & Pecj).
  assert (P : 0 < 2 * ecj / el) by (apply Rdiv_lt_0_compat; lra).
  exists (sqrt (sqrt (2 * ecj / el))); split.
  - unfold phi_osc; rewrite Eecj, Eel; simpl.
    rewrite py_div_nonzero by lra; simpl.
    rewrite pow_quarter_nonneg by lra; reflexivity.
  - apply pow_quarter_pos, P.
Qed.

Lemma valid_zeta_osc (self : Cos2PhiQubit) :
  valid_parameters self ->
  exists l, zeta_osc self = Ok (RtoC l) /\ 0 < l.
Proof.
  intros V.
  destruct (valid_disordered_el V) as (el & Eel & Pel).
  destruct V as (_ & _ & _ & HEC & _).
  assert (P : 0 < 4 * EC self / el) by (apply Rdiv_lt_0_compat; lra).
  exists (sqrt (sqrt (4 * EC self / el))); split.
  - unfold zeta_osc; rewrite Eel; simpl.
    rewrite py_div_nonzero by lra; simpl.
    rewrite pow_quarter_nonneg by lra; reflexivity.
  - apply pow_quarter_pos, P.
Qed.

Lemma valid_phi_plasma (self : Cos2PhiQubit) :
  valid_parameters self -> returns (phi_plasma self).
Proof.
  intros V.
  destruct (valid_disordered_el V) as (el & Eel & Pel).
  destruct (valid_disordered_ecj V) as (ecj & Eecj & Pecj).
  unfold phi_plasma; rewrite Eel, Eecj; simpl.
  eexists; apply math_sqrt_nonneg; nra.
Qed.

Lemma valid_zeta_plasma (self : Cos2PhiQubit) :
  valid_parameters self -> returns (zeta_plasma self).
Proof.
  intros V.
  destruct (valid_disordered_el V) as (el & Eel & Pel).
  destruct V as (_ & _ & _ & HEC & _).
  unfold zeta_plasma; rewrite Eel; simpl.
  eexists; apply math_sqrt_nonneg; nra.
Qed.

Lemma default_qubit_valid : valid_parameters default_qubit.
Proof. unfold valid_parameters; simpl; lra. Qed.

(** ** Operators of the subspaces *)

Section OperatorProperties.

Context {ext : Collaborators}.

Lemma ladder_sum_hermitian (n : nat) :
  hermitian (op.creation_sparse n + op.annihilation_sparse n)%M.
Proof.
  apply hermitian_entry; intros i j _ _; simpl.
  destruct (Z.eqb_spec (Z.of_nat i - Z.of_nat j) 1);
    destruct (Z.eqb_spec (Z.of_nat j - Z.of_nat i) 1); Csolve.
Qed.

Lemma ladder_difference_hermitian (n : nat) :
  hermitian (Ci *s (op.creation_sparse n - op.annihilation_sparse n))%M.
Proof.
  apply hermitian_entry; intros i j _ _; simpl.
  destruct (Z.eqb_spec (Z.of_nat i - Z.of_nat j) 1);
    destruct (Z.eqb_spec (Z.of_nat j - Z.of_nat i) 1); Csolve.
Qed.

Lemma n_theta_hermitian (self : Cos2PhiQubit) :
  hermitian (_n_theta_operator self).
Proof.
  unfold _n_theta_operator.
  apply (@hermitian_real_diagonal
           (fun k => IZR (- ncut self + Z.of_nat k)) (ntheta self)).
Qed.

Lemma cos_theta_hermitian (self : Cos2PhiQubit) :
  hermitian (_cos_theta_operator self).
Proof.
  apply hermitian_entry; intros i j _ _; simpl.
  destruct (Z.eqb_spec (Z.of_nat i - Z.of_nat j) 1);
    destruct (Z.eqb_spec (Z.of_nat j - Z.of_nat i) 1);
    destruct (Z.eqb_spec (Z.of_nat i - Z.of_nat j) (-1));
    destruct (Z.eqb_spec (Z.of_nat j - Z.of_nat i) (-1));
    try lia; unfold ones; Csolve.
Qed.

Lemma sin_theta_hermitian (self : Cos2PhiQubit) :
  hermitian (_sin_theta_operator self).
Proof.
  apply hermitian_entry; intros i j _ _; simpl.
  destruct (Z.eqb_spec (Z.of_nat i - Z.of_nat j) 1);
    destruct (Z.eqb_spec (Z.of_nat j - Z.of_nat i) 1);
    destruct (Z.eqb_spec (Z.of_nat i - Z.of_nat j) (-1));
    destruct (Z.eqb_spec (Z.of_nat j - Z.of_nat i) (-1));
    try lia; unfold ones; Csolve.
Qed.

Lemma number_sparse_hermitian (n : nat) (w : R) (N : Matrix n n) :
  op.number_sparse n (op.PFloat w) = Ok N -> hermitian N.
Proof.
  unfold op.number_sparse; intros H. bind_inv H. inversion H; subst.
  apply (@hermitian_real_diagonal v n).
Qed.

(** The phase operator of a subspace with a real oscillator strength. *)
Lemma phase_operator_hermitian (n : nat) (osc : C) (A : Matrix n n) :
  is_real osc ->
  div_scalar (osc *s (op.creation_sparse n + op.annihilation_sparse n))%M
    (RtoC (sqrt 2)) = Ok A ->
  hermitian A.
Proof.
  intros Hosc H. apply div_scalar_Ok in H; destruct H as [_ ->].
  apply hermitian_scale.
  - apply is_real_mult; [apply is_real_RtoC | apply is_real_inv, is_real_RtoC].
  - apply hermitian_scale; [exact Hosc | apply ladder_sum_hermitian].
Qed.

(** The charge operator of a subspace with a real oscillator strength. *)
Lemma charge_operator_hermitian (n : nat) (osc : C) (A : Matrix n n) :
  is_real osc ->
  div_scalar (Ci *s (op.creation_sparse n - op.annihilation_sparse n))%M
    (osc * RtoC (sqrt 2))%C = Ok A ->
  hermitian A.
Proof.
  intros Hosc H. apply div_scalar_Ok in H; destruct H as [_ ->].
  apply hermitian_scale.
  - apply is_real_mult; [apply is_real_RtoC |].
    apply is_real_inv, is_real_mult; [exact Hosc | apply is_real_RtoC].
  - apply ladder_difference_hermitian.
Qed.

Lemma cos_phi_hermitian (self : Cos2PhiQubit) (A : Matrix (nphi self) (nphi self)) :
  _cos_phi_operator self = Ok A -> hermitian A.
Proof.
  unfold _cos_phi_operator; intros H. bind_inv H. inversion H.
  apply hermitian_plus_adjoint.
Qed.

Lemma sin_phi_hermitian (self : Cos2PhiQubit) (A : Matrix (nphi self) (nphi self)) :
  _sin_phi_operator self = Ok A -> hermitian A.
Proof.
  unfold _sin_phi_operator; intros H. bind_inv H. inversion H.
  apply hermitian_plus_adjoint.
Qed.

Lemma total_identity_hermitian (self : Cos2PhiQubit) :
  hermitian (total_identity self).
Proof.
  unfold total_identity; apply hermitian_kron3; apply hermitian_eye.
Qed.

Lemma n_theta_operator_hermitian (self : Cos2PhiQubit) :
  hermitian (n_theta_operator self).
Proof.
  unfold n_theta_operator, process_op.
  apply hermitian_kron3;
    [apply hermitian_eye | apply hermitian_eye | apply n_theta_hermitian].
Qed.

(** *** The operators return for the parameters of the data model *)

Lemma osc_sqrt2_nonzero (l : R) : 0 < l -> (RtoC l * RtoC (sqrt 2))%C <> C0.
Proof.
  intros P E. pose proof sqrt2_pos. inversion E. nra.
Qed.

Lemma valid_phi_operator_sub (self : Cos2PhiQubit) :
  valid_parameters self -> returns (_phi_operator self).
Proof.
  intros V. destruct (valid_phi_osc V) as (l & El & Pl).
  unfold _phi_operator; rewrite El; simpl.
  eexists; apply div_scalar_nonzero, RtoC_nonzero.
  pose proof sqrt2_pos; lra.
Qed.

Lemma valid_zeta_operator_sub (self : Cos2PhiQubit) :
  valid_parameters self -> returns (_zeta_operator self).
Proof.
  intros V. destruct (valid_zeta_osc V) as (l & El & Pl).
  unfold _zeta_operator; rewrite El; simpl.
  eexists; apply div_scalar_nonzero, RtoC_nonzero.
  pose proof sqrt2_pos; lra.
Qed.

Lemma valid_n_phi_operator_sub (self : Cos2PhiQubit) :
  valid_parameters self -> returns (_n_phi_operator self).
Proof.
  intros V. destruct (valid_phi_osc V) as (l & El & Pl).
  unfold _n_phi_operator; rewrite El; simpl.
  eexists; apply div_scalar_nonzero, osc_sqrt2_nonzero, Pl.
Qed.

Lemma valid_n_zeta_operator_sub (self : Cos2PhiQubit) :
  valid_parameters self -> returns (_n_zeta_operator self).
Proof.
  intros V. destruct (valid_zeta_osc V) as (l & El & Pl).
  unfold _n_zeta_operator; rewrite El; simpl.
  eexists; apply div_scalar_nonzero, osc_sqrt2_nonzero, Pl.
Qed.

Lemma valid_phi_operator (self : Cos2PhiQubit) :
  valid_parameters self -> returns (phi_operator self).
Proof.
  intros V. destruct (valid_phi_operator_sub V) as (A & E).
  unfold phi_operator; rewrite E; simpl; eexists; reflexivity.
Qed.

Lemma valid_zeta_operator (self : Cos2PhiQubit) :
  valid_parameters self -> returns (zeta_operator self).
Proof.
  intros V. destruct (valid_zeta_operator_sub V) as (A & E).
  unfold zeta_operator; rewrite E; simpl; eexists; reflexivity.
Qed.

Lemma valid_n_phi_operator (self : Cos2PhiQubit) :
  valid_parameters self -> returns (n_phi_operator self).
Proof.
  intros V. destruct (valid_n_phi_operator_sub V) as (A & E).
  unfold n_phi_operator; rewrite E; simpl; eexists; reflexivity.
Qed.

Lemma valid_n_zeta_operator (self : Cos2PhiQubit) :
  valid_parameters self -> returns (n_zeta_operator self).
Proof.
  intros V. destruct (valid_n_zeta_operator_sub V) as (A & E).
  unfold n_zeta_operator; rewrite E; simpl; eexists; reflexivity.
Qed.

Lemma valid_cos_phi_operator (self : Cos2PhiQubit) :
  valid_parameters self -> returns (_cos_phi_operator self).
Proof.
  intros V. destruct (valid_phi_operator_sub V) as (A & E).
  unfold _cos_phi_operator, _exp_i_phi_operator; rewrite E; simpl.
  eexists; reflexivity.
Qed.

Lemma valid_sin_phi_operator (self : Cos2PhiQubit) :
  valid_parameters self -> returns (_sin_phi_operator self).
Proof.
  intros V. destruct (valid_phi_operator_sub V) as (A & E).
  unfold _sin_phi_operator, _exp_i_phi_operator; rewrite E; simpl.
  eexists; reflexivity.
Qed.

Lemma valid_branch_operators (self : Cos2PhiQubit) :
  valid_parameters self ->
  returns (phi_1_operator self) /\ returns (phi_2_operator self)
  /\ returns (n_1_operator self) /\ returns (n_2_operator self).
Proof.
  intros V.
  destruct (valid_phi_operator V) as (P & EP).
  destruct (valid_zeta_operator V) as (Z0 & EZ).
  destruct (valid_n_phi_operator V) as (NP & ENP).
  destruct (valid_n_zeta_operator V) as (NZ & ENZ).
  unfold phi_1_operator, phi_2_operator, n_1_operator, n_2_operator.
  rewrite EP, EZ, ENP, ENZ; simpl.
  repeat split; eexists; reflexivity.
Qed.

End OperatorProperties.

(** ** C7: the branch operators *)

(** C7. In the native basis [n_1 + n_2 = n_phi] and
    [phi_1 + phi_2 = -2 phi], for every parameter set on which the
    operators are returned. *)
Theorem branch_operator_identities (self : Cos2PhiQubit)
  (N1 N2 NPHI P1 P2 PHI : Matrix (ndim self) (ndim self)) :
  n_1_operator self = Ok N1 ->
  n_2_operator self = Ok N2 ->
  n_phi_operator self = Ok NPHI ->
  phi_1_operator self = Ok P1 ->
  phi_2_operator self = Ok P2 ->
  phi_operator self = Ok PHI ->
  (N1 + N2 == NPHI)%M /\ (P1 + P2 == RtoC (-2) *s PHI)%M.
Proof.
  unfold n_1_operator, n_2_operator, phi_1_operator, phi_2_operator,
    process_op.
  intros H1 H2 HN H3 H4 HP.
  bind_inv H1. bind_inv H1. bind_inv H2. bind_inv H2.
  bind_inv H3. bind_inv H3. bind_inv H4. bind_inv H4.
  inversion H1; inversion H2; inversion H3; inversion H4; subst; clear H1 H2 H3 H4.
  pose proof (result_inj E HN); pose proof (result_inj E1 HN).
  pose proof (result_inj E0 E2).
  pose proof (result_inj E4 HP); pose proof (result_inj E6 HP).
  pose proof (result_inj E3 E5).
  subst. split; intros i j _ _; simpl; Csolve.
Qed.

(** The identities on the default qubit. *)
Lemma branch_operator_identities_witness :
  exists N1 N2 NPHI P1 P2 PHI,
    n_1_operator default_qubit = Ok N1
    /\ n_2_operator default_qubit = Ok N2
    /\ phi_1_operator default_qubit = Ok P1
    /\ phi_2_operator default_qubit = Ok P2
    /\ n_phi_operator default_qubit = Ok NPHI
    /\ phi_operator default_qubit = Ok PHI
    /\ (N1 + N2 == NPHI)%M /\ (P1 + P2 == RtoC (-2) *s PHI)%M.
Proof.
  destruct (valid_branch_operators
              default_qubit_valid)
    as ((P1 & E1) & (P2 & E2) & (N1 & E3) & (N2 & E4)).
  destruct (valid_n_phi_operator
              default_qubit_valid) as (NPHI & E5).
  destruct (valid_phi_operator
              default_qubit_valid) as (PHI & E6).
  exists N1, N2, NPHI, P1, P2, PHI.
  repeat (split; [assumption |]).
  exact (branch_operator_identities default_qubit E3 E4 E5 E1 E2 E6).
Defined.

(** ** C4: the derivative with respect to the offset charge *)

Lemma sub_scalar_Ok {m n} (A B : Matrix m n) (s : R) :
  sub_scalar A s = Ok B -> s = 0 /\ B = A.
Proof.
  unfold sub_scalar; destruct (Req_dec_T s 0) as [E | N]; intros H.
  - inversion H; split; [exact E | reflexivity].
  - discriminate H.
Qed.

Lemma sub_scalar_nonzero {m n} (A : Matrix m n) (s : R) :
  s <> 0 -> sub_scalar A s = Raise NotImplementedError.
Proof.
  intros N; unfold sub_scalar; destruct (Req_dec_T s 0) as [E | _];
    [contradiction | reflexivity].
Qed.

Lemma returns_or_raises {A : Type} (c : result A) : returns c \/ raises c.
Proof.
  destruct c as [a | e]; [left; exists a | right; exists e]; reflexivity.
Qed.

Lemma d_hamiltonian_d_ng_raises (self : Cos2PhiQubit) :
  ng self <> 0 ->
  returns (_disordered_ecj self) -> returns (n_phi_operator self) ->
  d_hamiltonian_d_ng self = Raise NotImplementedError.
Proof.
  intros Hng (ecj & Eecj) (NPHI & EN).
  unfold d_hamiltonian_d_ng; rewrite Eecj, EN; simpl.
  rewrite (sub_scalar_nonzero _ Hng); reflexivity.
Qed.

(** C4. With [ng <> 0], [d_hamiltonian_d_ng] returns no operator: the
    subtraction of the nonzero scalar [ng] from the sparse matrix
    [n_theta_operator()] raises [NotImplementedError] whenever it is
    reached.  A call that returns has [ng = 0] and returns
    [4 dCJ ECJ' n_phi - 4 ECJ' (n_theta - n_zeta)] with
    [ECJ' = ECJ / (1 - dCJ^2)]; on the parameters of the data model with
    [ng = 0] the call does return. *)
Theorem d_hamiltonian_d_ng_nonzero_ng_raises (self : Cos2PhiQubit) :
  (ng self <> 0 -> raises (d_hamiltonian_d_ng self))
  /\ (ng self <> 0 ->
      returns (_disordered_ecj self) -> returns (n_phi_operator self) ->
      d_hamiltonian_d_ng self = Raise NotImplementedError)
  /\ (forall D, d_hamiltonian_d_ng self = Ok D ->
        ng self = 0
        /\ exists NPHI NZETA,
             n_phi_operator self = Ok NPHI
             /\ n_zeta_operator self = Ok NZETA
             /\ 1 - dCJ self ^ 2 <> 0
             /\ let ecj := ECJ self / (1 - dCJ self ^ 2) in
                (D == RtoC (4 * dCJ self * ecj) *s NPHI
                      - RtoC (4 * ecj) *s (n_theta_operator self - NZETA))%M)
  /\ (valid_parameters self -> ng self = 0 ->
      returns (d_hamiltonian_d_ng self)).
Proof.
  assert (Hinv : forall D, d_hamiltonian_d_ng self = Ok D ->
        ng self = 0
        /\ exists NPHI NZETA,
             n_phi_operator self = Ok NPHI
             /\ n_zeta_operator self = Ok NZETA
             /\ 1 - dCJ self ^ 2 <> 0
             /\ let ecj := ECJ self / (1 - dCJ self ^ 2) in
                (D == RtoC (4 * dCJ self * ecj) *s NPHI
                      - RtoC (4 * ecj) *s (n_theta_operator self - NZETA))%M).
  { unfold d_hamiltonian_d_ng, process_op; intros D H.
    bind_inv H. bind_inv H. bind_inv H. bind_inv H. bind_inv H.
    inversion H; subst; clear H.
    apply sub_scalar_Ok in E2; destruct E2 as [Hng ->].
    pose proof (result_inj E E1); subst.
    apply disordered_ecj_Ok in E; destruct E as [N ->].
    split; [exact Hng |]. exists v0, v3.
    repeat (split; [assumption |]). apply mat_equiv_refl. }
  split; [| split; [| split]].
  - intros Hng. destruct (returns_or_raises (d_hamiltonian_d_ng self))
      as [(D & E) | Hr]; [| exact Hr].
    destruct (Hinv D E) as [Z0 _]; contradiction.
  - apply d_hamiltonian_d_ng_raises.
  - exact Hinv.
  - intros V Hng.
    destruct (valid_disordered_ecj V) as (ecj & Eecj & _).
    destruct (valid_n_phi_operator V) as (NPHI & EN).
    destruct (valid_n_zeta_operator V) as (NZ & EZ).
    unfold d_hamiltonian_d_ng, sub_scalar; rewrite Eecj, EN, EZ; simpl.
    destruct (Req_dec_T (ng self) 0) as [_ | N]; [| contradiction].
    simpl. eexists; reflexivity.
Qed.

Lemma with_ng_valid (self : Cos2PhiQubit) (v : R) :
  valid_parameters self -> valid_parameters (with_ng self v).
Proof. intros V; exact V. Qed.

(** The theorem on the default qubit, with [ng = 1/2] and with [ng = 0]. *)
Lemma d_hamiltonian_d_ng_nonzero_ng_raises_witness :
  d_hamiltonian_d_ng
    (with_ng default_qubit (1 / 2)) = Raise NotImplementedError
  /\ returns (d_hamiltonian_d_ng default_qubit).
Proof.
  split.
  - apply (proj1 (proj2 (d_hamiltonian_d_ng_nonzero_ng_raises
                           (with_ng default_qubit (1 / 2))))).
    + simpl; lra.
    + destruct (valid_disordered_ecj
                  (with_ng_valid (1 / 2) default_qubit_valid)) as (e & E & _).
      exists e; exact E.
    + apply valid_n_phi_operator, with_ng_valid, default_qubit_valid.
  - apply (proj2 (proj2 (proj2 (d_hamiltonian_d_ng_nonzero_ng_raises
                                  default_qubit)))).
    + exact default_qubit_valid.
    + reflexivity.
Defined.

(** ** C2: the Hamiltonian is Hermitian *)

Section HamiltonianProperties.

Context {ext : Collaborators}.

Lemma phi_operator_sub_hermitian (self : Cos2PhiQubit) (w : R)
  (A : Matrix (nphi self) (nphi self)) :
  phi_plasma self = Ok w -> _phi_operator self = Ok A -> hermitian A.
Proof.
  unfold _phi_operator; intros Hw H. bind_inv H.
  exact (phase_operator_hermitian (phi_osc_real self Hw E) H).
Qed.

Lemma zeta_operator_sub_hermitian (self : Cos2PhiQubit) (w : R)
  (A : Matrix (nzeta self) (nzeta self)) :
  zeta_plasma self = Ok w -> _zeta_operator self = Ok A -> hermitian A.
Proof.
  unfold _zeta_operator; intros Hw H. bind_inv H.
  exact (phase_operator_hermitian (zeta_osc_real self Hw E) H).
Qed.

Lemma n_phi_operator_sub_hermitian (self : Cos2PhiQubit) (w : R)
  (A : Matrix (nphi self) (nphi self)) :
  phi_plasma self = Ok w -> _n_phi_operator self = Ok A -> hermitian A.
Proof.
  unfold _n_phi_operator; intros Hw H. bind_inv H.
  exact (charge_operator_hermitian (phi_osc_real self Hw E) H).
Qed.

Lemma n_zeta_operator_sub_hermitian (self : Cos2PhiQubit) (w : R)
  (A : Matrix (nzeta self) (nzeta self)) :
  zeta_plasma self = Ok w -> _n_zeta_operator self = Ok A -> hermitian A.
Proof.
  unfold _n_zeta_operator; intros Hw H. bind_inv H.
  exact (charge_operator_hermitian (zeta_osc_real self Hw E) H).
Qed.

Lemma n_phi_operator_hermitian (self : Cos2PhiQubit) (w : R)
  (A : Matrix (ndim self) (ndim self)) :
  phi_plasma self = Ok w -> n_phi_operator self = Ok A -> hermitian A.
Proof.
  unfold n_phi_operator, process_op; intros Hw H. bind_inv H.
  inversion H.
  apply hermitian_kron3;
    [eapply n_phi_operator_sub_hermitian; eassumption | apply hermitian_eye ..].
Qed.

Lemma n_zeta_operator_hermitian (self : Cos2PhiQubit) (w : R)
  (A : Matrix (ndim self) (ndim self)) :
  zeta_plasma self = Ok w -> n_zeta_operator self = Ok A -> hermitian A.
Proof.
  unfold n_zeta_operator, process_op; intros Hw H. bind_inv H.
  inversion H.
  apply hermitian_kron3;
    [apply hermitian_eye
    | eapply n_zeta_operator_sub_hermitian; eassumption
    | apply hermitian_eye].
Qed.

(** [hermitian_tac] proves that a sum, difference, real multiple, square
    or Kronecker product of the operators of the qubit is Hermitian,
    following the shape of the expression. *)
Ltac hermitian_leaf :=
  first
    [ apply hermitian_eye
    | apply total_identity_hermitian
    | apply n_theta_operator_hermitian
    | apply n_theta_hermitian
    | apply cos_theta_hermitian
    | apply sin_theta_hermitian
    | eapply number_sparse_hermitian; eassumption
    | eapply cos_phi_hermitian; eassumption
    | eapply sin_phi_hermitian; eassumption
    | eapply phi_operator_sub_hermitian; eassumption
    | eapply zeta_operator_sub_hermitian; eassumption
    | eapply n_phi_operator_sub_hermitian; eassumption
    | eapply n_zeta_operator_sub_hermitian; eassumption
    | eapply n_phi_operator_hermitian; eassumption
    | eapply n_zeta_operator_hermitian; eassumption ].

Ltac hermitian_tac :=
  lazymatch goal with
  | |- hermitian (Mplus _ _) => apply hermitian_plus; hermitian_tac
  | |- hermitian (Mminus _ _) => apply hermitian_minus; hermitian_tac
  | |- hermitian (scale (RtoC _) _) =>
      apply hermitian_scale; [apply is_real_RtoC | hermitian_tac]
  | |- hermitian (Mpow2 _) => apply hermitian_pow2; hermitian_tac
  | |- hermitian (_kron3 _ _ _) => apply hermitian_kron3; hermitian_tac
  | |- _ => hermitian_leaf
  end.

Lemma hamiltonian_Ok_hermitian (self : Cos2PhiQubit)
  (H : Matrix (ndim self) (ndim self)) :
  hamiltonian self = Ok H -> hermitian H.
Proof.
  unfold hamiltonian, process_hamiltonian; intros E.
  repeat bind_inv E. inversion E; subst; clear E.
  hermitian_tac.
Qed.

Lemma number_sparse_returns (n : nat) (w : R) :
  returns (op.number_sparse n (op.PFloat w)).
Proof.
  destruct (number_sparse_float n w) as (N & E & _); exists N; exact E.
Qed.

Lemma valid_hamiltonian (self : Cos2PhiQubit) :
  valid_parameters self -> returns (hamiltonian self).
Proof.
  intros V.
  destruct (valid_phi_plasma V) as (wp & Ewp).
  destruct (valid_zeta_plasma V) as (wz & Ewz).
  destruct (number_sparse_returns (nphi self) wp) as (Np & ENp).
  destruct (number_sparse_returns (nzeta self) wz) as (Nz & ENz).
  destruct (valid_disordered_ecj V) as (ecj & Eecj & _).
  destruct (valid_disordered_el V) as (el & Eel & _).
  destruct (valid_n_zeta_operator V) as (NZ & ENZ).
  destruct (valid_n_phi_operator V) as (NP & ENP).
  destruct (valid_n_zeta_operator_sub V) as (nz & Enz).
  destruct (valid_n_phi_operator_sub V) as (np & Enp).
  destruct (valid_phi_operator_sub V) as (p & Ep).
  destruct (valid_zeta_operator_sub V) as (z & Ez).
  destruct (valid_cos_phi_operator V) as (c & Ec).
  destruct (valid_sin_phi_operator V) as (s & Es).
  unfold hamiltonian.
  rewrite Ewp; simpl. rewrite ENp; simpl. rewrite Ewz; simpl.
  rewrite ENz; simpl. rewrite Eecj; simpl. rewrite ENZ; simpl.
  rewrite Ec; simpl. rewrite Es; simpl. rewrite Eel; simpl.
  rewrite Ep; simpl. rewrite Ez; simpl. rewrite Enp; simpl.
  rewrite ENP; simpl. rewrite Enz; simpl.
  eexists; reflexivity.
Qed.

End HamiltonianProperties.

(** C2. For every parameter set the matrix that [hamiltonian] returns in
    the native basis equals its own conjugate transpose; on the parameters
    of the data model, whatever the disorder, flux and offset charge,
    [hamiltonian] returns. *)
Theorem hamiltonian_hermitian {ext : Collaborators} (self : Cos2PhiQubit) :
  (forall H, hamiltonian self = Ok H -> (adjoint H == H)%M)
  /\ (valid_parameters self -> returns (hamiltonian self)).
Proof.
  split.
  - intros H E; exact (hamiltonian_Ok_hermitian self E).
  - apply valid_hamiltonian.
Qed.

Lemma disordered_qubit_valid : valid_parameters disordered_qubit.
Proof. unfold valid_parameters; simpl; lra. Qed.

(** The theorem on the default qubit, which has nonzero [dL] and flux, and
    on a qubit with every disorder, the flux and the offset charge
    nonzero. *)
Lemma hamiltonian_hermitian_witness :
  (exists H,
     hamiltonian (ext := example_collaborators) default_qubit = Ok H
     /\ (adjoint H == H)%M)
  /\ (exists H,
        hamiltonian (ext := example_collaborators) disordered_qubit = Ok H
        /\ (adjoint H == H)%M).
Proof.
  split.
  - destruct (proj2 (hamiltonian_hermitian (ext := example_collaborators)
                       default_qubit) default_qubit_valid) as (H & E).
    exists H; split; [exact E |].
    exact (proj1 (hamiltonian_hermitian default_qubit) H E).
  - destruct (proj2 (hamiltonian_hermitian (ext := example_collaborators)
                       disordered_qubit) disordered_qubit_valid) as (H & E).
    exists H; split; [exact E |].
    exact (proj1 (hamiltonian_hermitian disordered_qubit) H E).
Defined.

(** ** C1: the derivative operators *)

(** Two calls of one function that returned have returned the same value:
    [same_results] identifies them. *)
Ltac same_results :=
  repeat match goal with
  | H1 : ?c = Ok ?a, H2 : ?c = Ok ?b |- _ =>
      let X := fresh "X" in
      pose proof (result_inj H1 H2) as X; clear H2; try subst b
  end.

(** [forget_EJ_flux] replaces every call on [with_EJ_flux self e f] that
    does not read [EJ] or [flux] by the call on [self]. *)
Ltac forget_EJ_flux :=
  repeat match goal with
  | |- context [?g (with_EJ_flux ?q ?e ?f)] =>
      progress change (g (with_EJ_flux q e f)) with (g q)
  end;
  cbn [with_EJ_flux EJ flux dEJ ng dL dCJ].

(** Rewrites with every equation [c = Ok v] of the context. *)
Ltac run_calls :=
  repeat match goal with
  | H : ?c = Ok _ |- context [bind ?c _] => rewrite H; cbn [bind]
  end.

(** [entrywise] proves an equation between sums and differences of
    matrices entry by entry, without looking into the summands. *)
Ltac entrywise :=
  intros ? ?; cbn [coeff Mplus Mminus Mopp];
  apply C_eq; cbn [fst snd Cplus Cminus Copp]; ring.

Section DerivativeProperties.

Context {ext : Collaborators}.

(** How the Hamiltonian depends on the Josephson energy and on the flux:
    only through [josephson_terms]. *)
Lemma hamiltonian_josephson_dependence (self : Cos2PhiQubit)
  (H : Matrix (ndim self) (ndim self))
  (CP SP : Matrix (nphi self) (nphi self)) :
  hamiltonian self = Ok H ->
  _cos_phi_operator self = Ok CP ->
  _sin_phi_operator self = Ok SP ->
  forall e f : R,
  exists H' : Matrix (ndim self) (ndim self),
    hamiltonian (with_EJ_flux self e f) = Ok H'
    /\ forall i j,
         H' i j
         = (H - josephson_terms self (EJ self) (flux self) CP SP
            + josephson_terms self e f CP SP)%M i j.
Proof.
  unfold hamiltonian at 1, process_hamiltonian; intros E EC ES e f.
  repeat bind_inv E. inversion E; subst; clear E. same_results.
  eexists; split.
  - unfold hamiltonian, process_hamiltonian. forget_EJ_flux. run_calls.
    reflexivity.
  - unfold josephson_terms. entrywise.
Qed.

(** [entries] unfolds the entries of sums, real multiples and Kronecker
    products down to the entries of the operators of the subspaces and
    proves the equation between them by the ring laws. *)
Ltac entries :=
  cbn [coeff Mplus Mminus Mopp scale _kron3 kron];
  apply C_eq;
  cbn [fst snd Cplus Cminus Copp Cmult RtoC];
  ring.

(** The Hamiltonian is affine in [EJ], and its slope is the operator of
    [d_hamiltonian_d_EJ] plus twice the identity: the constant offset
    [2 EJ] of the Josephson term is missing from the operator. *)
Lemma d_hamiltonian_d_EJ_misses_offset (self : Cos2PhiQubit)
  (H D : Matrix (ndim self) (ndim self)) :
  hamiltonian self = Ok H ->
  d_hamiltonian_d_EJ self = Ok D ->
  forall e : R,
  exists H' : Matrix (ndim self) (ndim self),
    hamiltonian (with_EJ_flux self e (flux self)) = Ok H'
    /\ (H' - H
        == RtoC (e - EJ self) *s (D + RtoC 2 *s total_identity self))%M.
Proof.
  intros EH ED e.
  unfold d_hamiltonian_d_EJ, process_op in ED.
  repeat bind_inv ED. inversion ED; subst; clear ED. same_results.
  match goal with
  | Hc : _cos_phi_operator self = Ok ?c, Hs : _sin_phi_operator self = Ok ?s
    |- _ =>
      destruct (hamiltonian_josephson_dependence self EH Hc Hs e (flux self))
        as (H' & EH' & Hentry)
  end.
  exists H'; split; [exact EH' |].
  intros i j _ _.
  cbn [coeff Mminus]. rewrite Hentry. unfold josephson_terms. entries.
Qed.

(** A function [k0 + cos(f pi) k1 + sin(f pi) k2] of [f] and its
    derivative. *)
Lemma derivable_pt_lim_eq (f g : R -> R) (x l l' : R) :
  (forall y, f y = g y) -> l = l' ->
  derivable_pt_lim f x l -> derivable_pt_lim g x l'.
Proof.
  intros Hfg <- Hf eps Heps. destruct (Hf eps Heps) as (delta & Hdelta).
  exists delta; intros h Hh Hlt. rewrite <- !Hfg. apply Hdelta; assumption.
Qed.

Lemma trig_affine_derivative (g : R -> R) (k0 k1 k2 x l : R) :
  (forall f, g f = k0 + cos (f * PI) * k1 + sin (f * PI) * k2) ->
  l = PI * (cos (x * PI) * k2 - sin (x * PI) * k1) ->
  derivable_pt_lim g x l.
Proof.
  intros Hg Hl.
  assert (Hlin : derivable_pt_lim (fun f => f * PI) x PI).
  { intros eps Heps. exists (mkposreal 1 Rlt_0_1). intros h Hh _.
    replace (((x + h) * PI - x * PI) / h - PI) with 0 by (field; exact Hh).
    rewrite Rabs_R0; exact Heps. }
  pose proof (derivable_pt_lim_comp (fun f => f * PI) cos x PI
                (- sin (x * PI)) Hlin (derivable_pt_lim_cos (x * PI)))
    as Hcos.
  pose proof (derivable_pt_lim_comp (fun f => f * PI) sin x PI
                (cos (x * PI)) Hlin (derivable_pt_lim_sin (x * PI)))
    as Hsin.
  pose proof (derivable_pt_lim_mult _ _ x _ _ Hcos
                (derivable_pt_lim_const k1 x)) as H1.
  pose proof (derivable_pt_lim_mult _ _ x _ _ Hsin
                (derivable_pt_lim_const k2 x)) as H2.
  pose proof (derivable_pt_lim_plus _ _ x _ _
                (derivable_pt_lim_plus _ _ x _ _
                   (derivable_pt_lim_const k0 x) H1) H2) as Hsum.
  eapply derivable_pt_lim_eq; [| | exact Hsum].
  - intros y; rewrite Hg.
    unfold plus_fct, mult_fct, fct_cte, comp; reflexivity.
  - rewrite Hl; unfold fct_cte, comp; ring.
Qed.

(** The operator of [d_hamiltonian_d_flux] is the exact derivative of the
    Hamiltonian with respect to the flux: every entry of the Hamiltonian,
    as a function of the flux, has the real and the imaginary part of the
    entry of the operator as the derivatives of its real and imaginary
    part. *)
Lemma d_hamiltonian_d_flux_exact (self : Cos2PhiQubit)
  (H D : Matrix (ndim self) (ndim self)) (i j : nat) :
  hamiltonian self = Ok H ->
  d_hamiltonian_d_flux self = Ok D ->
  derivable_pt_lim
    (fun f => fst (entry (hamiltonian (with_EJ_flux self (EJ self) f)) i j))
    (flux self) (fst (D i j))
  /\ derivable_pt_lim
       (fun f => snd (entry (hamiltonian (with_EJ_flux self (EJ self) f)) i j))
       (flux self) (snd (D i j)).
Proof.
  intros EH ED.
  unfold d_hamiltonian_d_flux, process_op in ED.
  repeat bind_inv ED. inversion ED; subst; clear ED. same_results.
  match goal with
  | Hc : _cos_phi_operator self = Ok ?c, Hs : _sin_phi_operator self = Ok ?s
    |- _ =>
      pose proof (hamiltonian_josephson_dependence self EH Hc Hs (EJ self))
        as Hdep;
      set (JA := (RtoC (-2 * EJ self)
                  *s _kron3 c (_identity_zeta self) (_cos_theta_operator self)
                  + RtoC (2 * EJ self * dEJ self)
                    *s _kron3 s (_identity_zeta self)
                         (_sin_theta_operator self))%M);
      set (JB := (RtoC (2 * EJ self)
                  *s _kron3 s (_identity_zeta self) (_cos_theta_operator self)
                  + RtoC (2 * EJ self * dEJ self)
                    *s _kron3 c (_identity_zeta self)
                         (_sin_theta_operator self))%M);
      set (K0 := (H - josephson_terms self (EJ self) (flux self) c s
                  + RtoC (2 * EJ self) *s total_identity self)%M)
  end.
  split.
  - apply trig_affine_derivative
      with (k0 := fst (K0 i j)) (k1 := fst (JA i j)) (k2 := fst (JB i j)).
    + intros f. destruct (Hdep f) as (H' & EH' & Hentry).
      rewrite EH'; cbn [entry]. rewrite Hentry.
      unfold K0, JA, JB, josephson_terms.
      cbn [coeff Mplus Mminus Mopp scale _kron3 kron].
      cbn [fst snd Cplus Cminus Copp Cmult RtoC]. ring.
    + unfold JA, JB.
      cbn [coeff Mplus Mminus Mopp scale _kron3 kron].
      cbn [fst snd Cplus Cminus Copp Cmult RtoC]. ring.
  - apply trig_affine_derivative
      with (k0 := snd (K0 i j)) (k1 := snd (JA i j)) (k2 := snd (JB i j)).
    + intros f. destruct (Hdep f) as (H' & EH' & Hentry).
      rewrite EH'; cbn [entry]. rewrite Hentry.
      unfold K0, JA, JB, josephson_terms.
      cbn [coeff Mplus Mminus Mopp scale _kron3 kron].
      cbn [fst snd Cplus Cminus Copp Cmult RtoC]. ring.
    + unfold JA, JB.
      cbn [coeff Mplus Mminus Mopp scale _kron3 kron].
      cbn [fst snd Cplus Cminus Copp Cmult RtoC]. ring.
Qed.

End DerivativeProperties.

Lemma valid_d_hamiltonian_d_EJ {ext : Collaborators} (self : Cos2PhiQubit) :
  valid_parameters self -> returns (d_hamiltonian_d_EJ self).
Proof.
  intros V.
  destruct (valid_cos_phi_operator V) as (c & Ec).
  destruct (valid_sin_phi_operator V) as (s & Es).
  unfold d_hamiltonian_d_EJ. run_calls. eexists; reflexivity.
Qed.

Lemma valid_d_hamiltonian_d_flux {ext : Collaborators} (self : Cos2PhiQubit) :
  valid_parameters self -> returns (d_hamiltonian_d_flux self).
Proof.
  intros V.
  destruct (valid_cos_phi_operator V) as (c & Ec).
  destruct (valid_sin_phi_operator V) as (s & Es).
  unfold d_hamiltonian_d_flux. run_calls. eexists; reflexivity.
Qed.

Lemma default_ndim_pos : (0 < ndim default_qubit)%nat.
Proof. unfold ndim, nphi, nzeta, ntheta; simpl; lia. Qed.

Lemma total_identity_first (self : Cos2PhiQubit) :
  (0 < ndim self)%nat -> total_identity self 0%nat 0%nat = C1.
Proof.
  intros P. unfold ndim in P.
  assert (ntheta self <> 0 /\ nzeta self <> 0)%nat as [Ht Hz] by lia.
  unfold total_identity, _kron3, _identity_phi, _identity_zeta,
    _identity_theta.
  cbn [coeff kron eye].
  rewrite !Nat.Div0.div_0_l, !Nat.Div0.mod_0_l. cbn [Nat.eqb]. Csolve.
Qed.

(** C1 at its failing inputs.  With the default parameters and
    [ng = 1/2] the Hamiltonian is returned but [d_hamiltonian_d_ng]
    raises, so it is no derivative of it.  With the default parameters,
    raising [EJ] from 15 to 16 changes the Hamiltonian by the operator of
    [d_hamiltonian_d_EJ] plus twice the identity, not by the operator:
    the operator is not the derivative of the Hamiltonian with respect to
    [EJ]. *)
Theorem derivative_operators_fail (ext : Collaborators) :
  (returns (hamiltonian (with_ng default_qubit (1 / 2)))
   /\ d_hamiltonian_d_ng (with_ng default_qubit (1 / 2))
      = Raise NotImplementedError)
  /\ exists H H' D : Matrix (ndim default_qubit) (ndim default_qubit),
       hamiltonian default_qubit = Ok H
       /\ hamiltonian (with_EJ_flux default_qubit 16 (flux default_qubit))
          = Ok H'
       /\ d_hamiltonian_d_EJ default_qubit = Ok D
       /\ (H' - H == D + RtoC 2 *s total_identity default_qubit)%M
       /\ ~ (H' - H == D)%M.
Proof.
  split.
  - split.
    + apply valid_hamiltonian, with_ng_valid, default_qubit_valid.
    + apply d_hamiltonian_d_ng_raises.
      * simpl; lra.
      * destruct (valid_disordered_ecj
                    (with_ng_valid (1 / 2) default_qubit_valid))
          as (e & E & _).
        exists e; exact E.
      * apply valid_n_phi_operator, with_ng_valid, default_qubit_valid.
  - destruct (valid_hamiltonian default_qubit_valid) as (H & EH).
    destruct (valid_d_hamiltonian_d_EJ default_qubit_valid) as (D & ED).
    destruct (d_hamiltonian_d_EJ_misses_offset default_qubit EH ED 16)
      as (H' & EH' & Hdiff).
    exists H, H', D. repeat (split; [assumption |]).
    assert (Hsum : (H' - H == D + RtoC 2 *s total_identity default_qubit)%M).
    { intros i j Hi Hj. rewrite (Hdiff i j Hi Hj).
      cbn [coeff Mplus Mminus scale default_qubit EJ].
      apply C_eq; cbn [fst snd Cplus Cminus Copp Cmult RtoC]; ring. }
    split; [exact Hsum |].
    intros Hno.
    pose proof (Hsum 0%nat 0%nat default_ndim_pos default_ndim_pos) as E1.
    pose proof (Hno 0%nat 0%nat default_ndim_pos default_ndim_pos) as E2.
    rewrite E2 in E1. cbn [coeff Mplus scale] in E1.
    rewrite (total_identity_first default_qubit default_ndim_pos) in E1.
    apply (f_equal fst) in E1.
    cbn [fst snd Cplus Cmult RtoC C1] in E1. lra.
Qed.

(** ** The noise channels *)

Section NoiseProperties.

Import NoisyCos2PhiQubit.

Context {ext : Collaborators} {Self : Type} {M : methods Self}.

Lemma mem_In (name : string) (channels : list string) :
  mem name channels = true <-> In name channels.
Proof.
  unfold mem; rewrite existsb_exists; split.
  - intros (x & Hx & E); apply String.eqb_eq in E; subst; exact Hx.
  - intros H; exists name; split; [exact H | apply String.eqb_refl].
Qed.

Lemma mem_not_In (name : string) (channels : list string) :
  mem name channels = false <-> ~ In name channels.
Proof.
  rewrite <- mem_In; destruct (mem name channels); split; intros H.
  - discriminate H.
  - exfalso; apply H; reflexivity.
  - intros E; discriminate E.
  - reflexivity.
Qed.

Lemma cosh_pos (x : R) : 0 < cosh x.
Proof.
  unfold cosh. pose proof (exp_pos x). pose proof (exp_pos (- x)). lra.
Qed.

Lemma tanh_pos (x : R) : 0 < x -> 0 < tanh x.
Proof.
  intros P. unfold tanh. apply Rdiv_lt_0_compat; [| apply cosh_pos].
  rewrite <- sinh_0. apply sinh_lt, P.
Qed.

Lemma thermal_factor_pos (therm_ratio : R) :
  therm_ratio <> 0 -> 0 < tanh (5 / 10 * Rabs therm_ratio).
Proof.
  intros N. apply tanh_pos. pose proof (Rabs_pos_lt _ N). lra.
Qed.

Lemma thermal_nonzero (s therm_ratio : R) :
  therm_ratio <> 0 ->
  thermal s therm_ratio
  = Ok (s * (1 / tanh (5 / 10 * Rabs therm_ratio))
        / (1 + exp (- therm_ratio))).
Proof.
  intros N. unfold thermal.
  pose proof (thermal_factor_pos N). pose proof (exp_pos (- therm_ratio)).
  rewrite py_div_nonzero by lra. cbn [bind].
  rewrite py_div_nonzero by lra. reflexivity.
Qed.

(** The value of a capacitive spectral density with the divisor [d] of
    the junction, [1 - dCJ] or [1 + dCJ]. *)
Lemma capacitive_density_value (self : Self) (q_fun : R -> result R)
  (omega T Q : R) :
  q_fun omega = Ok Q -> Q <> 0 ->
  calc_therm_ratio omega T false <> 0 ->
  let therm_ratio := calc_therm_ratio omega T false in
  (1 - dCJ self <> 0 ->
   t1_capacitive_spectral_density1 self q_fun omega T
   = Ok (32 * PI * ECJ self / (1 - dCJ self) / Q
         * (coth (Rabs therm_ratio / 2) / (1 + exp (- therm_ratio)))))
  /\ (1 + dCJ self <> 0 ->
      t1_capacitive_spectral_density2 self q_fun omega T
      = Ok (32 * PI * ECJ self / (1 + dCJ self) / Q
            * (coth (Rabs therm_ratio / 2) / (1 + exp (- therm_ratio))))).
Proof.
  intros EQ NQ Ntr. cbv zeta.
  pose proof (thermal_factor_pos Ntr) as Pt.
  pose proof (exp_pos (- calc_therm_ratio omega T false)) as Pe.
  replace (Rabs (calc_therm_ratio omega T false) / 2)
    with (5 / 10 * Rabs (calc_therm_ratio omega T false)) by lra.
  split; intros Nd.
  - unfold t1_capacitive_spectral_density1.
    rewrite py_div_nonzero by exact Nd. cbn [bind]. rewrite EQ. cbn [bind].
    rewrite py_div_nonzero by exact NQ. cbn [bind].
    rewrite thermal_nonzero by exact Ntr. cbn [bind].
    f_equal. unfold coth. field. repeat split; lra.
  - unfold t1_capacitive_spectral_density2.
    rewrite py_div_nonzero by exact Nd. cbn [bind]. rewrite EQ. cbn [bind].
    rewrite py_div_nonzero by exact NQ. cbn [bind].
    rewrite thermal_nonzero by exact Ntr. cbn [bind].
    f_equal. unfold coth. field. repeat split; lra.
Qed.

End NoiseProperties.

(** C3, as the code has it.  The spectral densities of [t1_capacitive]
    are [32 pi ECJ / (1 -+ dCJ)] divided by [Q_cap(omega)], times
    [coth(|therm_ratio| / 2) / (1 + exp(- therm_ratio))]: the prefactor of
    the two junctions is [32 pi ECJ / (1 - dCJ)] and
    [32 pi ECJ / (1 + dCJ)]. *)
Theorem t1_capacitive_spectral_density_prefactor {ext : Collaborators}
  {Self : Type} {M : NoisyCos2PhiQubit.methods Self}
  (self : Self) (q_fun : R -> result R) (omega T Q : R) :
  q_fun omega = Ok Q -> Q <> 0 ->
  calc_therm_ratio omega T false <> 0 ->
  1 - NoisyCos2PhiQubit.dCJ self <> 0 ->
  1 + NoisyCos2PhiQubit.dCJ self <> 0 ->
  let therm_ratio := calc_therm_ratio omega T false in
  NoisyCos2PhiQubit.t1_capacitive_spectral_density1 self q_fun omega T
  = Ok (32 * PI * NoisyCos2PhiQubit.ECJ self
        / (1 - NoisyCos2PhiQubit.dCJ self) / Q
        * (coth (Rabs therm_ratio / 2) / (1 + exp (- therm_ratio))))
  /\ NoisyCos2PhiQubit.t1_capacitive_spectral_density2 self q_fun omega T
     = Ok (32 * PI * NoisyCos2PhiQubit.ECJ self
           / (1 + NoisyCos2PhiQubit.dCJ self) / Q
           * (coth (Rabs therm_ratio / 2) / (1 + exp (- therm_ratio)))).
Proof.
  intros EQ NQ Ntr N1 N2.
  destruct (@capacitive_density_value ext Self M self q_fun omega T Q EQ NQ Ntr)
    as [H1 H2].
  split; [exact (H1 N1) | exact (H2 N2)].
Qed.

(** The theorem on the default qubit with [Q_cap = 1], at unit frequency
    and temperature. *)
Lemma t1_capacitive_spectral_density_prefactor_witness :
  NoisyCos2PhiQubit.t1_capacitive_spectral_density1
    (ext := example_collaborators) (M := example_methods)
    default_qubit (fun _ => Ok 1) 1 1
  = Ok (32 * PI * 2 / (1 - 0) / 1
        * (coth (Rabs (1 / 1) / 2) / (1 + exp (- (1 / 1))))).
Proof.
  apply (@t1_capacitive_spectral_density_prefactor example_collaborators
           Cos2PhiQubit example_methods default_qubit (fun _ => Ok 1)
           1 1 1);
    try reflexivity; simpl; lra.
Defined.

(** C3 as stated fails: on the default qubit with [Q_cap = 1], at unit
    frequency and temperature, the first spectral density is not the
    value with the prefactor [16 pi ECJ / (1 - dCJ)]. *)
Lemma t1_capacitive_prefactor_is_not_16_pi :
  NoisyCos2PhiQubit.t1_capacitive_spectral_density1
    (ext := example_collaborators) (M := example_methods)
    default_qubit (fun _ => Ok 1) 1 1
  <> Ok (16 * PI * 2 / (1 - 0) / 1
         * (coth (Rabs (1 / 1) / 2) / (1 + exp (- (1 / 1))))).
Proof.
  assert (N1 : (1 : R) <> 0) by lra.
  assert (Ntr : calc_therm_ratio (Collaborators := example_collaborators)
                  1 1 false <> 0) by (simpl; lra).
  destruct (@capacitive_density_value example_collaborators Cos2PhiQubit
              example_methods default_qubit (fun _ => Ok 1) 1 1 1
              eq_refl N1 Ntr) as [H1 _].
  cbv zeta in H1. simpl in H1. rewrite H1 by lra.
  intros E. inversion E as [E']. clear E H1.
  assert (PX : 0 < coth (Rabs (1 / 1) / 2) / (1 + exp (- (1 / 1)))).
  { apply Rdiv_lt_0_compat.
    - unfold coth. apply Rdiv_lt_0_compat; [lra |].
      apply tanh_pos. rewrite Rabs_right; lra.
    - pose proof (exp_pos (- (1 / 1))); lra. }
  pose proof PI_RGT_0 as PP.
  set (X := coth (Rabs (1 / 1) / 2) / (1 + exp (- (1 / 1)))) in *.
  assert (0 < PI * X) by (apply Rmult_lt_0_compat; assumption).
  nra.
Qed.

(** ** C5 and C6: the guard and the sum of the rates *)

Section ChannelProperties.

Import NoisyCos2PhiQubit.

Context {ext : Collaborators} {Self : Type} {M : methods Self}.

Lemma Ok_not_unsupported {A : Type} (a : A) : not_unsupported (Ok a).
Proof. intros name E; discriminate E. Qed.

Lemma py_div_not_unsupported (x y : R) : not_unsupported (x // y).
Proof.
  intros name; unfold py_div, unsupported.
  destruct (Req_dec_T y 0); intros E; discriminate E.
Qed.

Lemma bind_not_unsupported {A B : Type} (c : result A) (k : A -> result B) :
  not_unsupported c -> (forall a, not_unsupported (k a)) ->
  not_unsupported (bind c k).
Proof.
  intros Hc Hk name. destruct c as [a | e]; simpl.
  - apply Hk.
  - intros E. apply (Hc name). inversion E. reflexivity.
Qed.

(** The guard comes first: without the channel name in the list, a noise
    method raises whatever the other methods of [self] are. *)
Lemma t1_inductive_unsupported (self : Self) (i j : Z) (Q : quality) (T : R)
  (total : bool) (es : option esys) (get_rate : bool) :
  ~ In "t1_inductive"%string (supported_noise_channels self) ->
  t1_inductive self i j Q T total es get_rate
  = Raise (unsupported "t1_inductive").
Proof.
  intros H; apply mem_not_In in H.
  unfold t1_inductive; rewrite H; reflexivity.
Qed.

Lemma t1_capacitive_unsupported (self : Self) (i j : Z) (Q : quality) (T : R)
  (total : bool) (es : option esys) (get_rate : bool) :
  ~ In "t1_capacitive"%string (supported_noise_channels self) ->
  t1_capacitive self i j Q T total es get_rate
  = Raise (unsupported "t1_capacitive").
Proof.
  intros H; apply mem_not_In in H.
  unfold t1_capacitive; rewrite H; reflexivity.
Qed.

Lemma t1_purcell_unsupported (self : Self) (i j : Z) (Q : quality) (T : R)
  (total : bool) (es : option esys) (get_rate : bool) :
  ~ In "t1_purcell"%string (supported_noise_channels self) ->
  t1_purcell self i j Q T total es get_rate
  = Raise (unsupported "t1_purcell").
Proof.
  intros H; apply mem_not_In in H.
  unfold t1_purcell; rewrite H; reflexivity.
Qed.

Lemma t1_inductive_supported (self : Self) (i j : Z) (Q : quality) (T : R)
  (total : bool) (es : option esys) (get_rate : bool) :
  collaborators_supported self ->
  In "t1_inductive"%string (supported_noise_channels self) ->
  not_unsupported (t1_inductive self i j Q T total es get_rate).
Proof.
  intros (H1 & H2 & _ & _ & _ & Ht) H; apply mem_In in H.
  unfold t1_inductive; rewrite H; cbn [negb].
  repeat (apply bind_not_unsupported; [auto | intros ?]).
  destruct get_rate; [apply Ok_not_unsupported | apply py_div_not_unsupported].
Qed.

Lemma t1_capacitive_supported (self : Self) (i j : Z) (Q : quality) (T : R)
  (total : bool) (es : option esys) (get_rate : bool) :
  collaborators_supported self ->
  In "t1_capacitive"%string (supported_noise_channels self) ->
  not_unsupported (t1_capacitive self i j Q T total es get_rate).
Proof.
  intros (_ & _ & H1 & H2 & _ & Ht) H; apply mem_In in H.
  unfold t1_capacitive; rewrite H; cbn [negb].
  repeat (apply bind_not_unsupported; [auto | intros ?]).
  destruct get_rate; [apply Ok_not_unsupported | apply py_div_not_unsupported].
Qed.

Lemma t1_purcell_supported (self : Self) (i j : Z) (Q : quality) (T : R)
  (total : bool) (es : option esys) (get_rate : bool) :
  collaborators_supported self ->
  In "t1_purcell"%string (supported_noise_channels self) ->
  not_unsupported (t1_purcell self i j Q T total es get_rate).
Proof.
  intros (_ & _ & _ & _ & H1 & Ht) H; apply mem_In in H.
  unfold t1_purcell; rewrite H; cbn [negb].
  apply bind_not_unsupported; [auto | intros ?]. apply Ht.
Qed.


End ChannelProperties.

(** C5. [supported_noise_channels()] returns exactly the six channel
    names.  Each of [t1_inductive], [t1_capacitive] and [t1_purcell]
    raises the unsupported-channel error, before anything else is
    evaluated, when its name is not in the list that
    [supported_noise_channels()] returns at the call; and when its name is
    in the list it does not raise that error (its collaborators never
    raise it themselves). *)
Theorem unsupported_channel_guard {ext : Collaborators} {Self : Type}
  {M : NoisyCos2PhiQubit.methods Self} (self : Self) (i j : Z)
  (Q : NoisyCos2PhiQubit.quality) (T : R) (total : bool)
  (es : option NoisyCos2PhiQubit.esys) (get_rate : bool) :
  supported_noise_channels
  = [ "tphi_1_over_f_cc"%string; "tphi_1_over_f_flux"%string;
      "tphi_1_over_f_ng"%string; "t1_capacitive"%string;
      "t1_inductive"%string; "t1_purcell"%string ]
  /\ (~ In "t1_inductive"%string
          (NoisyCos2PhiQubit.supported_noise_channels self) ->
      NoisyCos2PhiQubit.t1_inductive self i j Q T total es get_rate
      = Raise (RuntimeError
                 "Noise channel 't1_inductive' is not supported in this system."))
  /\ (~ In "t1_capacitive"%string
          (NoisyCos2PhiQubit.supported_noise_channels self) ->
      NoisyCos2PhiQubit.t1_capacitive self i j Q T total es get_rate
      = Raise (RuntimeError
                 "Noise channel 't1_capacitive' is not supported in this system."))
  /\ (~ In "t1_purcell"%string
          (NoisyCos2PhiQubit.supported_noise_channels self) ->
      NoisyCos2PhiQubit.t1_purcell self i j Q T total es get_rate
      = Raise (RuntimeError
                 "Noise channel 't1_purcell' is not supported in this system."))
  /\ (collaborators_supported self ->
      (NoisyCos2PhiQubit.t1_inductive self i j Q T total es get_rate
       = Raise (NoisyCos2PhiQubit.unsupported "t1_inductive")
       <-> ~ In "t1_inductive"%string
              (NoisyCos2PhiQubit.supported_noise_channels self))
      /\ (NoisyCos2PhiQubit.t1_capacitive self i j Q T total es get_rate
          = Raise (NoisyCos2PhiQubit.unsupported "t1_capacitive")
          <-> ~ In "t1_capacitive"%string
                 (NoisyCos2PhiQubit.supported_noise_channels self))
      /\ (NoisyCos2PhiQubit.t1_purcell self i j Q T total es get_rate
          = Raise (NoisyCos2PhiQubit.unsupported "t1_purcell")
          <-> ~ In "t1_purcell"%string
                 (NoisyCos2PhiQubit.supported_noise_channels self))).
Proof.
  split; [reflexivity |].
  split; [apply t1_inductive_unsupported |].
  split; [apply t1_capacitive_unsupported |].
  split; [apply t1_purcell_unsupported |].
  intros HC. repeat split.
  - intros E Hin.
    exact (@t1_inductive_supported ext Self M self i j Q T total es get_rate HC
             Hin _ E).
  - apply t1_inductive_unsupported.
  - intros E Hin.
    exact (@t1_capacitive_supported ext Self M self i j Q T total es get_rate HC
             Hin _ E).
  - apply t1_capacitive_unsupported.
  - intros E Hin.
    exact (@t1_purcell_supported ext Self M self i j Q T total es get_rate HC
             Hin _ E).
  - apply t1_purcell_unsupported.
Qed.

Lemma as_operator_returns {n : nat} (r : result (Matrix n n)) :
  returns r -> not_unsupported (as_operator r).
Proof. intros (A & ->); apply Ok_not_unsupported. Qed.

Lemma example_t1_supported (self : Cos2PhiQubit) (i j : Z)
  (noise_op : native_operator) (spectral_density : R -> R -> result R)
  (total : bool) (es : option { n : nat & Eigensystem n })
  (get_rate : bool) :
  not_unsupported
    (example_t1 self i j noise_op spectral_density total es get_rate).
Proof.
  unfold example_t1.
  destruct ((i =? j)%Z || (i <? 0)%Z || (j <? 0)%Z)%bool;
    [intros name E; discriminate E |].
  destruct (spectral_density 1 1) as [rate | e];
    [| intros name E; discriminate E].
  destruct get_rate; [apply Ok_not_unsupported | apply py_div_not_unsupported].
Qed.

Lemma example_collaborators_supported (channels : list string) :
  collaborators_supported
    (M := Cos2PhiQubit_methods (ext := example_collaborators) channels
            example_t1)
    default_qubit.
Proof.
  destruct (valid_branch_operators default_qubit_valid)
    as (H1 & H2 & H3 & H4).
  pose proof (valid_n_zeta_operator default_qubit_valid) as H5.
  unfold collaborators_supported; cbn.
  repeat (split; [apply as_operator_returns; assumption |]).
  intros; apply example_t1_supported.
Qed.

(** The guard on the default qubit: [t1_capacitive] raises the error once
    its name is removed from the supported channels, and does not raise it
    with the channels of [supported_noise_channels]. *)
Lemma unsupported_channel_guard_witness :
  NoisyCos2PhiQubit.t1_capacitive (ext := example_collaborators)
    (M := patched_methods) default_qubit 1 0 (NoisyCos2PhiQubit.QNum 1) 1
    true None false
  = Raise (RuntimeError
             "Noise channel 't1_capacitive' is not supported in this system.")
  /\ NoisyCos2PhiQubit.t1_capacitive (ext := example_collaborators)
       (M := example_methods) default_qubit 1 0 (NoisyCos2PhiQubit.QNum 1) 1
       true None false
     <> Raise (NoisyCos2PhiQubit.unsupported "t1_capacitive").
Proof.
  split.
  - destruct (@unsupported_channel_guard
                example_collaborators Cos2PhiQubit patched_methods
                default_qubit 1%Z 0%Z (NoisyCos2PhiQubit.QNum 1) 1 true None
                false) as (_ & _ & Hcap & _).
    apply Hcap. apply mem_not_In. reflexivity.
  - intros E.
    destruct (@unsupported_channel_guard
                example_collaborators Cos2PhiQubit example_methods
                default_qubit 1%Z 0%Z (NoisyCos2PhiQubit.QNum 1) 1 true None
                false) as (_ & _ & _ & _ & Hiff).
    destruct (Hiff (example_collaborators_supported supported_noise_channels))
      as (_ & Hcap & _).
    apply (proj1 Hcap E). apply mem_In. reflexivity.
Defined.




(** ** C9: the wave function of the first basis state *)

Lemma for_range_invariant {S : Type} (I : nat -> S -> Prop) (n : nat)
  (body : nat -> S -> result S) (s s' : S) :
  I 0%nat s ->
  (forall k s1 s2, (k < n)%nat -> I k s1 -> body k s1 = Ok s2 ->
                   I (Datatypes.S k) s2) ->
  for_range n body s = Ok s' -> I n s'.
Proof.
  intros H0 Hstep. revert s'.
  induction n as [| n IH]; intros s' E; simpl in E.
  - inversion E; subst; exact H0.
  - bind_inv E. apply (Hstep n v s'); [lia | | exact E].
    apply IH; [| exact E0]. intros k s1 s2 Hk; apply Hstep; lia.
Qed.

Lemma for_range_returns {S : Type} (n : nat) (body : nat -> S -> result S)
  (s : S) :
  (forall k s1, (k < n)%nat -> returns (body k s1)) ->
  returns (for_range n body s).
Proof.
  intros Hbody. induction n as [| n IH]; simpl.
  - eexists; reflexivity.
  - destruct IH as (s1 & E1); [intros k s1 Hk; apply Hbody; lia |].
    rewrite E1; cbn [bind]. apply Hbody; lia.
Qed.

Lemma flat_index_bound (i j k a b c : nat) :
  (i < a)%nat -> (j < b)%nat -> (k < c)%nat ->
  ((i * b + j) * c + k < a * b * c)%nat.
Proof.
  intros Hi Hj Hk.
  assert (H1 : (i * b + j + 1 <= a * b)%nat).
  { assert ((i + 1) * b <= a * b)%nat by (apply Nat.mul_le_mono_r; lia).
    lia. }
  assert (H2 : ((i * b + j + 1) * c <= a * b * c)%nat)
    by (apply Nat.mul_le_mono_r; exact H1).
  lia.
Qed.

Lemma flat_index_zero (i j k b c : nat) :
  (j < b)%nat -> (k < c)%nat ->
  ((i * b + j) * c + k = 0)%nat -> (i = 0 /\ j = 0 /\ k = 0)%nat.
Proof.
  intros Hj Hk E.
  assert (k = 0 /\ (i * b + j) * c = 0)%nat as [-> E1] by lia.
  assert (i * b + j = 0)%nat as E2 by nia.
  assert (j = 0 /\ i * b = 0)%nat as [-> E3] by lia.
  repeat split. nia.
Qed.

Section WavefunctionProperties.

Context {ext : Collaborators}.

Variable self : Cos2PhiQubit.
Variables l_phi l_zeta : C.
Hypothesis phi_osc_returns : phi_osc self = Ok l_phi.
Hypothesis zeta_osc_returns : zeta_osc self = Ok l_zeta.

(** The eigenvector: the basis vector of the first basis state. *)
Variable column : nat -> C.
Hypothesis dimension_positive : (0 < ndim self)%nat.
Hypothesis column_first :
  forall r, (r < ndim self)%nat -> column r = if (r =? 0)%nat then C1 else C0.

Variables phi_labels zeta_labels theta_labels : nat -> R.

Let amplitude (i j k : nat) : C :=
  column ((i * nzeta self + j) * ntheta self + k)%nat.

(** The product term of the first basis state. *)
Let first_term (a b c : nat) : C :=
  (harm_osc_wavefunction 0 (phi_labels a) l_phi
   * harm_osc_wavefunction 0 (zeta_labels b) l_zeta
   * planewave (- ncut self) (theta_labels c))%C.

(** The amplitudes before the basis state [(i, j, k)] is added: nothing
    before the first basis state, its product term after it. *)
Let before (i j k : nat) (acc : nat -> nat -> nat -> C) : Prop :=
  forall a b c,
    acc a b c
    = if ((i =? 0) && (j =? 0) && (k =? 0))%nat then C0 else first_term a b c.

Lemma dimensions_positive :
  (0 < nphi self /\ 0 < nzeta self /\ 0 < ntheta self)%nat.
Proof. unfold ndim in dimension_positive. lia. Qed.

Lemma amplitude_first (i j k : nat) :
  (i < nphi self)%nat -> (j < nzeta self)%nat -> (k < ntheta self)%nat ->
  amplitude i j k
  = if ((i =? 0) && (j =? 0) && (k =? 0))%nat then C1 else C0.
Proof.
  intros Hi Hj Hk. unfold amplitude.
  rewrite column_first by (apply flat_index_bound; assumption).
  destruct (Nat.eqb_spec ((i * nzeta self + j) * ntheta self + k) 0)
    as [E | N].
  - destruct (@flat_index_zero i j k _ _ Hj Hk E) as (-> & -> & ->);
      reflexivity.
  - destruct (Nat.eqb_spec i 0) as [-> | Ni];
      destruct (Nat.eqb_spec j 0) as [-> | Nj];
      destruct (Nat.eqb_spec k 0) as [-> | Nk]; cbn [andb];
      try reflexivity.
    contradiction N; reflexivity.
Qed.

Lemma wavefunction_term_step (i j k : nat)
  (acc acc' : nat -> nat -> nat -> C) :
  (i < nphi self)%nat -> (j < nzeta self)%nat -> (k < ntheta self)%nat ->
  before i j k acc ->
  wavefunction_term self amplitude phi_labels zeta_labels theta_labels
    i j k acc = Ok acc' ->
  before i j (S k) acc'.
Proof.
  intros Hi Hj Hk Hacc E.
  unfold wavefunction_term in E.
  rewrite phi_osc_returns, zeta_osc_returns in E; cbn [bind] in E.
  inversion E; subst; clear E.
  intros a b c. rewrite Hacc, (@amplitude_first i j k Hi Hj Hk).
  replace (S k =? 0)%nat with false by reflexivity.
  rewrite !andb_false_r.
  destruct ((i =? 0) && (j =? 0) && (k =? 0))%nat eqn:Z0.
  - apply andb_prop in Z0; destruct Z0 as [Z1 Z2].
    apply andb_prop in Z1; destruct Z1 as [Z1 Z3].
    apply Nat.eqb_eq in Z1, Z2, Z3; subst.
    unfold first_term, planewave.
    replace (Z.of_nat 0 - ncut self)%Z with (- ncut self)%Z by lia.
    change (Z.of_nat 0) with 0%Z. Csolve.
  - Csolve.
Qed.

Lemma wavefunction_term_returns (i j k : nat)
  (acc : nat -> nat -> nat -> C) :
  returns (wavefunction_term self amplitude phi_labels zeta_labels
             theta_labels i j k acc).
Proof.
  unfold wavefunction_term.
  rewrite phi_osc_returns, zeta_osc_returns; cbn [bind].
  eexists; reflexivity.
Qed.

(** The three nested loops of [wavefunction]. *)
Let loops (acc : nat -> nat -> nat -> C) : result (nat -> nat -> nat -> C) :=
  for_range (nphi self) (fun i acc =>
    for_range (nzeta self) (fun j acc =>
      for_range (ntheta self) (fun k acc =>
        wavefunction_term self amplitude phi_labels zeta_labels theta_labels
          i j k acc) acc) acc) acc.

Lemma loops_returns (acc : nat -> nat -> nat -> C) : returns (loops acc).
Proof.
  unfold loops.
  apply for_range_returns; intros i s1 _.
  apply for_range_returns; intros j s2 _.
  apply for_range_returns; intros k s3 _.
  apply wavefunction_term_returns.
Qed.

Lemma loops_first_term (acc : nat -> nat -> nat -> C) :
  loops (fun _ _ _ => C0) = Ok acc ->
  forall a b c, acc a b c = first_term a b c.
Proof.
  destruct dimensions_positive as (Pp & Pz & Pt).
  unfold loops; intros E.
  assert (Hend : before (nphi self) 0 0 acc).
  { eapply for_range_invariant with (I := fun i s => before i 0 0 s);
      [| | exact E].
    - intros a b c; reflexivity.
    - intros i s1 s2 Hi H1 E1.
      assert (H2 : before i (nzeta self) 0 s2).
      { eapply for_range_invariant with (I := fun j s => before i j 0 s);
          [| | exact E1].
        - exact H1.
        - intros j s3 s4 Hj H3 E3.
          assert (H4 : before i j (ntheta self) s4).
          { eapply for_range_invariant with (I := fun k s => before i j k s);
              [| | exact E3].
            - exact H3.
            - intros k s5 s6 Hk H5 E5.
              eapply wavefunction_term_step; eassumption. }
          intros a b c. rewrite H4.
          replace (ntheta self =? 0)%nat with false
            by (symmetry; apply Nat.eqb_neq; lia).
          replace (S j =? 0)%nat with false by reflexivity.
          rewrite !andb_false_r; reflexivity. }
      intros a b c. rewrite H2.
      replace (nzeta self =? 0)%nat with false
        by (symmetry; apply Nat.eqb_neq; lia).
      replace (S i =? 0)%nat with false by reflexivity.
      rewrite andb_false_r; reflexivity. }
  intros a b c. rewrite Hend.
  replace (nphi self =? 0)%nat with false
    by (symmetry; apply Nat.eqb_neq; lia).
  reflexivity.
Qed.

End WavefunctionProperties.

(** C9. For a supplied eigensystem whose column [which] is the basis
    vector of the first basis state, amplitude 1 at [(0, 0, 0)] and 0
    elsewhere, [wavefunction] returns, at every grid point, the product
    [HO(0, phi, phi_osc) * HO(0, zeta, zeta_osc) * exp(-i (-ncut) theta)
    / sqrt(2 pi)], on the grids given or on the default grids. *)
Theorem wavefunction_first_basis_state {ext : Collaborators}
  (eigensys : forall q : Cos2PhiQubit, nat -> result (Eigensystem (ndim q)))
  (self : Cos2PhiQubit) (es : Eigensystem (ndim self)) (which : nat)
  (phi_grid zeta_grid theta_grid : option Grid1d) (l_phi l_zeta : C) :
  phi_osc self = Ok l_phi ->
  zeta_osc self = Ok l_zeta ->
  (which < n_evals es)%nat ->
  first_basis_vector (evecs es) which ->
  exists W : WaveFunctionOnGrid,
    wavefunction eigensys self (Some es) which phi_grid zeta_grid theta_grid
    = Ok W
    /\ gridspec W
       = (grid_or phi_grid _default_phi_grid,
          grid_or zeta_grid _default_zeta_grid,
          grid_or theta_grid _default_theta_grid)
    /\ forall a b c : nat,
         amplitudes W a b c
         = (harm_osc_wavefunction 0
              (make_linspace (grid_or phi_grid _default_phi_grid) a) l_phi
            * harm_osc_wavefunction 0
                (make_linspace (grid_or zeta_grid _default_zeta_grid) b)
                l_zeta
            * planewave (- ncut self)
                (make_linspace (grid_or theta_grid _default_theta_grid) c))%C.
Proof.
  intros Ephi Ezeta Hwhich (Hdim & Hcol).
  unfold wavefunction. cbn [bind].
  apply Nat.ltb_lt in Hwhich; rewrite Hwhich; cbn [bind].
  destruct (@loops_returns ext self l_phi l_zeta Ephi Ezeta
              (fun r => evecs es r which)
              (make_linspace (grid_or phi_grid _default_phi_grid))
              (make_linspace (grid_or zeta_grid _default_zeta_grid))
              (make_linspace (grid_or theta_grid _default_theta_grid))
              (fun _ _ _ => C0)) as (acc & E).
  rewrite E; cbn [bind].
  eexists; split; [reflexivity |]. split; [reflexivity |].
  cbn [amplitudes].
  exact (@loops_first_term ext self l_phi l_zeta Ephi Ezeta
           (fun r => evecs es r which) Hdim Hcol _ _ _ acc E).
Qed.

(** The theorem on the default qubit and the ground state of
    [example_esys], on the default grids. *)
Lemma wavefunction_first_basis_state_witness :
  exists (l_phi l_zeta : C) (W : WaveFunctionOnGrid),
    phi_osc default_qubit = Ok l_phi
    /\ zeta_osc default_qubit = Ok l_zeta
    /\ wavefunction (ext := example_collaborators) example_eigensys
         default_qubit (Some (example_esys (ndim default_qubit))) 0
         None None None = Ok W
    /\ forall a b c : nat,
         amplitudes W a b c
         = (harm_osc_wavefunction (Collaborators := example_collaborators) 0
              (make_linspace (Collaborators := example_collaborators)
                 _default_phi_grid a) l_phi
            * harm_osc_wavefunction (Collaborators := example_collaborators)
                0 (make_linspace (Collaborators := example_collaborators)
                     _default_zeta_grid b) l_zeta
            * planewave (- 7)
                (make_linspace (Collaborators := example_collaborators)
                   _default_theta_grid c))%C.
Proof.
  destruct (valid_phi_osc default_qubit_valid) as (lp & Ep & _).
  destruct (valid_zeta_osc default_qubit_valid) as (lz & Ez & _).
  assert (Hfirst : first_basis_vector
                     (evecs (example_esys (ndim default_qubit))) 0).
  { split; [exact default_ndim_pos | intros r _; reflexivity]. }
  assert (Hwhich : (0 < n_evals (example_esys (ndim default_qubit)))%nat)
    by (simpl; lia).
  destruct (@wavefunction_first_basis_state example_collaborators
              example_eigensys default_qubit
              (example_esys (ndim default_qubit)) 0 None None None
              (RtoC lp) (RtoC lz) Ep Ez Hwhich Hfirst)
    as (W & EW & _ & Hamp).
  exists (RtoC lp), (RtoC lz), W.
  repeat (split; [assumption |]). exact Hamp.
Defined.

(* ================================================================== *)
(** * Further properties of the code *)

(** ** Sums and products of matrices *)

Lemma Cplus_0_l (a : C) : (C0 + a)%C = a.
Proof. Csolve. Qed.

Lemma Cplus_0_r (a : C) : (a + C0)%C = a.
Proof. Csolve. Qed.

Lemma Cmult_0_l (a : C) : (C0 * a)%C = C0.
Proof. Csolve. Qed.

Lemma Cmult_0_r (a : C) : (a * C0)%C = C0.
Proof. Csolve. Qed.

Lemma Cmult_1_l (a : C) : (C1 * a)%C = a.
Proof. Csolve. Qed.

Lemma RtoC_mult (x y : R) : (RtoC x * RtoC y)%C = RtoC (x * y).
Proof. Csolve. Qed.

Lemma Cnorm2_pos (a : C) : a <> C0 -> 0 < Cnorm2 a.
Proof.
  intros N. unfold Cnorm2. destruct a as [x y]; simpl.
  destruct (Req_dec_T x 0) as [Ex | Nx].
  - destruct (Req_dec_T y 0) as [Ey | Ny].
    + subst; contradiction N; reflexivity.
    + nra.
  - nra.
Qed.

Lemma Cmult_inv_r (a : C) : a <> C0 -> (a * Cinv a)%C = C1.
Proof.
  intros N. pose proof (Cnorm2_pos N) as P.
  unfold Cinv. apply C_eq; unfold Cnorm2 in *; simpl; field; lra.
Qed.

Lemma Csum_plus (f g : nat -> C) (n : nat) :
  Csum (fun k => (f k + g k)%C) n = (Csum f n + Csum g n)%C.
Proof.
  induction n as [| n IH]; simpl.
  - Csolve.
  - rewrite IH. Csolve.
Qed.

Lemma Csum_minus (f g : nat -> C) (n : nat) :
  Csum (fun k => (f k - g k)%C) n = (Csum f n - Csum g n)%C.
Proof.
  induction n as [| n IH]; simpl.
  - Csolve.
  - rewrite IH. Csolve.
Qed.

Lemma Csum_scale (c : C) (f : nat -> C) (n : nat) :
  Csum (fun k => (c * f k)%C) n = (c * Csum f n)%C.
Proof.
  induction n as [| n IH]; simpl.
  - Csolve.
  - rewrite IH. Csolve.
Qed.

(** A sum with a single nonzero term, the one of index [c]. *)
Lemma Csum_delta (g : nat -> C) (c n : nat) :
  Csum (fun k => if (k =? c)%nat then g k else C0) n
  = if (c <? n)%nat then g c else C0.
Proof.
  induction n as [| n IH]; simpl.
  - reflexivity.
  - rewrite IH.
    destruct (Nat.eqb_spec n c) as [-> | Nc].
    + rewrite Nat.ltb_irrefl.
      replace (c <? S c)%nat with true by (symmetry; apply Nat.ltb_lt; lia).
      apply Cplus_0_l.
    + destruct (Nat.ltb_spec c n) as [L | G].
      * replace (c <? S n)%nat with true by (symmetry; apply Nat.ltb_lt; lia).
        apply Cplus_0_r.
      * replace (c <? S n)%nat with false
          by (symmetry; apply Nat.ltb_ge; lia).
        apply Cplus_0_r.
Qed.

Lemma Mmult_plus_l {m n o} (A B : Matrix m n) (D : Matrix n o) (i j : nat) :
  Mmult (A + B)%M D i j = (Mmult A D i j + Mmult B D i j)%C.
Proof.
  cbn [coeff Mmult Mplus]. rewrite <- Csum_plus.
  apply Csum_ext; intros k _. Csolve.
Qed.

Lemma Mmult_plus_r {m n o} (A : Matrix m n) (B D : Matrix n o) (i j : nat) :
  Mmult A (B + D)%M i j = (Mmult A B i j + Mmult A D i j)%C.
Proof.
  cbn [coeff Mmult Mplus]. rewrite <- Csum_plus.
  apply Csum_ext; intros k _. Csolve.
Qed.

Lemma Mmult_minus_l {m n o} (A B : Matrix m n) (D : Matrix n o) (i j : nat) :
  Mmult (A - B)%M D i j = (Mmult A D i j - Mmult B D i j)%C.
Proof.
  cbn [coeff Mmult Mminus]. rewrite <- Csum_minus.
  apply Csum_ext; intros k _. Csolve.
Qed.

Lemma Mmult_minus_r {m n o} (A : Matrix m n) (B D : Matrix n o) (i j : nat) :
  Mmult A (B - D)%M i j = (Mmult A B i j - Mmult A D i j)%C.
Proof.
  cbn [coeff Mmult Mminus]. rewrite <- Csum_minus.
  apply Csum_ext; intros k _. Csolve.
Qed.

Lemma Mmult_scale_l {m n o} (c : C) (A : Matrix m n) (D : Matrix n o)
  (i j : nat) :
  Mmult (c *s A)%M D i j = (c * Mmult A D i j)%C.
Proof.
  cbn [coeff Mmult scale]. rewrite <- Csum_scale.
  apply Csum_ext; intros k _. Csolve.
Qed.

Lemma Mmult_scale_r {m n o} (c : C) (A : Matrix m n) (D : Matrix n o)
  (i j : nat) :
  Mmult A (c *s D)%M i j = (c * Mmult A D i j)%C.
Proof.
  cbn [coeff Mmult scale]. rewrite <- Csum_scale.
  apply Csum_ext; intros k _. Csolve.
Qed.

(** ** operators.py: the ladder operators *)

Lemma sqrt_INR_square (i : nat) : sqrt (INR i) * sqrt (INR i) = INR i.
Proof. apply sqrt_sqrt, pos_INR. Qed.

(** [a^dagger a] entry by entry. *)
Lemma creation_annihilation_product (n i j : nat) :
  (i < n)%nat ->
  Mmult (op.creation_sparse n) (op.annihilation_sparse n) i j
  = plain_number n i j.
Proof.
  intros Hi. cbn [coeff Mmult op.creation_sparse op.annihilation_sparse
                    transpose dia_matrix plain_number].
  rewrite Csum_ext
    with (g := fun k => if (k =? pred i)%nat
                        then (if ((1 <=? i) && (i =? j))%nat
                              then RtoC (INR i) else C0)
                        else C0).
  - rewrite Csum_delta.
    replace (pred i <? n)%nat with true by (symmetry; apply Nat.ltb_lt; lia).
    destruct (Nat.leb_spec 1 i) as [L | G]; cbn [andb].
    + reflexivity.
    + assert (i = 0)%nat by lia; subst.
      destruct (0 =? j)%nat; reflexivity.
  - intros k Hk.
    destruct (Z.eqb_spec (Z.of_nat i - Z.of_nat k) 1) as [E1 | N1];
      destruct (Z.eqb_spec (Z.of_nat j - Z.of_nat k) 1) as [E2 | N2];
      destruct (Nat.eqb_spec k (pred i)) as [E3 | N3];
      destruct (Nat.leb_spec 1 i) as [L | G];
      destruct (Nat.eqb_spec i j) as [E4 | N4];
      cbn [andb]; try lia;
      try (rewrite ?Cmult_0_l, ?Cmult_0_r; reflexivity).
    subst j. rewrite RtoC_mult, sqrt_INR_square. reflexivity.
Qed.

(** [a a^dagger] entry by entry. *)
Lemma annihilation_creation_product (n i j : nat) :
  (i < n)%nat ->
  Mmult (op.annihilation_sparse n) (op.creation_sparse n) i j
  = if ((i =? j) && (S i <? n))%nat then RtoC (INR (S i)) else C0.
Proof.
  intros Hi. cbn [coeff Mmult op.creation_sparse op.annihilation_sparse
                    transpose dia_matrix].
  rewrite Csum_ext
    with (g := fun k => if (k =? S i)%nat
                        then (if (i =? j)%nat then RtoC (INR (S i)) else C0)
                        else C0).
  - rewrite Csum_delta.
    destruct (Nat.ltb_spec (S i) n); destruct (i =? j)%nat; reflexivity.
  - intros k Hk.
    destruct (Z.eqb_spec (Z.of_nat k - Z.of_nat i) 1) as [E1 | N1];
      destruct (Z.eqb_spec (Z.of_nat k - Z.of_nat j) 1) as [E2 | N2];
      destruct (Nat.eqb_spec k (S i)) as [E3 | N3];
      destruct (Nat.eqb_spec i j) as [E4 | N4];
      try lia;
      try (rewrite ?Cmult_0_l, ?Cmult_0_r; reflexivity).
    subst k. rewrite RtoC_mult, sqrt_INR_square. reflexivity.
Qed.

Lemma ladder_commutator_entry (n i j : nat) :
  (i < n)%nat ->
  commutator (op.annihilation_sparse n) (op.creation_sparse n) i j
  = truncated_identity n i j.
Proof.
  intros Hi. unfold commutator. cbn [coeff Mminus].
  rewrite annihilation_creation_product, creation_annihilation_product
    by exact Hi.
  cbn [coeff plain_number truncated_identity].
  destruct (Nat.eqb_spec i j) as [E | N]; cbn [andb].
  - destruct (Nat.ltb_spec (S i) n) as [L | G];
      destruct (Nat.eqb_spec (S i) n) as [E' | N']; try lia.
    + rewrite S_INR. Csolve.
    + Csolve.
  - Csolve.
Qed.

(** X1. The sparse ladder operators of a space of [dimension] levels:
    [a^dagger a] is the number operator that [number_sparse] returns
    without a prefactor, and the commutator [a a^dagger - a^dagger a] is
    the identity except for its last diagonal entry, which is
    [- (dimension - 1)]. *)
Theorem ladder_operators_commutator (dimension : nat) :
  (exists N, op.number_sparse dimension op.PNone = Ok N
             /\ (Mmult (op.creation_sparse dimension)
                   (op.annihilation_sparse dimension) == N)%M)
  /\ (commutator (op.annihilation_sparse dimension)
        (op.creation_sparse dimension)
      == truncated_identity dimension)%M
  /\ (forall i, (S i < dimension)%nat ->
        commutator (op.annihilation_sparse dimension)
          (op.creation_sparse dimension) i i = C1)
  /\ (forall i, (S i = dimension)%nat ->
        commutator (op.annihilation_sparse dimension)
          (op.creation_sparse dimension) i i = RtoC (- INR i)).
Proof.
  split; [| split; [| split]].
  - destruct (number_sparse_None dimension) as (N & EN & HN).
    exists N; split; [exact EN |].
    intros i j Hi Hj. rewrite (HN i j Hi Hj).
    apply creation_annihilation_product; exact Hi.
  - intros i j Hi _. apply ladder_commutator_entry; exact Hi.
  - intros i Hi. rewrite ladder_commutator_entry by lia.
    cbn [coeff truncated_identity]. rewrite Nat.eqb_refl.
    replace (S i =? dimension)%nat with false
      by (symmetry; apply Nat.eqb_neq; lia).
    reflexivity.
  - intros i Hi. rewrite ladder_commutator_entry by lia.
    cbn [coeff truncated_identity]. rewrite Nat.eqb_refl.
    replace (S i =? dimension)%nat with true
      by (symmetry; apply Nat.eqb_eq; exact Hi).
    reflexivity.
Qed.

(** The commutator on three levels. *)
Lemma ladder_operators_commutator_witness :
  commutator (op.annihilation_sparse 3) (op.creation_sparse 3) 0%nat 0%nat
  = C1
  /\ commutator (op.annihilation_sparse 3) (op.creation_sparse 3) 2%nat 2%nat
     = RtoC (- INR 2).
Proof.
  destruct (ladder_operators_commutator 3) as (_ & _ & Hin & Hlast).
  split; [apply Hin; lia | apply Hlast; reflexivity].
Defined.

(** X2. The dense ladder operators, built from [np.diagflat(v, 1)] with
    one entry per row, have the entries of the sparse ones, built from a
    [dia_matrix] whose data is indexed by column; the dense matrix has at
    least one row, also for [dimension = 0], where its only entry is
    zero. *)
Theorem dense_ladder_operators (dimension : nat) :
  S (dimension - 1) = Nat.max 1 dimension
  /\ (forall i j,
        op.annihilation dimension i j = op.annihilation_sparse dimension i j)
  /\ (forall i j,
        op.creation dimension i j = op.creation_sparse dimension i j)
  /\ (forall i j, (i < dimension)%nat ->
        Mmult (op.creation dimension) (op.annihilation dimension) i j
        = plain_number dimension i j)
  /\ op.annihilation 0 0%nat 0%nat = C0.
Proof.
  assert (Hentry : forall i j,
             op.annihilation dimension i j
             = op.annihilation_sparse dimension i j).
  { intros i j.
    cbn [coeff op.annihilation op.diagflat1 op.annihilation_sparse dia_matrix].
    destruct (Z.eqb_spec (Z.of_nat j - Z.of_nat i) 1) as [E | N'];
      destruct (Nat.eqb_spec j (S i)) as [E' | N]; try lia;
      try reflexivity.
    subst j; reflexivity. }
  split; [lia |]. split; [exact Hentry |]. split; [| split].
  - intros i j. cbn [coeff op.creation op.creation_sparse transpose].
    apply Hentry.
  - intros i j Hi.
    rewrite <- (creation_annihilation_product j Hi).
    cbn [coeff Mmult].
    match goal with
    | |- Csum ?f _ = _ =>
        transitivity (Csum f dimension); [f_equal; lia |]
    end.
    apply Csum_ext; intros k _.
    cbn [coeff op.creation op.creation_sparse transpose].
    rewrite !Hentry. reflexivity.
  - reflexivity.
Qed.

Lemma dense_ladder_operators_witness :
  Mmult (op.creation 3) (op.annihilation 3) 2%nat 2%nat
  = plain_number 3 2%nat 2%nat.
Proof.
  destruct (dense_ladder_operators 3) as (_ & _ & _ & H & _).
  apply H; lia.
Defined.

(** ** operators.py: the quadratures [a + a^dagger] and [i a^dagger - i a] *)

Lemma quadrature_commutator_entry (n : nat) (p q : C) (i j : nat) :
  (i < n)%nat ->
  commutator
    (p *s (op.annihilation_sparse n + op.creation_sparse n))%M
    (q *s (Ci *s op.creation_sparse n - Ci *s op.annihilation_sparse n))%M
    i j
  = ((RtoC 2 * (p * q) * Ci) * truncated_identity n i j)%C.
Proof.
  intros Hi. rewrite <- (ladder_commutator_entry j Hi).
  unfold commutator. cbn [coeff Mminus].
  rewrite !Mmult_scale_l, !Mmult_scale_r.
  rewrite !Mmult_plus_l, !Mmult_minus_l, !Mmult_minus_r, !Mmult_plus_r.
  rewrite !Mmult_scale_l, !Mmult_scale_r.
  generalize (Mmult (op.annihilation_sparse n) (op.annihilation_sparse n) i j)
             (Mmult (op.annihilation_sparse n) (op.creation_sparse n) i j)
             (Mmult (op.creation_sparse n) (op.annihilation_sparse n) i j)
             (Mmult (op.creation_sparse n) (op.creation_sparse n) i j).
  intros aa ab ba bb. Csolve.
Qed.

(** X3. With a float prefactor [a_plus_adag_sparse] and
    [iadag_minus_ia_sparse] return Hermitian matrices; their commutator is
    [2 i] times the product of the prefactors times the truncated
    identity; a missing prefactor is the prefactor one, and, unlike in
    [number], the prefactor zero gives the zero matrix. *)
Theorem quadrature_operators (dimension : nat) (x y : R) :
  hermitian (op.a_plus_adag_sparse dimension (op.PFloat x))
  /\ hermitian (op.iadag_minus_ia_sparse dimension (op.PFloat y))
  /\ (commutator (op.a_plus_adag_sparse dimension (op.PFloat x))
        (op.iadag_minus_ia_sparse dimension (op.PFloat y))
      == (RtoC (2 * x * y) * Ci)%C *s truncated_identity dimension)%M
  /\ (op.a_plus_adag_sparse dimension op.PNone
      == op.annihilation_sparse dimension + op.creation_sparse dimension)%M
  /\ (op.iadag_minus_ia_sparse dimension op.PNone
      == Ci *s (op.creation_sparse dimension
                - op.annihilation_sparse dimension))%M
  /\ (op.a_plus_adag_sparse dimension (op.PFloat 0)
      == Zero dimension dimension)%M
  /\ (op.iadag_minus_ia_sparse dimension (op.PFloat 0)
      == Zero dimension dimension)%M.
Proof.
  repeat split.
  - unfold op.a_plus_adag_sparse, op.prefactor_or_one.
    apply hermitian_scale; [apply is_real_RtoC |].
    apply hermitian_equiv with
      (A := (op.creation_sparse dimension
             + op.annihilation_sparse dimension)%M).
    + intros i j _ _. cbn [coeff Mplus]. Csolve.
    + apply ladder_sum_hermitian.
  - unfold op.iadag_minus_ia_sparse, op.prefactor_or_one.
    apply hermitian_scale; [apply is_real_RtoC |].
    apply hermitian_equiv with
      (A := (Ci *s (op.creation_sparse dimension
                    - op.annihilation_sparse dimension))%M).
    + intros i j _ _. cbn [coeff Mminus scale]. Csolve.
    + apply ladder_difference_hermitian.
  - intros i j Hi _.
    unfold op.a_plus_adag_sparse, op.iadag_minus_ia_sparse,
      op.prefactor_or_one.
    rewrite (quadrature_commutator_entry (RtoC x) (RtoC y) j Hi).
    cbn [coeff scale]. generalize (truncated_identity dimension i j).
    intros t. Csolve.
  - intros i j _ _.
    unfold op.a_plus_adag_sparse, op.prefactor_or_one.
    cbn [coeff scale Mplus]. Csolve.
  - intros i j _ _.
    unfold op.iadag_minus_ia_sparse, op.prefactor_or_one.
    cbn [coeff scale Mminus]. Csolve.
  - intros i j _ _.
    unfold op.a_plus_adag_sparse, op.prefactor_or_one.
    cbn [coeff scale Mplus Zero]. Csolve.
  - intros i j _ _.
    unfold op.iadag_minus_ia_sparse, op.prefactor_or_one.
    cbn [coeff scale Mminus Zero]. Csolve.
Qed.

(** ** operators.py: the Hubbard operators *)

Lemma validate_index_Ok (idx : Z) (len r : nat) :
  op.validate_index idx len = Ok r ->
  (- Z.of_nat len <= idx < Z.of_nat len)%Z
  /\ Z.of_nat r = (idx mod Z.of_nat len)%Z
  /\ (r < len)%nat.
Proof.
  unfold op.validate_index.
  destruct (Z.ltb_spec idx (- Z.of_nat len)) as [L | G]; cbn [orb];
    [discriminate |].
  destruct (Z.leb_spec (Z.of_nat len) idx) as [L' | G']; [discriminate |].
  intros E; inversion E; subst r; clear E.
  destruct (Z.ltb_spec idx 0) as [N | P].
  - assert (Hmod : (idx mod Z.of_nat len = idx + Z.of_nat len)%Z).
    { symmetry. apply Z.mod_unique with (q := (-1)%Z); lia. }
    rewrite Hmod. split; [lia |]. split; lia.
  - rewrite Z.mod_small by lia. split; [lia |]. split; lia.
Qed.

Lemma validate_index_in_range (idx : Z) (len : nat) :
  (- Z.of_nat len <= idx < Z.of_nat len)%Z ->
  exists r, op.validate_index idx len = Ok r.
Proof.
  intros [L U]. unfold op.validate_index.
  destruct (Z.ltb_spec idx (- Z.of_nat len)) as [L' | G]; [lia |].
  destruct (Z.leb_spec (Z.of_nat len) idx) as [L' | G']; [lia |].
  cbn [orb]. eexists; reflexivity.
Qed.

Lemma validate_index_out_of_range (idx : Z) (len : nat) :
  ~ (- Z.of_nat len <= idx < Z.of_nat len)%Z ->
  op.validate_index idx len = Raise IndexError.
Proof.
  intros N. unfold op.validate_index.
  destruct (Z.ltb_spec idx (- Z.of_nat len)) as [L' | G]; [reflexivity |].
  destruct (Z.leb_spec (Z.of_nat len) idx) as [L' | G']; [reflexivity |].
  lia.
Qed.

Lemma hubbard_sparse_Ok (j1 j2 : Z) (dimension : nat)
  (H : Matrix dimension dimension) :
  op.hubbard_sparse j1 j2 dimension = Ok H ->
  exists row col,
    op.validate_index j1 dimension = Ok row
    /\ op.validate_index j2 dimension = Ok col
    /\ forall i j,
         H i j = if ((i =? row) && (j =? col))%nat then C1 else C0.
Proof.
  unfold op.hubbard_sparse; intros E.
  destruct (op.validate_index j1 dimension) as [row | e] eqn:E1;
    cbn [bind] in E; [| discriminate].
  destruct (op.validate_index j2 dimension) as [col | e] eqn:E2;
    cbn [bind] in E; [| discriminate].
  inversion E; subst H. exists row, col. repeat split; reflexivity.
Qed.

(** X4. [hubbard_sparse(j1, j2, dimension)] returns exactly when both
    indices lie in [-dimension, dimension) and raises [IndexError]
    otherwise; the matrix it returns has the entry one in row
    [j1 mod dimension] and column [j2 mod dimension], so that a negative
    index counts from the end, and zero everywhere else. *)
Theorem hubbard_sparse_indices (j1 j2 : Z) (dimension : nat) :
  ((- Z.of_nat dimension <= j1 < Z.of_nat dimension)%Z
   /\ (- Z.of_nat dimension <= j2 < Z.of_nat dimension)%Z ->
   exists H,
     op.hubbard_sparse j1 j2 dimension = Ok H
     /\ forall i j,
          H i j
          = if ((Z.of_nat i =? j1 mod Z.of_nat dimension)
                && (Z.of_nat j =? j2 mod Z.of_nat dimension))%Z
            then C1 else C0)
  /\ (~ ((- Z.of_nat dimension <= j1 < Z.of_nat dimension)%Z
         /\ (- Z.of_nat dimension <= j2 < Z.of_nat dimension)%Z) ->
      op.hubbard_sparse j1 j2 dimension = Raise IndexError).
Proof.
  split.
  - intros [R1 R2].
    destruct (@validate_index_in_range j1 dimension R1) as (row & E1).
    destruct (@validate_index_in_range j2 dimension R2) as (col & E2).
    unfold op.hubbard_sparse. rewrite E1, E2; cbn [bind].
    eexists; split; [reflexivity |].
    intros i j. cbn [coeff].
    destruct (validate_index_Ok _ _ E1) as (_ & M1 & _).
    destruct (validate_index_Ok _ _ E2) as (_ & M2 & _).
    rewrite <- M1, <- M2.
    destruct (Nat.eqb_spec i row); destruct (Nat.eqb_spec j col);
      destruct (Z.eqb_spec (Z.of_nat i) (Z.of_nat row));
      destruct (Z.eqb_spec (Z.of_nat j) (Z.of_nat col));
      cbn [andb]; try lia; reflexivity.
  - intros N. unfold op.hubbard_sparse.
    destruct (op.validate_index j1 dimension) as [row | e] eqn:E1.
    + cbn [bind].
      destruct (validate_index_Ok _ _ E1) as (R1 & _ & _).
      rewrite validate_index_out_of_range; [reflexivity |].
      intros R2; apply N; split; assumption.
    + cbn [bind]. unfold op.validate_index in E1.
      destruct ((j1 <? - Z.of_nat dimension)
                || (Z.of_nat dimension <=? j1))%Z%bool;
        inversion E1; reflexivity.
Qed.

(** The last state of three levels addressed as [-1]; an index out of
    range. *)
Lemma hubbard_sparse_indices_witness :
  (exists H,
     op.hubbard_sparse (-1) 0 3 = Ok H
     /\ forall i j,
          H i j
          = if ((Z.of_nat i =? (-1) mod Z.of_nat 3)
                && (Z.of_nat j =? 0 mod Z.of_nat 3))%Z
            then C1 else C0)
  /\ op.hubbard_sparse 3 0 3 = Raise IndexError.
Proof.
  split.
  - apply (proj1 (hubbard_sparse_indices (-1) 0 3)). simpl; lia.
  - apply (proj2 (hubbard_sparse_indices 3 0 3)). simpl; lia.
Defined.

(** X5. The Hubbard operators multiply like [|j1><j2| |j3><j4|]: the
    product is [|j1><j4|] when [j2] and [j3] address the same state and
    the zero matrix otherwise; the transpose of [|j1><j2|] is
    [|j2><j1|]. *)
Theorem hubbard_sparse_product (j1 j2 j3 j4 : Z) (dimension : nat)
  (H12 H34 H14 H21 : Matrix dimension dimension) :
  op.hubbard_sparse j1 j2 dimension = Ok H12 ->
  op.hubbard_sparse j3 j4 dimension = Ok H34 ->
  op.hubbard_sparse j1 j4 dimension = Ok H14 ->
  op.hubbard_sparse j2 j1 dimension = Ok H21 ->
  (Mmult H12 H34
   == if (j2 mod Z.of_nat dimension =? j3 mod Z.of_nat dimension)%Z
      then H14 else Zero dimension dimension)%M
  /\ (transpose H12 == H21)%M.
Proof.
  intros E12 E34 E14 E21.
  destruct (hubbard_sparse_Ok _ _ E12) as (r1 & c2 & V1 & V2 & K12).
  destruct (hubbard_sparse_Ok _ _ E34) as (r3 & c4 & V3 & V4 & K34).
  destruct (hubbard_sparse_Ok _ _ E14) as (r1' & c4' & V1' & V4' & K14).
  destruct (hubbard_sparse_Ok _ _ E21) as (r2' & c1' & V2' & V1'' & K21).
  pose proof (result_inj V1 V1') as <-.
  pose proof (result_inj V4 V4') as <-.
  pose proof (result_inj V2 V2') as <-.
  pose proof (result_inj V1 V1'') as <-.
  destruct (validate_index_Ok _ _ V2) as (_ & M2 & B2).
  destruct (validate_index_Ok _ _ V3) as (_ & M3 & _).
  split.
  - intros i j _ _. cbn [coeff Mmult].
    rewrite Csum_ext
      with (g := fun k => if (k =? c2)%nat
                          then (if ((i =? r1) && (c2 =? r3) && (j =? c4))%nat
                                then C1 else C0)
                          else C0).
    + rewrite Csum_delta.
      replace (c2 <? dimension)%nat with true
        by (symmetry; apply Nat.ltb_lt; exact B2).
      rewrite <- M2, <- M3.
      destruct (Z.eqb_spec (Z.of_nat c2) (Z.of_nat r3)) as [E | N];
        destruct (Nat.eqb_spec c2 r3) as [E' | N']; try lia.
      * rewrite K14. destruct (i =? r1)%nat, (j =? c4)%nat; reflexivity.
      * cbn [coeff Zero]. destruct (i =? r1)%nat; reflexivity.
    + intros k _. rewrite K12, K34.
      destruct (Nat.eqb_spec k c2) as [-> | N].
      * destruct (i =? r1)%nat, (c2 =? r3)%nat, (j =? c4)%nat; cbn [andb];
          Csolve.
      * rewrite Bool.andb_false_r. apply Cmult_0_l.
  - intros i j _ _. cbn [coeff transpose]. rewrite K12, K21.
    rewrite Bool.andb_comm. reflexivity.
Qed.

(** [|0><1| |1><2| = |0><2|] and [|0><1| |2><2| = 0] on three levels. *)
Lemma hubbard_sparse_product_witness :
  exists H12 H34 H14 H21 : Matrix 3 3,
    op.hubbard_sparse 0 1 3 = Ok H12
    /\ (Mmult H12 H34
        == if (1 mod Z.of_nat 3 =? 1 mod Z.of_nat 3)%Z
           then H14 else Zero 3 3)%M
    /\ (transpose H12 == H21)%M.
Proof.
  pose (hubbard := fun r c : nat =>
          mk_matrix (m := 3) (n := 3)
            (fun i j => if ((i =? r) && (j =? c))%nat then C1 else C0)).
  assert (E12 : op.hubbard_sparse 0 1 3 = Ok (hubbard 0 1)%nat)
    by reflexivity.
  assert (E34 : op.hubbard_sparse 1 2 3 = Ok (hubbard 1 2)%nat)
    by reflexivity.
  assert (E14 : op.hubbard_sparse 0 2 3 = Ok (hubbard 0 2)%nat)
    by reflexivity.
  assert (E21 : op.hubbard_sparse 1 0 3 = Ok (hubbard 1 0)%nat)
    by reflexivity.
  exists (hubbard 0 1)%nat, (hubbard 1 2)%nat, (hubbard 0 2)%nat,
    (hubbard 1 0)%nat.
  split; [exact E12 |].
  exact (@hubbard_sparse_product 0 1 1 2 3 _ _ _ _ E12 E34 E14 E21).
Defined.

(** ** operators.py: the Pauli matrices *)

(** Proves an equation between two-by-two matrices entry by entry. *)
Ltac two_by_two :=
  let i := fresh "i" in
  let j := fresh "j" in
  let Hi := fresh "Hi" in
  let Hj := fresh "Hj" in
  intros i j Hi Hj;
  destruct i as [| [| i]]; [| | lia];
  (destruct j as [| [| j]]; [| | lia]);
  cbn; Csolve.

(** X6. The matrices of [sigma_x], [sigma_y], [sigma_z], [sigma_plus] and
    [sigma_minus] obey the Pauli algebra: each of the first three squares
    to the identity and is Hermitian, [sigma_x sigma_y = i sigma_z] and
    its cyclic permutations hold, [sigma_plus + sigma_minus = sigma_x],
    [i (sigma_minus - sigma_plus) = sigma_y], and the commutator of
    [sigma_plus] and [sigma_minus] is [sigma_z]. *)
Theorem pauli_algebra :
  ((Mmult op.sigma_x op.sigma_x == eye 2)%M
   /\ (Mmult op.sigma_y op.sigma_y == eye 2)%M
   /\ (Mmult op.sigma_z op.sigma_z == eye 2)%M)
  /\ ((Mmult op.sigma_x op.sigma_y == Ci *s op.sigma_z)%M
      /\ (Mmult op.sigma_y op.sigma_z == Ci *s op.sigma_x)%M
      /\ (Mmult op.sigma_z op.sigma_x == Ci *s op.sigma_y)%M)
  /\ ((op.sigma_plus + op.sigma_minus == op.sigma_x)%M
      /\ (Ci *s (op.sigma_minus - op.sigma_plus) == op.sigma_y)%M
      /\ (commutator op.sigma_plus op.sigma_minus == op.sigma_z)%M)
  /\ (hermitian op.sigma_x /\ hermitian op.sigma_y /\ hermitian op.sigma_z
      /\ (adjoint op.sigma_plus == op.sigma_minus)%M).
Proof.
  unfold hermitian, commutator.
  repeat split; two_by_two.
Qed.

(** ** The potential *)

Lemma cos_shift_2PI (x : R) : cos (x + 2 * PI) = cos x.
Proof. rewrite cos_plus, cos_2PI, sin_2PI; ring. Qed.

Lemma sin_shift_2PI (x : R) : sin (x + 2 * PI) = sin x.
Proof. rewrite sin_plus, cos_2PI, sin_2PI; ring. Qed.

(** X7. The potential is periodic in [theta] with period [2 pi] and in
    the flux with period 2, it is unchanged when [theta] is shifted by
    [pi] and the flux by one flux quantum, and it is even in [zeta]; it
    is the reduced potential plus [EL' zeta^2]; it is returned exactly
    when [dL^2] is not one. *)
Theorem potential_symmetries (self : Cos2PhiQubit) (phi zeta theta : R) :
  potential self phi zeta (theta + 2 * PI) = potential self phi zeta theta
  /\ potential (with_flux self (flux self + 2)) phi zeta theta
     = potential self phi zeta theta
  /\ potential (with_flux self (flux self + 1)) phi zeta (theta + PI)
     = potential self phi zeta theta
  /\ potential self phi (- zeta) theta = potential self phi zeta theta
  /\ (returns (potential self phi zeta theta) <-> dL self ^ 2 <> 1)
  /\ (forall u, potential self phi zeta theta = Ok u ->
        exists r el,
          reduced_potential self phi theta = Ok r
          /\ _disordered_el self = Ok el
          /\ u = r + el * zeta ^ 2).
Proof.
  unfold reduced_potential, potential.
  change (_disordered_el (with_flux self (flux self + 2)))
    with (_disordered_el self).
  change (_disordered_el (with_flux self (flux self + 1)))
    with (_disordered_el self).
  cbn [with_flux EJ dEJ flux].
  destruct (_disordered_el self) as [el | e] eqn:Eel; cbn [bind].
  - repeat split.
    + f_equal. rewrite cos_shift_2PI, sin_shift_2PI. reflexivity.
    + f_equal.
      replace (phi + PI * (flux self + 2)) with (phi + PI * flux self + 2 * PI)
        by ring.
      rewrite cos_shift_2PI, sin_shift_2PI. reflexivity.
    + f_equal.
      replace (phi + PI * (flux self + 1)) with (phi + PI * flux self + PI)
        by ring.
      rewrite !neg_cos, !neg_sin. ring.
    + f_equal. ring.
    + intros _. unfold _disordered_el in Eel.
      apply py_div_Ok in Eel. destruct Eel as [N _]. lra.
    + intros _. eexists; reflexivity.
    + intros u E. inversion E; subst u. do 2 eexists.
      split; [reflexivity |]. split; [reflexivity |]. ring.
  - repeat split; try reflexivity.
    + intros (u & E); discriminate.
    + intros N. unfold _disordered_el in Eel.
      rewrite py_div_nonzero in Eel by lra. discriminate.
    + intros u E; discriminate.
Qed.

(** ** Products of Kronecker products *)

Lemma Csum_split (f : nat -> C) (a b : nat) :
  Csum f (a + b) = (Csum f a + Csum (fun k => f (a + k)%nat) b)%C.
Proof.
  induction b as [| b IH].
  - rewrite Nat.add_0_r. simpl. Csolve.
  - rewrite Nat.add_succ_r. simpl. rewrite IH. Csolve.
Qed.

(** A sum over the indices of a Kronecker product is a double sum. *)
Lemma Csum_kron (f : nat -> nat -> C) (n q : nat) :
  Csum (fun k => f (k / q)%nat (k mod q)%nat) (n * q)
  = Csum (fun a => Csum (fun b => f a b) q) n.
Proof.
  induction n as [| n IH].
  - reflexivity.
  - replace (S n * q)%nat with (n * q + q)%nat by lia.
    rewrite Csum_split, IH. simpl. f_equal.
    apply Csum_ext; intros k Hk.
    assert (Hd : ((n * q + k) / q = n)%nat).
    { symmetry. apply Nat.div_unique with (r := k); [exact Hk | lia]. }
    assert (Hm : ((n * q + k) mod q = k)%nat).
    { symmetry. apply Nat.mod_unique with (q := n); [exact Hk | lia]. }
    rewrite Hd, Hm. reflexivity.
Qed.

Lemma Csum_scale_r (c : C) (f : nat -> C) (n : nat) :
  Csum (fun k => (f k * c)%C) n = (Csum f n * c)%C.
Proof.
  induction n as [| n IH]; simpl.
  - Csolve.
  - rewrite IH. Csolve.
Qed.

(** The mixed-product rule [(A x B) (A' x B') = (A A') x (B B')]. *)
Lemma kron_mult {m n o p q r} (A : Matrix m n) (A' : Matrix n o)
  (B : Matrix p q) (B' : Matrix q r) (i j : nat) :
  Mmult (kron A B) (kron A' B') i j
  = (Mmult A A' (i / p)%nat (j / r)%nat
     * Mmult B B' (i mod p)%nat (j mod r)%nat)%C.
Proof.
  cbn [coeff Mmult kron].
  rewrite (Csum_kron
             (fun a b =>
                (A (i / p)%nat a * B (i mod p)%nat b
                 * (A' a (j / r)%nat * B' b (j mod r)%nat))%C) n q).
  rewrite <- Csum_scale_r. apply Csum_ext; intros a _.
  rewrite <- Csum_scale. apply Csum_ext; intros b _.
  Csolve.
Qed.

Lemma kron3_mult {a b c} (A A' : Matrix a a) (B B' : Matrix b b)
  (D D' : Matrix c c) (i j : nat) :
  Mmult (_kron3 A B D) (_kron3 A' B' D') i j
  = _kron3 (Mmult A A') (Mmult B B') (Mmult D D') i j.
Proof.
  unfold _kron3. rewrite kron_mult, kron_mult. reflexivity.
Qed.

Lemma Mmult_eye_r {m n} (A : Matrix m n) (i j : nat) :
  (j < n)%nat -> Mmult A (eye n) i j = A i j.
Proof.
  intros Hj. cbn [coeff Mmult eye].
  rewrite Csum_ext with (g := fun k => if (k =? j)%nat then A i k else C0).
  - rewrite Csum_delta.
    replace (j <? n)%nat with true by (symmetry; apply Nat.ltb_lt; exact Hj).
    reflexivity.
  - intros k _. destruct (k =? j)%nat; Csolve.
Qed.

Lemma Mmult_eye_l {m n} (A : Matrix m n) (i j : nat) :
  (i < m)%nat -> Mmult (eye m) A i j = A i j.
Proof.
  intros Hi. cbn [coeff Mmult eye].
  rewrite Csum_ext with (g := fun k => if (k =? i)%nat then A k j else C0).
  - rewrite Csum_delta.
    replace (i <? m)%nat with true by (symmetry; apply Nat.ltb_lt; exact Hi).
    reflexivity.
  - intros k _. rewrite (Nat.eqb_sym i k). destruct (k =? i)%nat; Csolve.
Qed.

(** The three indices of an index of the full space. *)
Lemma kron3_index (i a b c : nat) :
  (i < a * b * c)%nat ->
  (i / c / b < a)%nat /\ ((i / c) mod b < b)%nat /\ (i mod c < c)%nat.
Proof.
  intros H. destruct (kron_index _ _ H) as [H1 H2].
  destruct (kron_index _ _ H1) as [H3 H4]. auto.
Qed.

(** ** The commutators of the phase and charge operators *)

Lemma inv_sqrt2 : Cinv (RtoC (sqrt 2)) = RtoC (/ sqrt 2).
Proof.
  pose proof sqrt2_pos.
  unfold Cinv, Cnorm2, RtoC. apply C_eq; simpl; field; lra.
Qed.

Lemma inv_sqrt2_square : 2 * (/ sqrt 2 * / sqrt 2) = 1.
Proof.
  pose proof sqrt2_pos as P.
  assert (S2 : sqrt 2 * sqrt 2 = 2) by (apply sqrt_sqrt; lra).
  rewrite <- S2 at 1. field; lra.
Qed.

(** The commutator of [l (a^dagger + a) / sqrt 2] and
    [i (a^dagger - a) / (l sqrt 2)]. *)
Lemma oscillator_commutator (n : nat) (osc : C) (P N : Matrix n n)
  (i j : nat) :
  div_scalar (osc *s (op.creation_sparse n + op.annihilation_sparse n))%M
    (RtoC (sqrt 2)) = Ok P ->
  div_scalar (Ci *s (op.creation_sparse n - op.annihilation_sparse n))%M
    (osc * RtoC (sqrt 2))%C = Ok N ->
  (i < n)%nat ->
  commutator P N i j = (Ci * truncated_identity n i j)%C.
Proof.
  intros HP HN Hi.
  apply div_scalar_Ok in HP; destruct HP as [_ ->].
  apply div_scalar_Ok in HN; destruct HN as [Nz ->].
  pose proof (Cmult_inv_r Nz) as Hw.
  set (w := Cinv (osc * RtoC (sqrt 2))%C) in *.
  rewrite inv_sqrt2.
  assert (Hk : (osc * w)%C = RtoC (/ sqrt 2)).
  { transitivity ((osc * RtoC (sqrt 2) * w) * RtoC (/ sqrt 2))%C.
    - pose proof sqrt2_pos. destruct osc as [o1 o2], w as [w1 w2].
      apply C_eq; cbn [fst snd Cmult RtoC]; field; lra.
    - rewrite Hw. Csolve. }
  rewrite <- (ladder_commutator_entry j Hi).
  unfold commutator. cbn [coeff Mminus].
  repeat (rewrite ?Mmult_scale_l, ?Mmult_scale_r, ?Mmult_plus_l,
            ?Mmult_minus_l, ?Mmult_minus_r, ?Mmult_plus_r).
  generalize (Mmult (op.annihilation_sparse n) (op.annihilation_sparse n) i j)
             (Mmult (op.annihilation_sparse n) (op.creation_sparse n) i j)
             (Mmult (op.creation_sparse n) (op.annihilation_sparse n) i j)
             (Mmult (op.creation_sparse n) (op.creation_sparse n) i j).
  intros aa ab ba bb.
  transitivity ((osc * w) * (RtoC 2 * RtoC (/ sqrt 2)) * (Ci * (ab - ba)))%C.
  - Csolve.
  - rewrite Hk, !RtoC_mult.
    replace (/ sqrt 2 * (2 * / sqrt 2)) with 1
      by (rewrite <- inv_sqrt2_square; ring).
    Csolve.
Qed.

(** The commutators of the operators of the two harmonic subspaces, entry
    by entry. *)
Lemma subspace_commutator_entries (self : Cos2PhiQubit)
  (P N : Matrix (nphi self) (nphi self))
  (Z NZ : Matrix (nzeta self) (nzeta self)) :
  _phi_operator self = Ok P ->
  _n_phi_operator self = Ok N ->
  _zeta_operator self = Ok Z ->
  _n_zeta_operator self = Ok NZ ->
  (forall i j, (i < nphi self)%nat ->
     (Mmult P N i j - Mmult N P i j)%C
     = (Ci * truncated_identity (nphi self) i j)%C)
  /\ (forall i j, (i < nzeta self)%nat ->
        (Mmult Z NZ i j - Mmult NZ Z i j)%C
        = (Ci * truncated_identity (nzeta self) i j)%C).
Proof.
  unfold _phi_operator, _n_phi_operator, _zeta_operator, _n_zeta_operator.
  intros HP HN HZ HNZ.
  bind_inv HP. bind_inv HN. bind_inv HZ. bind_inv HNZ. same_results.
  split; intros i j Hi.
  - exact (@oscillator_commutator _ _ _ _ i j HP HN Hi).
  - exact (@oscillator_commutator _ _ _ _ i j HZ HNZ Hi).
Qed.

(** X8. Whenever the four operators are returned, the phase operator of a
    harmonic subspace and its conjugate charge operator have the
    commutator [i] times the truncated identity: the canonical relation
    holds on all levels but the last, whatever the oscillator length. *)
Theorem subspace_canonical_commutators (self : Cos2PhiQubit)
  (P N : Matrix (nphi self) (nphi self))
  (Z NZ : Matrix (nzeta self) (nzeta self)) :
  _phi_operator self = Ok P ->
  _n_phi_operator self = Ok N ->
  _zeta_operator self = Ok Z ->
  _n_zeta_operator self = Ok NZ ->
  (commutator P N == Ci *s truncated_identity (nphi self))%M
  /\ (commutator Z NZ == Ci *s truncated_identity (nzeta self))%M.
Proof.
  unfold _phi_operator, _n_phi_operator, _zeta_operator, _n_zeta_operator.
  intros HP HN HZ HNZ.
  bind_inv HP. bind_inv HN. bind_inv HZ. bind_inv HNZ. same_results.
  split; intros i j Hi _.
  - rewrite (@oscillator_commutator _ _ _ _ i j HP HN Hi). reflexivity.
  - rewrite (@oscillator_commutator _ _ _ _ i j HZ HNZ Hi). reflexivity.
Qed.

(** The commutators on the default qubit. *)
Lemma subspace_canonical_commutators_witness :
  exists (P N : Matrix (nphi default_qubit) (nphi default_qubit))
         (Z NZ : Matrix (nzeta default_qubit) (nzeta default_qubit)),
    _phi_operator default_qubit = Ok P
    /\ (commutator P N == Ci *s truncated_identity (nphi default_qubit))%M
    /\ (commutator Z NZ == Ci *s truncated_identity (nzeta default_qubit))%M.
Proof.
  destruct (valid_phi_operator_sub default_qubit_valid) as (P & EP).
  destruct (valid_n_phi_operator_sub default_qubit_valid) as (N & EN).
  destruct (valid_zeta_operator_sub default_qubit_valid) as (Z & EZ).
  destruct (valid_n_zeta_operator_sub default_qubit_valid) as (NZ & ENZ).
  exists P, N, Z, NZ. split; [exact EP |].
  exact (subspace_canonical_commutators default_qubit EP EN EZ ENZ).
Defined.

(** The indices of the three subspaces of two indices of the full space
    are in range. *)
Ltac subspace_bounds Hi Hj :=
  let B1 := fresh "B" in
  let B2 := fresh "B" in
  let B3 := fresh "B" in
  let B4 := fresh "B" in
  let B5 := fresh "B" in
  let B6 := fresh "B" in
  destruct (@kron3_index _ _ _ _ Hi) as (B1 & B2 & B3);
  destruct (@kron3_index _ _ _ _ Hj) as (B4 & B5 & B6).

(** Reduces a commutator of two Kronecker products of three factors to
    products in the subspaces, where products with an identity
    disappear. *)
Ltac commutator_of_products Hi Hj :=
  subspace_bounds Hi Hj;
  unfold commutator; cbn [coeff Mminus];
  rewrite !kron3_mult;
  unfold _kron3, _identity_phi, _identity_zeta, _identity_theta;
  cbn [coeff kron scale Zero];
  rewrite ?Mmult_eye_l, ?Mmult_eye_r by assumption.

(** X9. In the full space the phase operator of a subspace and its
    conjugate charge operator have the commutator [i] times the truncated
    identity of that subspace, extended by identities; operators of
    different subspaces, among them the charge operator [n_theta],
    commute. *)
Theorem full_space_commutators (self : Cos2PhiQubit)
  (Phi Nphi Zeta Nzeta : Matrix (ndim self) (ndim self)) :
  phi_operator self = Ok Phi ->
  n_phi_operator self = Ok Nphi ->
  zeta_operator self = Ok Zeta ->
  n_zeta_operator self = Ok Nzeta ->
  ((commutator Phi Nphi
    == Ci *s _kron3 (truncated_identity (nphi self)) (_identity_zeta self)
               (_identity_theta self))%M
   /\ (commutator Zeta Nzeta
       == Ci *s _kron3 (_identity_phi self) (truncated_identity (nzeta self))
                  (_identity_theta self))%M)
  /\ ((commutator Phi Zeta == Zero (ndim self) (ndim self))%M
      /\ (commutator Phi Nzeta == Zero (ndim self) (ndim self))%M
      /\ (commutator Nphi Zeta == Zero (ndim self) (ndim self))%M
      /\ (commutator Nphi Nzeta == Zero (ndim self) (ndim self))%M)
  /\ ((commutator Phi (n_theta_operator self)
       == Zero (ndim self) (ndim self))%M
      /\ (commutator Nphi (n_theta_operator self)
          == Zero (ndim self) (ndim self))%M
      /\ (commutator Zeta (n_theta_operator self)
          == Zero (ndim self) (ndim self))%M
      /\ (commutator Nzeta (n_theta_operator self)
          == Zero (ndim self) (ndim self))%M).
Proof.
  unfold phi_operator, n_phi_operator, zeta_operator, n_zeta_operator,
    n_theta_operator, process_op.
  intros HP HN HZ HNZ.
  bind_inv HP. bind_inv HN. bind_inv HZ. bind_inv HNZ.
  inversion HP; inversion HN; inversion HZ; inversion HNZ; subst.
  clear HP HN HZ HNZ.
  match goal with
  | EP : _phi_operator self = Ok ?p, EN : _n_phi_operator self = Ok ?n,
    EZ : _zeta_operator self = Ok ?z, ENZ : _n_zeta_operator self = Ok ?nz
    |- _ =>
      destruct (subspace_commutator_entries self EP EN EZ ENZ) as [Cp Cz]
  end.
  unfold mat_equiv, ndim.
  split; [split | split; [repeat split | repeat split]];
    intros i j Hi Hj; commutator_of_products Hi Hj.
  - match goal with
    | |- (?a * ?y * ?z - ?b * ?y * ?z = _)%C =>
        transitivity ((a - b) * y * z)%C; [Csolve |]
    end.
    rewrite Cp by assumption. Csolve.
  - match goal with
    | |- (?x * ?a * ?z - ?x * ?b * ?z = _)%C =>
        transitivity (x * (a - b) * z)%C; [Csolve |]
    end.
    rewrite Cz by assumption. Csolve.
  - Csolve.
  - Csolve.
  - Csolve.
  - Csolve.
  - Csolve.
  - Csolve.
  - Csolve.
  - Csolve.
Qed.

(** The commutators on the default qubit. *)
Lemma full_space_commutators_witness :
  exists Phi Nphi : Matrix (ndim default_qubit) (ndim default_qubit),
    phi_operator default_qubit = Ok Phi
    /\ n_phi_operator default_qubit = Ok Nphi
    /\ (commutator Phi Nphi
        == Ci *s _kron3 (truncated_identity (nphi default_qubit))
                   (_identity_zeta default_qubit)
                   (_identity_theta default_qubit))%M
    /\ (commutator Phi (n_theta_operator default_qubit)
        == Zero (ndim default_qubit) (ndim default_qubit))%M.
Proof.
  destruct (valid_phi_operator default_qubit_valid) as (P & EP).
  destruct (valid_n_phi_operator default_qubit_valid) as (N & EN).
  destruct (valid_zeta_operator default_qubit_valid) as (Z & EZ).
  destruct (valid_n_zeta_operator default_qubit_valid) as (NZ & ENZ).
  exists P, N. split; [exact EP |]. split; [exact EN |].
  destruct (full_space_commutators default_qubit EP EN EZ ENZ)
    as ((H1 & _) & _ & (H2 & _)).
  split; assumption.
Defined.

(** ** The cosine and the sine of the phase *)

(** X10. The operators of [_cos_phi_operator] and [_sin_phi_operator]
    recombine to the exponential they are built from:
    [cos + i sin] is the operator of [_exp_i_phi_operator] and
    [cos - i sin] its conjugate transpose, for every matrix exponential;
    both operators are Hermitian, and the three methods return together
    with [_phi_operator]. *)
Theorem cos_sin_phi_euler {ext : Collaborators} (self : Cos2PhiQubit)
  (E CP SP : Matrix (nphi self) (nphi self)) :
  _exp_i_phi_operator self = Ok E ->
  _cos_phi_operator self = Ok CP ->
  _sin_phi_operator self = Ok SP ->
  (CP + Ci *s SP == E)%M
  /\ (CP - Ci *s SP == adjoint E)%M
  /\ hermitian CP /\ hermitian SP
  /\ returns (_phi_operator self).
Proof.
  unfold _cos_phi_operator, _sin_phi_operator. intros HE HC HS.
  rewrite HE in HC, HS. cbn [bind] in HC, HS.
  inversion HC; inversion HS; subst; clear HC HS.
  repeat split.
  - intros i j _ _. cbn [coeff Mplus scale adjoint transpose conj]. Csolve.
  - intros i j _ _.
    cbn [coeff Mplus Mminus scale adjoint transpose conj]. Csolve.
  - apply hermitian_plus_adjoint.
  - apply hermitian_plus_adjoint.
  - unfold _exp_i_phi_operator in HE.
    destruct (_phi_operator self) as [p | e]; [eexists; reflexivity |].
    discriminate HE.
Qed.

Lemma cos_sin_phi_euler_witness :
  exists E CP SP : Matrix (nphi default_qubit) (nphi default_qubit),
    _exp_i_phi_operator (ext := example_collaborators) default_qubit = Ok E
    /\ (CP + Ci *s SP == E)%M
    /\ (CP - Ci *s SP == adjoint E)%M.
Proof.
  destruct (valid_phi_operator_sub default_qubit_valid) as (P & EP).
  set (E := @expm example_collaborators _ (Ci *s P)%M).
  assert (HE : _exp_i_phi_operator (ext := example_collaborators)
                 default_qubit = Ok E).
  { unfold _exp_i_phi_operator. rewrite EP. reflexivity. }
  destruct (valid_cos_phi_operator (ext := example_collaborators)
              default_qubit_valid) as (CP & EC).
  destruct (valid_sin_phi_operator (ext := example_collaborators)
              default_qubit_valid) as (SP & ES).
  exists E, CP, SP. split; [exact HE |].
  destruct (cos_sin_phi_euler default_qubit HE EC ES) as (H1 & H2 & _).
  split; assumption.
Defined.

(** ** Hermitian operators *)

(** Proves that a sum, difference or real multiple of Kronecker products
    of the cosine and sine operators is Hermitian. *)
Ltac hermitian_terms :=
  lazymatch goal with
  | |- hermitian (Mplus _ _) => apply hermitian_plus; hermitian_terms
  | |- hermitian (Mminus _ _) => apply hermitian_minus; hermitian_terms
  | |- hermitian (scale (RtoC _) _) =>
      apply hermitian_scale; [apply is_real_RtoC | hermitian_terms]
  | |- hermitian (_kron3 _ _ _) => apply hermitian_kron3; hermitian_terms
  | |- _ =>
      first
        [ apply hermitian_eye
        | apply cos_theta_hermitian
        | apply sin_theta_hermitian
        | eapply cos_phi_hermitian; eassumption
        | eapply sin_phi_hermitian; eassumption ]
  end.

(** X11. On the parameter ranges of the data model the four phase and
    charge operators of the harmonic subspaces and the four branch
    operators are returned and Hermitian, and [n_theta_operator] is
    Hermitian; the operators of [d_hamiltonian_d_flux] and
    [d_hamiltonian_d_EJ] are Hermitian whenever they are returned. *)
Theorem operators_hermitian {ext : Collaborators} (self : Cos2PhiQubit) :
  (valid_parameters self ->
   (exists A, phi_operator self = Ok A /\ hermitian A)
   /\ (exists A, zeta_operator self = Ok A /\ hermitian A)
   /\ (exists A, n_phi_operator self = Ok A /\ hermitian A)
   /\ (exists A, n_zeta_operator self = Ok A /\ hermitian A)
   /\ (exists A, phi_1_operator self = Ok A /\ hermitian A)
   /\ (exists A, phi_2_operator self = Ok A /\ hermitian A)
   /\ (exists A, n_1_operator self = Ok A /\ hermitian A)
   /\ (exists A, n_2_operator self = Ok A /\ hermitian A))
  /\ hermitian (n_theta_operator self)
  /\ (forall D, d_hamiltonian_d_flux self = Ok D -> hermitian D)
  /\ (forall D, d_hamiltonian_d_EJ self = Ok D -> hermitian D).
Proof.
  split; [| split; [apply n_theta_operator_hermitian | split]].
  - intros V.
    destruct (valid_phi_plasma V) as (wp & Ewp).
    destruct (valid_zeta_plasma V) as (wz & Ewz).
    destruct (valid_phi_operator_sub V) as (p & Ep).
    destruct (valid_zeta_operator_sub V) as (z & Ez).
    destruct (valid_n_phi_operator_sub V) as (np & Enp).
    destruct (valid_n_zeta_operator_sub V) as (nz & Enz).
    pose proof (phi_operator_sub_hermitian self Ewp Ep) as Hp.
    pose proof (zeta_operator_sub_hermitian self Ewz Ez) as Hz.
    pose proof (n_phi_operator_sub_hermitian self Ewp Enp) as Hnp.
    pose proof (n_zeta_operator_sub_hermitian self Ewz Enz) as Hnz.
    pose proof (n_theta_operator_hermitian self) as Hnt.
    assert (HP : hermitian
                   (_kron3 p (_identity_zeta self) (_identity_theta self)))
      by (apply hermitian_kron3; [exact Hp | apply hermitian_eye ..]).
    assert (HZ : hermitian
                   (_kron3 (_identity_phi self) z (_identity_theta self)))
      by (apply hermitian_kron3;
          [apply hermitian_eye | exact Hz | apply hermitian_eye]).
    assert (HNP : hermitian
                    (_kron3 np (_identity_zeta self) (_identity_theta self)))
      by (apply hermitian_kron3; [exact Hnp | apply hermitian_eye ..]).
    assert (HNZ : hermitian
                    (_kron3 (_identity_phi self) nz (_identity_theta self)))
      by (apply hermitian_kron3;
          [apply hermitian_eye | exact Hnz | apply hermitian_eye]).
    unfold phi_1_operator, phi_2_operator, n_1_operator, n_2_operator,
      phi_operator, zeta_operator, n_phi_operator, n_zeta_operator,
      process_op.
    rewrite Ep, Ez, Enp, Enz. cbn [bind].
    repeat split; eexists; (split; [reflexivity |]);
      try assumption.
    + apply hermitian_minus; assumption.
    + apply hermitian_minus; [| assumption].
      apply hermitian_equiv with
        (A := (RtoC (-1)
               *s _kron3 (_identity_phi self) z (_identity_theta self))%M).
      * intros i j _ _. cbn [coeff scale Mopp]. Csolve.
      * apply hermitian_scale; [apply is_real_RtoC | assumption].
    + apply hermitian_plus;
        (apply hermitian_scale; [apply is_real_RtoC |]);
        [assumption | apply hermitian_minus; assumption].
    + apply hermitian_minus;
        (apply hermitian_scale; [apply is_real_RtoC |]);
        [assumption | apply hermitian_minus; assumption].
  - intros D E. unfold d_hamiltonian_d_flux, process_op in E.
    repeat bind_inv E. inversion E; subst; clear E.
    hermitian_terms.
  - intros D E. unfold d_hamiltonian_d_EJ, process_op in E.
    repeat bind_inv E. inversion E; subst; clear E.
    hermitian_terms.
Qed.

Lemma operators_hermitian_witness :
  (exists A, phi_1_operator disordered_qubit = Ok A /\ hermitian A)
  /\ (exists A, n_2_operator disordered_qubit = Ok A /\ hermitian A).
Proof.
  destruct (proj1 (operators_hermitian (ext := example_collaborators)
                     disordered_qubit) disordered_qubit_valid)
    as (_ & _ & _ & _ & H1 & _ & _ & H2).
  split; assumption.
Defined.

(** ** Disorder out of range *)

(** X12. When the product of the disordered inductive energy
    [EL / (1 - dL^2)] and the disordered junction charging energy
    [ECJ / (1 - dCJ^2)] is negative, as for positive energies and a
    disorder [dL] of magnitude above one, [phi_plasma] and with it
    [hamiltonian] raise [ValueError], the domain error of
    [math.sqrt]. *)
Theorem hamiltonian_disorder_out_of_range {ext : Collaborators}
  (self : Cos2PhiQubit) :
  dL self ^ 2 <> 1 -> dCJ self ^ 2 <> 1 ->
  (EL self / (1 - dL self ^ 2)) * (ECJ self / (1 - dCJ self ^ 2)) < 0 ->
  phi_plasma self = Raise ValueError
  /\ hamiltonian self = Raise ValueError.
Proof.
  intros NL NC Neg.
  assert (Hp : phi_plasma self = Raise ValueError).
  { unfold phi_plasma, _disordered_el, _disordered_ecj.
    rewrite !py_div_nonzero by lra. cbn [bind].
    unfold math_sqrt.
    destruct (Rlt_dec _ 0) as [_ | G]; [reflexivity |].
    exfalso; apply G. lra. }
  split; [exact Hp |].
  unfold hamiltonian. rewrite Hp. reflexivity.
Qed.

(** The default parameters with the inductive disorder raised to 2. *)
Lemma hamiltonian_disorder_out_of_range_witness :
  hamiltonian (ext := example_collaborators)
    {| EJ := 15; ECJ := 2; EL := 1; EC := 4 / 100; dL := 2; dCJ := 0;
       dEJ := 0; flux := 5 / 10; ng := 0; ncut := 7; zeta_cut := 30;
       phi_cut := 7; truncated_dim := 6 |}
  = Raise ValueError.
Proof.
  apply hamiltonian_disorder_out_of_range; simpl; lra.
Defined.

(** ** The identity and the charge operator of the full space *)

Lemma kron3_index_eq (i j b c : nat) :
  (b <> 0)%nat -> (c <> 0)%nat ->
  (((i / c / b =? j / c / b) && ((i / c) mod b =? (j / c) mod b)
    && (i mod c =? j mod c))%nat
   = (i =? j)%nat).
Proof.
  intros Hb Hc.
  destruct (Nat.eqb_spec i j) as [-> | N].
  - rewrite !Nat.eqb_refl. reflexivity.
  - destruct (Nat.eqb_spec (i / c / b) (j / c / b)) as [E1 | N1];
      [| reflexivity].
    destruct (Nat.eqb_spec ((i / c) mod b) ((j / c) mod b)) as [E2 | N2];
      [| reflexivity].
    destruct (Nat.eqb_spec (i mod c) (j mod c)) as [E3 | N3];
      [| reflexivity].
    exfalso; apply N.
    pose proof (Nat.div_mod_eq i c) as Di.
    pose proof (Nat.div_mod_eq j c) as Dj.
    pose proof (Nat.div_mod_eq (i / c) b) as Di'.
    pose proof (Nat.div_mod_eq (j / c) b) as Dj'.
    assert (Hq : (i / c = j / c)%nat) by (rewrite Di', Dj', E1, E2; reflexivity).
    rewrite Di, Dj, Hq, E3. reflexivity.
Qed.

Lemma total_identity_entry (self : Cos2PhiQubit) (i j : nat) :
  (i < ndim self)%nat ->
  total_identity self i j = if (i =? j)%nat then C1 else C0.
Proof.
  unfold ndim. intros Hi.
  assert (nzeta self <> 0 /\ ntheta self <> 0)%nat as [Hb Hc] by lia.
  rewrite <- (kron3_index_eq i j Hb Hc).
  unfold total_identity, _kron3, _identity_phi, _identity_zeta,
    _identity_theta.
  cbn [coeff kron eye].
  destruct (i / ntheta self / nzeta self =? j / ntheta self / nzeta self)%nat,
    ((i / ntheta self) mod nzeta self =? (j / ntheta self) mod nzeta self)%nat,
    (i mod ntheta self =? j mod ntheta self)%nat; cbn [andb]; Csolve.
Qed.

(** X13. [total_identity] is the identity matrix of the full space, and
    [n_theta_operator] is diagonal there: the basis state of index [i] has
    the charge [(i mod (2 ncut + 1)) - ncut], the last of the three
    indices that [_kron3] combines being the charge index. *)
Theorem total_identity_is_identity (self : Cos2PhiQubit) :
  (total_identity self == eye (ndim self))%M
  /\ forall i j, (i < ndim self)%nat -> (j < ndim self)%nat ->
       n_theta_operator self i j
       = if (i =? j)%nat
         then RtoC (IZR (Z.of_nat (i mod ntheta self) - ncut self))
         else C0.
Proof.
  split.
  - intros i j Hi _. rewrite total_identity_entry by exact Hi. reflexivity.
  - unfold ndim. intros i j Hi Hj.
    assert (nzeta self <> 0 /\ ntheta self <> 0)%nat as [Hb Hc] by lia.
    rewrite <- (kron3_index_eq i j Hb Hc).
    unfold n_theta_operator, process_op, _kron3, _identity_phi,
      _identity_zeta, _n_theta_operator.
    cbn [coeff kron eye dia_matrix].
    destruct (Nat.eqb_spec (i / ntheta self / nzeta self)
                (j / ntheta self / nzeta self)) as [E1 | N1];
      destruct (Nat.eqb_spec ((i / ntheta self) mod nzeta self)
                  ((j / ntheta self) mod nzeta self)) as [E2 | N2];
      destruct (Nat.eqb_spec (i mod ntheta self) (j mod ntheta self))
        as [E3 | N3];
      destruct (Z.eqb_spec
                  (Z.of_nat (j mod ntheta self)
                   - Z.of_nat (i mod ntheta self)) 0) as [E4 | N4];
      cbn [andb]; try lia; try Csolve.
    replace (- ncut self + Z.of_nat (j mod ntheta self))%Z
      with (Z.of_nat (i mod ntheta self) - ncut self)%Z by lia.
    Csolve.
Qed.

(** On the default qubit, whose charge index runs over 15 values. *)
Lemma total_identity_is_identity_witness :
  n_theta_operator default_qubit 16%nat 16%nat
  = RtoC (IZR (Z.of_nat (16 mod ntheta default_qubit) - ncut default_qubit)).
Proof.
  apply (proj2 (total_identity_is_identity default_qubit) 16%nat 16%nat);
    unfold ndim, nphi, nzeta, ntheta; simpl; lia.
Defined.

(** ** The Hamiltonian as a function of the flux, of [EJ] and of [ng] *)

Lemma hamiltonian_Ok_cos_sin {ext : Collaborators} (self : Cos2PhiQubit)
  (H : Matrix (ndim self) (ndim self)) :
  hamiltonian self = Ok H ->
  returns (_cos_phi_operator self) /\ returns (_sin_phi_operator self).
Proof.
  unfold hamiltonian; intros E. repeat bind_inv E.
  split; eexists; eassumption.
Qed.

Lemma cos_flux_period (f : R) : cos ((f + 2) * PI) = cos (f * PI).
Proof.
  replace ((f + 2) * PI) with (f * PI + 2 * PI) by ring.
  apply cos_shift_2PI.
Qed.

Lemma sin_flux_period (f : R) : sin ((f + 2) * PI) = sin (f * PI).
Proof.
  replace ((f + 2) * PI) with (f * PI + 2 * PI) by ring.
  apply sin_shift_2PI.
Qed.

(** X14. The Hamiltonian is periodic in the flux with period 2 (the flux
    enters as [flux * pi]): raising the flux by 2 changes no entry of the
    returned matrix, and the call returns whenever the original does. *)
Theorem hamiltonian_flux_periodic {ext : Collaborators}
  (self : Cos2PhiQubit) (H : Matrix (ndim self) (ndim self)) :
  hamiltonian self = Ok H ->
  exists H' : Matrix (ndim self) (ndim self),
    hamiltonian (with_flux self (flux self + 2)) = Ok H'
    /\ forall i j, H' i j = H i j.
Proof.
  intros EH.
  destruct (hamiltonian_Ok_cos_sin self EH) as ((CP & EC) & (SP & ES)).
  destruct (hamiltonian_josephson_dependence self EH EC ES (EJ self)
              (flux self + 2)) as (H' & EH' & Hentry).
  exists H'. split; [exact EH' |].
  intros i j. rewrite Hentry. unfold josephson_terms.
  rewrite cos_flux_period, sin_flux_period.
  cbn [coeff Mplus Mminus]. Csolve.
Qed.

Lemma hamiltonian_flux_periodic_witness :
  exists H H' : Matrix (ndim default_qubit) (ndim default_qubit),
    hamiltonian (ext := example_collaborators) default_qubit = Ok H
    /\ hamiltonian (ext := example_collaborators)
         (with_flux default_qubit (flux default_qubit + 2)) = Ok H'
    /\ forall i j, H' i j = H i j.
Proof.
  destruct (valid_hamiltonian (ext := example_collaborators)
              default_qubit_valid) as (H & EH).
  destruct (hamiltonian_flux_periodic default_qubit EH) as (H' & EH' & HE).
  exists H, H'. repeat split; assumption.
Defined.

(** An affine function and its derivative. *)
Lemma affine_derivative (g : R -> R) (k0 k1 x0 x : R) :
  (forall e, g e = k0 + (e - x0) * k1) -> derivable_pt_lim g x k1.
Proof.
  intros Hg eps Heps. exists (mkposreal 1 Rlt_0_1). intros h Hh _.
  rewrite !Hg.
  replace ((k0 + (x + h - x0) * k1 - (k0 + (x - x0) * k1)) / h - k1) with 0
    by (field; exact Hh).
  rewrite Rabs_R0; exact Heps.
Qed.

(** X15. As a function of [EJ] every entry of the Hamiltonian is affine,
    and its derivative is the entry of the operator of
    [d_hamiltonian_d_EJ] plus 2 on the diagonal: the operator is the
    derivative of the Hamiltonian up to the constant offset [2 EJ] of the
    Josephson term, which it leaves out. *)
Theorem hamiltonian_EJ_derivative {ext : Collaborators}
  (self : Cos2PhiQubit) (H D : Matrix (ndim self) (ndim self))
  (i j : nat) :
  hamiltonian self = Ok H ->
  d_hamiltonian_d_EJ self = Ok D ->
  (i < ndim self)%nat -> (j < ndim self)%nat ->
  derivable_pt_lim
    (fun e => fst (entry (hamiltonian (with_EJ_flux self e (flux self))) i j))
    (EJ self) (fst (D i j) + (if (i =? j)%nat then 2 else 0))
  /\ derivable_pt_lim
       (fun e =>
          snd (entry (hamiltonian (with_EJ_flux self e (flux self))) i j))
       (EJ self) (snd (D i j)).
Proof.
  intros EH ED Hi Hj.
  pose proof (d_hamiltonian_d_EJ_misses_offset self EH ED) as Hdep.
  pose proof (total_identity_entry self j Hi) as HI.
  split.
  - apply affine_derivative with (k0 := fst (H i j)) (x0 := EJ self).
    intros e. destruct (Hdep e) as (H' & EH' & Hdiff).
    rewrite EH'; cbn [entry].
    assert (E : forall a b, H' a b = (H a b + (H' - H)%M a b)%C)
      by (intros a b; cbn [coeff Mminus]; Csolve).
    rewrite E; clear E.
    rewrite (Hdiff i j Hi Hj). cbn [coeff Mplus scale]. rewrite HI.
    destruct (i =? j)%nat; cbn [fst snd Cplus Cmult RtoC C1 C0]; ring.
  - apply affine_derivative with (k0 := snd (H i j)) (x0 := EJ self).
    intros e. destruct (Hdep e) as (H' & EH' & Hdiff).
    rewrite EH'; cbn [entry].
    assert (E : forall a b, H' a b = (H a b + (H' - H)%M a b)%C)
      by (intros a b; cbn [coeff Mminus]; Csolve).
    rewrite E; clear E.
    rewrite (Hdiff i j Hi Hj). cbn [coeff Mplus scale]. rewrite HI.
    destruct (i =? j)%nat; cbn [fst snd Cplus Cmult RtoC C1 C0]; ring.
Qed.

(** On the default qubit, at the first diagonal entry. *)
Lemma hamiltonian_EJ_derivative_witness :
  exists D : Matrix (ndim default_qubit) (ndim default_qubit),
    d_hamiltonian_d_EJ (ext := example_collaborators) default_qubit = Ok D
    /\ derivable_pt_lim
         (fun e =>
            fst (entry (hamiltonian (ext := example_collaborators)
                          (with_EJ_flux default_qubit e
                             (flux default_qubit))) 0 0))
         (EJ default_qubit) (fst (D 0%nat 0%nat) + 2).
Proof.
  destruct (valid_hamiltonian (ext := example_collaborators)
              default_qubit_valid) as (H & EH).
  destruct (valid_d_hamiltonian_d_EJ (ext := example_collaborators)
              default_qubit_valid) as (D & ED).
  exists D. split; [exact ED |].
  exact (proj1 (@hamiltonian_EJ_derivative example_collaborators
                  default_qubit H D 0%nat 0%nat EH ED
                  default_ndim_pos default_ndim_pos)).
Defined.

(** X16. On the parameter ranges of the data model [hamiltonian] and
    [d_hamiltonian_d_flux] return, and the operator is the exact derivative
    of the Hamiltonian with respect to the flux: every entry of the
    Hamiltonian, as a function of the flux, has the real and the imaginary
    part of the entry of the operator as the derivatives of its real and
    imaginary part. *)
Theorem d_hamiltonian_d_flux_is_derivative {ext : Collaborators}
  (self : Cos2PhiQubit) :
  valid_parameters self ->
  exists H D : Matrix (ndim self) (ndim self),
    hamiltonian self = Ok H
    /\ d_hamiltonian_d_flux self = Ok D
    /\ forall i j,
         derivable_pt_lim
           (fun f =>
              fst (entry (hamiltonian (with_EJ_flux self (EJ self) f)) i j))
           (flux self) (fst (D i j))
         /\ derivable_pt_lim
              (fun f =>
                 snd (entry (hamiltonian (with_EJ_flux self (EJ self) f)) i j))
              (flux self) (snd (D i j)).
Proof.
  intros V.
  destruct (valid_hamiltonian V) as (H & EH).
  destruct (valid_d_hamiltonian_d_flux V) as (D & ED).
  exists H, D. split; [exact EH |]. split; [exact ED |].
  intros i j. exact (d_hamiltonian_d_flux_exact self i j EH ED).
Qed.

Lemma d_hamiltonian_d_flux_is_derivative_witness :
  exists H D : Matrix (ndim disordered_qubit) (ndim disordered_qubit),
    hamiltonian (ext := example_collaborators) disordered_qubit = Ok H
    /\ d_hamiltonian_d_flux (ext := example_collaborators) disordered_qubit
       = Ok D
    /\ derivable_pt_lim
         (fun f =>
            fst (entry (hamiltonian (ext := example_collaborators)
                          (with_EJ_flux disordered_qubit
                             (EJ disordered_qubit) f)) 0 1))
         (flux disordered_qubit) (fst (D 0%nat 1%nat)).
Proof.
  destruct (d_hamiltonian_d_flux_is_derivative
              (ext := example_collaborators) disordered_qubit_valid)
    as (H & D & EH & ED & Hd).
  exists H, D. split; [exact EH |]. split; [exact ED |].
  exact (proj1 (Hd 0%nat 1%nat)).
Defined.

(** [forget_ng] replaces every call on [with_ng self g] that does not read
    [ng] by the call on [self]. *)
Ltac forget_ng :=
  repeat match goal with
  | |- context [?f (with_ng ?q ?g)] =>
      progress change (f (with_ng q g)) with (f q)
  end;
  cbn [with_ng EJ flux dEJ ng dL dCJ].

(** How the Hamiltonian depends on the offset charge: only through
    [charge_terms]. *)
Lemma hamiltonian_charge_dependence {ext : Collaborators}
  (self : Cos2PhiQubit) (H NZ NP : Matrix (ndim self) (ndim self))
  (ecj : R) :
  hamiltonian self = Ok H ->
  n_zeta_operator self = Ok NZ ->
  n_phi_operator self = Ok NP ->
  _disordered_ecj self = Ok ecj ->
  forall g : R,
  exists H' : Matrix (ndim self) (ndim self),
    hamiltonian (with_ng self g) = Ok H'
    /\ forall i j,
         H' i j
         = (H - charge_terms self (ng self) ecj NZ NP
            + charge_terms self g ecj NZ NP)%M i j.
Proof.
  unfold hamiltonian at 1, process_hamiltonian; intros E ENZ ENP Eecj g.
  repeat bind_inv E. inversion E; subst; clear E. same_results.
  eexists; split.
  - unfold hamiltonian, process_hamiltonian. forget_ng. run_calls.
    reflexivity.
  - unfold charge_terms. intros i j.
    cbn [coeff Mplus Mminus Mopp scale].
    apply C_eq; cbn [fst snd Cplus Cminus Copp Cmult RtoC]; ring.
Qed.

(** The square of a matrix shifted by a multiple of the identity. *)
Lemma Mpow2_shifted {n : nat} (A I B : Matrix n n) (g : R) (i j : nat) :
  (forall a b, (a < n)%nat ->
     I a b = if (a =? b)%nat then C1 else C0) ->
  (i < n)%nat -> (j < n)%nat ->
  Mpow2 (A - RtoC g *s I - B)%M i j
  = (Mpow2 (A - B)%M i j
     - RtoC (2 * g) * (A i j - B i j)
     + RtoC (g * g) * (if (i =? j)%nat then C1 else C0))%C.
Proof.
  intros HI Hi Hj.
  assert (S1 : Csum (fun k => (I i k * (A k j - B k j))%C) n
               = (A i j - B i j)%C).
  { rewrite Csum_ext
      with (g := fun k => if (k =? i)%nat then (A k j - B k j)%C else C0).
    - rewrite Csum_delta.
      replace (i <? n)%nat with true by (symmetry; apply Nat.ltb_lt; exact Hi).
      reflexivity.
    - intros k _. rewrite (HI i k Hi), (Nat.eqb_sym i k).
      destruct (k =? i)%nat; Csolve. }
  assert (S2 : Csum (fun k => ((A i k - B i k) * I k j)%C) n
               = (A i j - B i j)%C).
  { rewrite Csum_ext
      with (g := fun k => if (k =? j)%nat then (A i k - B i k)%C else C0).
    - rewrite Csum_delta.
      replace (j <? n)%nat with true by (symmetry; apply Nat.ltb_lt; exact Hj).
      reflexivity.
    - intros k Hk. rewrite (HI k j Hk).
      destruct (k =? j)%nat; Csolve. }
  assert (S3 : Csum (fun k => (I i k * I k j)%C) n
               = if (i =? j)%nat then C1 else C0).
  { rewrite Csum_ext
      with (g := fun k => if (k =? i)%nat then I k j else C0).
    - rewrite Csum_delta.
      replace (i <? n)%nat with true by (symmetry; apply Nat.ltb_lt; exact Hi).
      apply HI; exact Hi.
    - intros k _. rewrite (HI i k Hi), (Nat.eqb_sym i k).
      destruct (k =? i)%nat; Csolve. }
  cbn [coeff Mpow2 Mmult Mminus scale].
  rewrite Csum_ext
    with (g := fun k =>
                 ((A i k - B i k) * (A k j - B k j)
                  - RtoC g * (I i k * (A k j - B k j)
                              + (A i k - B i k) * I k j)
                  + RtoC (g * g) * (I i k * I k j))%C)
    by (intros k _; Csolve).
  rewrite Csum_plus, Csum_minus, !Csum_scale, Csum_plus, S1, S2, S3.
  Csolve.
Qed.

(** A polynomial of degree two and its derivative at zero. *)
Lemma quadratic_derivative_at_0 (f : R -> R) (k0 k1 k2 : R) :
  (forall g, f g = k0 + k1 * g + k2 * (g * g)) -> derivable_pt_lim f 0 k1.
Proof.
  intros Hf eps Heps.
  assert (Hd : 0 < eps / (Rabs k2 + 1)).
  { apply Rdiv_lt_0_compat; [exact Heps |].
    pose proof (Rabs_pos k2); lra. }
  exists (mkposreal _ Hd). intros h Hh Hlt. cbn [pos] in Hlt.
  rewrite !Hf, Rplus_0_l.
  replace ((k0 + k1 * h + k2 * (h * h) - (k0 + k1 * 0 + k2 * (0 * 0))) / h
           - k1) with (k2 * h) by (field; exact Hh).
  rewrite Rabs_mult.
  pose proof (Rabs_pos k2) as P2. pose proof (Rabs_pos h) as Ph.
  assert (Hb : Rabs h * (Rabs k2 + 1) < eps).
  { apply (Rmult_lt_compat_r (Rabs k2 + 1)) in Hlt; [| lra].
    unfold Rdiv in Hlt. rewrite Rmult_assoc, Rinv_l, Rmult_1_r in Hlt;
      [exact Hlt | lra]. }
  nra.
Qed.

(** The entries of [charge_terms] are polynomials of degree two in the
    offset charge. *)
Lemma charge_terms_entry (self : Cos2PhiQubit) (g ecj : R)
  (NZ NP : Matrix (ndim self) (ndim self)) (i j : nat) :
  (i < ndim self)%nat -> (j < ndim self)%nat ->
  charge_terms self g ecj NZ NP i j
  = (RtoC (2 * ecj) * Mpow2 (n_theta_operator self - NZ)%M i j
     + RtoC g
       * (RtoC (4 * ecj * dCJ self) * NP i j
          - RtoC (4 * ecj) * (n_theta_operator self i j - NZ i j))
     + RtoC (g * g)
       * (RtoC (2 * ecj) * (if (i =? j)%nat then C1 else C0)))%C.
Proof.
  intros Hi Hj.
  assert (HI : forall a b, (a < ndim self)%nat ->
             total_identity self a b = if (a =? b)%nat then C1 else C0)
    by (intros a b Ha; apply total_identity_entry; exact Ha).
  unfold charge_terms. cbn [coeff Mminus scale].
  rewrite (@Mpow2_shifted _ _ _ _ g i j HI Hi Hj).
  generalize (Mpow2 (n_theta_operator self - NZ)%M i j).
  intros m. destruct (i =? j)%nat; Csolve.
Qed.

(** X17. With [ng = 0], where [d_hamiltonian_d_ng] returns, its operator
    is the exact derivative of the Hamiltonian with respect to the offset
    charge: every entry of the Hamiltonian, as a function of [ng], has at
    zero the real and the imaginary part of the entry of the operator as
    the derivatives of its real and imaginary part. *)
Theorem d_hamiltonian_d_ng_at_zero {ext : Collaborators}
  (self : Cos2PhiQubit) (H D : Matrix (ndim self) (ndim self))
  (i j : nat) :
  ng self = 0 ->
  hamiltonian self = Ok H ->
  d_hamiltonian_d_ng self = Ok D ->
  (i < ndim self)%nat -> (j < ndim self)%nat ->
  derivable_pt_lim
    (fun g => fst (entry (hamiltonian (with_ng self g)) i j)) 0
    (fst (D i j))
  /\ derivable_pt_lim
       (fun g => snd (entry (hamiltonian (with_ng self g)) i j)) 0
       (snd (D i j)).
Proof.
  intros Hng EH ED Hi Hj.
  unfold d_hamiltonian_d_ng, process_op in ED.
  repeat bind_inv ED. inversion ED; subst D; clear ED. same_results.
  match goal with
  | He : _disordered_ecj self = Ok ?ecj,
    Hp : n_phi_operator self = Ok ?np,
    Hz : n_zeta_operator self = Ok ?nz,
    Hs : sub_scalar _ _ = Ok _ |- _ =>
      apply sub_scalar_Ok in Hs; destruct Hs as [_ ->];
      pose proof (hamiltonian_charge_dependence self EH Hz Hp He) as Hdep;
      pose (c0 := (H i j - charge_terms self (ng self) ecj nz np i j
                   + RtoC (2 * ecj)
                     * Mpow2 (n_theta_operator self - nz)%M i j)%C);
      pose (c2 := (RtoC (2 * ecj) * (if (i =? j)%nat then C1 else C0))%C);
      assert (Hpoly : forall g,
                 entry (hamiltonian (with_ng self g)) i j
                 = (c0
                    + RtoC g
                      * (RtoC (4 * dCJ self * ecj) *s np
                         - RtoC (4 * ecj) *s (n_theta_operator self - nz))%M
                          i j
                    + RtoC (g * g) * c2)%C)
  end.
  { intros g. destruct (Hdep g) as (H' & EH' & Hentry).
    rewrite EH'; cbn [entry]. rewrite Hentry.
    cbn [coeff Mplus Mminus scale].
    rewrite (charge_terms_entry self g _ _ _ Hi Hj).
    unfold c0, c2.
    generalize (charge_terms self (ng self)).
    intros ct.
    match goal with
    | |- context [@coeff ?a ?b (Mpow2 ?X) i j] =>
        generalize (@coeff a b (Mpow2 X) i j)
    end.
    intros m. destruct (i =? j)%nat; Csolve. }
  split.
  - apply quadratic_derivative_at_0 with (k0 := fst c0) (k2 := fst c2).
    intros g. rewrite Hpoly.
    cbn [fst snd Cplus Cmult RtoC]. ring.
  - apply quadratic_derivative_at_0 with (k0 := snd c0) (k2 := snd c2).
    intros g. rewrite Hpoly.
    cbn [fst snd Cplus Cmult RtoC]. ring.
Qed.

Lemma d_hamiltonian_d_ng_returns (self : Cos2PhiQubit) :
  valid_parameters self -> ng self = 0 -> returns (d_hamiltonian_d_ng self).
Proof.
  intros V Hng.
  destruct (valid_disordered_ecj V) as (ecj & Eecj & _).
  destruct (valid_n_phi_operator V) as (NP & ENP).
  destruct (valid_n_zeta_operator V) as (NZ & ENZ).
  unfold d_hamiltonian_d_ng. rewrite Eecj, ENP; cbn [bind].
  unfold sub_scalar. destruct (Req_dec_T (ng self) 0) as [_ | N];
    [| contradiction].
  cbn [bind]. rewrite ENZ; cbn [bind]. eexists; reflexivity.
Qed.

(** On the default qubit, whose offset charge is zero. *)
Lemma d_hamiltonian_d_ng_at_zero_witness :
  exists D : Matrix (ndim default_qubit) (ndim default_qubit),
    d_hamiltonian_d_ng default_qubit = Ok D
    /\ derivable_pt_lim
         (fun g =>
            fst (entry (hamiltonian (ext := example_collaborators)
                          (with_ng default_qubit g)) 0 0)) 0
         (fst (D 0%nat 0%nat)).
Proof.
  destruct (valid_hamiltonian (ext := example_collaborators)
              default_qubit_valid) as (H & EH).
  destruct (d_hamiltonian_d_ng_returns default_qubit_valid eq_refl)
    as (D & ED).
  exists D. split; [exact ED |].
  exact (proj1 (@d_hamiltonian_d_ng_at_zero example_collaborators
                  default_qubit H D 0%nat 0%nat eq_refl EH ED
                  default_ndim_pos default_ndim_pos)).
Defined.

(** ** The spectral densities of [t1_inductive] and [t1_purcell] *)

Section SpectralDensities.

Import NoisyCos2PhiQubit.

Context {ext : Collaborators} {Self : Type} {M : methods Self}.

(** A spectral density [a / Q(omega)] times the thermal factor times
    [2 pi]. *)
Lemma density_value (a : R) (q_fun : R -> result R) (omega T Q : R) :
  q_fun omega = Ok Q -> Q <> 0 ->
  calc_therm_ratio omega T false <> 0 ->
  (q <- q_fun omega ;;
   b <- a // q ;;
   s <- thermal b (calc_therm_ratio omega T false) ;;
   ret (s * (2 * PI)))
  = Ok (2 * PI * a / Q
        * (coth (Rabs (calc_therm_ratio omega T false) / 2)
           / (1 + exp (- calc_therm_ratio omega T false)))).
Proof.
  intros EQ NQ Ntr.
  pose proof (thermal_factor_pos Ntr) as Pt.
  pose proof (exp_pos (- calc_therm_ratio omega T false)) as Pe.
  replace (Rabs (calc_therm_ratio omega T false) / 2)
    with (5 / 10 * Rabs (calc_therm_ratio omega T false)) by lra.
  rewrite EQ. cbn [bind].
  rewrite py_div_nonzero by exact NQ. cbn [bind].
  rewrite thermal_nonzero by exact Ntr. cbn [bind].
  f_equal. unfold coth. field. repeat split; lra.
Qed.

(** The thermal factor at opposite thermal ratios. *)
Lemma thermal_balance (s x : R) :
  x <> 0 ->
  exists a b,
    thermal s x = Ok a /\ thermal s (- x) = Ok b
    /\ a = exp x * b
    /\ a + b = s * coth (Rabs x / 2).
Proof.
  intros N.
  assert (N' : - x <> 0) by lra.
  pose proof (thermal_factor_pos N) as Pt.
  pose proof (exp_pos x) as Pe. pose proof (exp_pos (- x)) as Pe'.
  assert (Ee : exp (- x) = / exp x) by apply exp_Ropp.
  rewrite (thermal_nonzero s N), (thermal_nonzero s N').
  rewrite Rabs_Ropp, Ropp_involutive.
  replace (Rabs x / 2) with (5 / 10 * Rabs x) by lra.
  do 2 eexists. split; [reflexivity |]. split; [reflexivity |].
  unfold coth. rewrite Ee. split; field; repeat split; lra.
Qed.

End SpectralDensities.

(** X18. The spectral densities of [t1_inductive] are
    [4 pi EL / (1 -+ dL)] divided by [Q_ind(omega)], and the one of
    [t1_purcell] is [32 pi EC] divided by [Q_cap(omega)], each times
    [coth(|therm_ratio| / 2) / (1 + exp(- therm_ratio))]. *)
Theorem t1_inductive_purcell_spectral_densities {ext : Collaborators}
  {Self : Type} {M : NoisyCos2PhiQubit.methods Self}
  (self : Self) (q_fun : R -> result R) (omega T Q : R) :
  q_fun omega = Ok Q -> Q <> 0 ->
  calc_therm_ratio omega T false <> 0 ->
  1 - NoisyCos2PhiQubit.dL self <> 0 ->
  1 + NoisyCos2PhiQubit.dL self <> 0 ->
  let therm_ratio := calc_therm_ratio omega T false in
  NoisyCos2PhiQubit.t1_inductive_spectral_density1 self q_fun omega T
  = Ok (4 * PI * NoisyCos2PhiQubit.EL self
        / (1 - NoisyCos2PhiQubit.dL self) / Q
        * (coth (Rabs therm_ratio / 2) / (1 + exp (- therm_ratio))))
  /\ NoisyCos2PhiQubit.t1_inductive_spectral_density2 self q_fun omega T
     = Ok (4 * PI * NoisyCos2PhiQubit.EL self
           / (1 + NoisyCos2PhiQubit.dL self) / Q
           * (coth (Rabs therm_ratio / 2) / (1 + exp (- therm_ratio))))
  /\ NoisyCos2PhiQubit.t1_purcell_spectral_density self q_fun omega T
     = Ok (32 * PI * NoisyCos2PhiQubit.EC self / Q
           * (coth (Rabs therm_ratio / 2) / (1 + exp (- therm_ratio)))).
Proof.
  intros EQ NQ Ntr N1 N2. cbv zeta.
  unfold NoisyCos2PhiQubit.t1_inductive_spectral_density1,
    NoisyCos2PhiQubit.t1_inductive_spectral_density2,
    NoisyCos2PhiQubit.t1_purcell_spectral_density.
  rewrite !py_div_nonzero by assumption. cbn [bind].
  rewrite !(fun a => @density_value ext a q_fun omega T Q EQ NQ Ntr).
  pose proof (exp_pos (- calc_therm_ratio omega T false)) as Pe.
  repeat split; f_equal; field; repeat split; first [assumption | lra].
Qed.

(** The theorem on the default qubit with [Q = 1], at unit frequency and
    temperature. *)
Lemma t1_inductive_purcell_spectral_densities_witness :
  NoisyCos2PhiQubit.t1_purcell_spectral_density
    (ext := example_collaborators) (M := example_methods)
    default_qubit (fun _ => Ok 1) 1 1
  = Ok (32 * PI * (4 / 100) / 1
        * (coth (Rabs (1 / 1) / 2) / (1 + exp (- (1 / 1))))).
Proof.
  apply (@t1_inductive_purcell_spectral_densities example_collaborators
           Cos2PhiQubit example_methods default_qubit (fun _ => Ok 1)
           1 1 1);
    try reflexivity; simpl; lra.
Defined.

(** X19. Detailed balance: when the thermal ratio is odd in [omega] and
    the quality factor takes the same nonzero value at [omega] and
    [- omega], every spectral density of the three channels is
    [exp(therm_ratio)] times its value at [- omega]. *)
Theorem spectral_densities_detailed_balance {ext : Collaborators}
  {Self : Type} {M : NoisyCos2PhiQubit.methods Self}
  (self : Self) (q_fun : R -> result R) (omega T Q : R) :
  q_fun omega = Ok Q -> q_fun (- omega) = Ok Q -> Q <> 0 ->
  calc_therm_ratio (- omega) T false = - calc_therm_ratio omega T false ->
  calc_therm_ratio omega T false <> 0 ->
  1 - NoisyCos2PhiQubit.dL self <> 0 ->
  1 + NoisyCos2PhiQubit.dL self <> 0 ->
  1 - NoisyCos2PhiQubit.dCJ self <> 0 ->
  1 + NoisyCos2PhiQubit.dCJ self <> 0 ->
  let balanced (density : R -> R -> result R) :=
    exists a b,
      density omega T = Ok a /\ density (- omega) T = Ok b
      /\ a = exp (calc_therm_ratio omega T false) * b in
  balanced (NoisyCos2PhiQubit.t1_inductive_spectral_density1 self q_fun)
  /\ balanced (NoisyCos2PhiQubit.t1_inductive_spectral_density2 self q_fun)
  /\ balanced (NoisyCos2PhiQubit.t1_capacitive_spectral_density1 self q_fun)
  /\ balanced (NoisyCos2PhiQubit.t1_capacitive_spectral_density2 self q_fun)
  /\ balanced (NoisyCos2PhiQubit.t1_purcell_spectral_density self q_fun).
Proof.
  intros EQ EQ' NQ Hodd Ntr N1 N2 N3 N4. cbv zeta.
  unfold NoisyCos2PhiQubit.t1_inductive_spectral_density1,
    NoisyCos2PhiQubit.t1_inductive_spectral_density2,
    NoisyCos2PhiQubit.t1_capacitive_spectral_density1,
    NoisyCos2PhiQubit.t1_capacitive_spectral_density2,
    NoisyCos2PhiQubit.t1_purcell_spectral_density.
  cbv zeta. rewrite Hodd.
  repeat (first [ rewrite py_div_nonzero by assumption
                | rewrite EQ
                | rewrite EQ'
                | progress cbn [bind] ]).
  repeat split;
    match goal with
    | |- context [NoisyCos2PhiQubit.thermal ?s _] =>
        destruct (thermal_balance s Ntr) as (a & b & Ea & Eb & Hab & _);
        rewrite Ea, Eb; cbn [bind];
        exists (a * (2 * PI)), (b * (2 * PI));
        split; [reflexivity |]; split; [reflexivity |];
        rewrite Hab; ring
    end.
Qed.

Lemma spectral_densities_detailed_balance_witness :
  exists a b,
    NoisyCos2PhiQubit.t1_purcell_spectral_density
      (ext := example_collaborators) (M := example_methods)
      default_qubit (fun _ => Ok 1) 1 1 = Ok a
    /\ NoisyCos2PhiQubit.t1_purcell_spectral_density
         (ext := example_collaborators) (M := example_methods)
         default_qubit (fun _ => Ok 1) (- 1) 1 = Ok b
    /\ a = exp (1 / 1) * b.
Proof.
  apply (@spectral_densities_detailed_balance example_collaborators
           Cos2PhiQubit example_methods default_qubit (fun _ => Ok 1)
           1 1 1);
    try reflexivity; simpl; lra.
Defined.

(** ** The wave function as a superposition *)

(** A loop that adds the term [t k] in step [k] has added their sum. *)
Lemma for_range_accumulate (n : nat)
  (body : nat -> (nat -> nat -> nat -> C) -> result (nat -> nat -> nat -> C))
  (t : nat -> nat -> nat -> nat -> C) (s s' : nat -> nat -> nat -> C) :
  (forall k acc acc', (k < n)%nat -> body k acc = Ok acc' ->
     forall a b c, acc' a b c = (acc a b c + t k a b c)%C) ->
  for_range n body s = Ok s' ->
  forall a b c, s' a b c = (s a b c + Csum (fun k => t k a b c) n)%C.
Proof.
  intros Hbody E.
  apply (@for_range_invariant _
           (fun k acc =>
              forall a b c,
                acc a b c = (s a b c + Csum (fun k' => t k' a b c) k)%C)
           n body s s'); [| | exact E].
  - intros a b c. cbn [Csum]. Csolve.
  - intros k s1 s2 Hk H1 E1 a b c.
    rewrite (Hbody k s1 s2 Hk E1), H1. cbn [Csum]. Csolve.
Qed.

(** X20. For a supplied eigensystem, [wavefunction] returns, at every
    grid point, the superposition of the product basis functions weighted
    by the amplitudes of column [which]: the sum over all basis states
    [(i, j, k)] of the amplitude at the flat index
    [(i dim_zeta + j) dim_theta + k] times
    [HO(i, phi) HO(j, zeta) exp(-i (k - ncut) theta) / sqrt(2 pi)].  A
    column index beyond the supplied eigenvectors raises [IndexError]. *)
Theorem wavefunction_superposition {ext : Collaborators}
  (eigensys : forall q : Cos2PhiQubit, nat -> result (Eigensystem (ndim q)))
  (self : Cos2PhiQubit) (es : Eigensystem (ndim self)) (which : nat)
  (phi_grid zeta_grid theta_grid : option Grid1d) (l_phi l_zeta : C) :
  phi_osc self = Ok l_phi ->
  zeta_osc self = Ok l_zeta ->
  ((which < n_evals es)%nat ->
   exists W : WaveFunctionOnGrid,
     wavefunction eigensys self (Some es) which phi_grid zeta_grid theta_grid
     = Ok W
     /\ gridspec W
        = (grid_or phi_grid _default_phi_grid,
           grid_or zeta_grid _default_zeta_grid,
           grid_or theta_grid _default_theta_grid)
     /\ forall a b c : nat,
          amplitudes W a b c
          = wavefunction_sum self
              (fun i j k =>
                 evecs es ((i * nzeta self + j) * ntheta self + k)%nat which)
              l_phi l_zeta
              (make_linspace (grid_or phi_grid _default_phi_grid))
              (make_linspace (grid_or zeta_grid _default_zeta_grid))
              (make_linspace (grid_or theta_grid _default_theta_grid))
              a b c)
  /\ ((n_evals es <= which)%nat ->
      wavefunction eigensys self (Some es) which phi_grid zeta_grid theta_grid
      = Raise IndexError).
Proof.
  intros Ephi Ezeta. split.
  - intros Hwhich.
    unfold wavefunction. cbn [bind].
    apply Nat.ltb_lt in Hwhich; rewrite Hwhich; cbn [bind].
    match goal with
    | |- exists W, (acc <- ?loops ;; _) = _ /\ _ =>
        assert (Hret : returns loops)
    end.
    { apply for_range_returns; intros i s1 _.
      apply for_range_returns; intros j s2 _.
      apply for_range_returns; intros k s3 _.
      unfold wavefunction_term. rewrite Ephi, Ezeta; cbn [bind].
      eexists; reflexivity. }
    destruct Hret as (acc & E). rewrite E; cbn [bind].
    eexists; split; [reflexivity |]. split; [reflexivity |].
    cbn [amplitudes]. intros a b c.
    rewrite (fun Hb => @for_range_accumulate _ _
               (fun i a b c =>
                  Csum (fun j =>
                    Csum (fun k =>
                      (evecs es ((i * nzeta self + j) * ntheta self + k)%nat
                         which
                       * (harm_osc_wavefunction (Z.of_nat i)
                            (make_linspace
                               (grid_or phi_grid _default_phi_grid) a) l_phi
                          * harm_osc_wavefunction (Z.of_nat j)
                              (make_linspace
                                 (grid_or zeta_grid _default_zeta_grid) b)
                              l_zeta
                          * Cdiv_real
                              (Cexp_i
                                 (- (IZR (Z.of_nat k - ncut self)
                                     * make_linspace
                                         (grid_or theta_grid
                                            _default_theta_grid) c)))
                              (sqrt (2 * PI))))%C)
                      (ntheta self))
                    (nzeta self)) _ _ Hb E).
    + unfold wavefunction_sum. Csolve.
    + intros i s1 s1' _ E1 a' b' c'.
      rewrite (fun Hb => @for_range_accumulate _ _
                 (fun j a b c =>
                    Csum (fun k =>
                      (evecs es ((i * nzeta self + j) * ntheta self + k)%nat
                         which
                       * (harm_osc_wavefunction (Z.of_nat i)
                            (make_linspace
                               (grid_or phi_grid _default_phi_grid) a) l_phi
                          * harm_osc_wavefunction (Z.of_nat j)
                              (make_linspace
                                 (grid_or zeta_grid _default_zeta_grid) b)
                              l_zeta
                          * Cdiv_real
                              (Cexp_i
                                 (- (IZR (Z.of_nat k - ncut self)
                                     * make_linspace
                                         (grid_or theta_grid
                                            _default_theta_grid) c)))
                              (sqrt (2 * PI))))%C)
                      (ntheta self)) _ _ Hb E1); [reflexivity |].
      intros j s2 s2' _ E2 a'' b'' c''.
      rewrite (fun Hb => @for_range_accumulate _ _
                 (fun k a b c =>
                    (evecs es ((i * nzeta self + j) * ntheta self + k)%nat
                       which
                     * (harm_osc_wavefunction (Z.of_nat i)
                          (make_linspace
                             (grid_or phi_grid _default_phi_grid) a) l_phi
                        * harm_osc_wavefunction (Z.of_nat j)
                            (make_linspace
                               (grid_or zeta_grid _default_zeta_grid) b)
                            l_zeta
                        * Cdiv_real
                            (Cexp_i
                               (- (IZR (Z.of_nat k - ncut self)
                                   * make_linspace
                                       (grid_or theta_grid
                                          _default_theta_grid) c)))
                            (sqrt (2 * PI))))%C) _ _ Hb E2); [reflexivity |].
      intros k s3 s3' _ E3 a3 b3 c3.
      unfold wavefunction_term in E3.
      rewrite Ephi, Ezeta in E3; cbn [bind] in E3.
      inversion E3; reflexivity.
  - intros Hwhich.
    unfold wavefunction. cbn [bind].
    apply Nat.ltb_ge in Hwhich; rewrite Hwhich; reflexivity.
Qed.

(** The superposition for the ground state of [example_esys] on the
    default qubit and the default grids. *)
Lemma wavefunction_superposition_witness :
  exists (l_phi l_zeta : C) (W : WaveFunctionOnGrid),
    wavefunction (ext := example_collaborators) example_eigensys
      default_qubit (Some (example_esys (ndim default_qubit))) 0
      None None None = Ok W
    /\ forall a b c : nat,
         amplitudes W a b c
         = wavefunction_sum (ext := example_collaborators) default_qubit
             (fun i j k =>
                evecs (example_esys (ndim default_qubit))
                  ((i * nzeta default_qubit + j) * ntheta default_qubit
                   + k)%nat 0%nat)
             l_phi l_zeta
             (make_linspace (Collaborators := example_collaborators)
                _default_phi_grid)
             (make_linspace (Collaborators := example_collaborators)
                _default_zeta_grid)
             (make_linspace (Collaborators := example_collaborators)
                _default_theta_grid)
             a b c.
Proof.
  destruct (valid_phi_osc default_qubit_valid) as (lp & Ep & _).
  destruct (valid_zeta_osc default_qubit_valid) as (lz & Ez & _).
  assert (Hwhich : (0 < n_evals (example_esys (ndim default_qubit)))%nat)
    by (simpl; lia).
  destruct (proj1 (@wavefunction_superposition example_collaborators
                     example_eigensys default_qubit
                     (example_esys (ndim default_qubit)) 0 None None None
                     (RtoC lp) (RtoC lz) Ep Ez) Hwhich)
    as (W & EW & _ & Hamp).
  exists (RtoC lp), (RtoC lz), W. split; [exact EW | exact Hamp].
Defined.

(** ** Oscillator lengths and plasma energies *)

(** X21. On the parameter ranges of the data model the oscillator lengths
    and the plasma energies are positive reals, tied by
    [phi_plasma = 2 EL' phi_osc^2] and [zeta_plasma = 2 EL' zeta_osc^2]
    with [EL' = EL / (1 - dL^2)] the disordered inductive energy. *)
Theorem plasma_energy_and_oscillator_length (self : Cos2PhiQubit) :
  valid_parameters self ->
  exists el l_phi l_zeta w_phi w_zeta : R,
    _disordered_el self = Ok el
    /\ phi_osc self = Ok (RtoC l_phi) /\ zeta_osc self = Ok (RtoC l_zeta)
    /\ phi_plasma self = Ok w_phi /\ zeta_plasma self = Ok w_zeta
    /\ 0 < el /\ 0 < l_phi /\ 0 < l_zeta /\ 0 < w_phi /\ 0 < w_zeta
    /\ w_phi = 2 * el * l_phi ^ 2
    /\ w_zeta = 2 * el * l_zeta ^ 2.
Proof.
  intros V.
  destruct (valid_disordered_el V) as (el & Eel & Pel).
  destruct (valid_disordered_ecj V) as (ecj & Eecj & Pecj).
  assert (PEC : 0 < EC self) by (destruct V as (_ & _ & _ & H & _); exact H).
  assert (P1 : 0 < 2 * ecj / el) by (apply Rdiv_lt_0_compat; lra).
  assert (P2 : 0 < 4 * EC self / el) by (apply Rdiv_lt_0_compat; lra).
  exists el, (sqrt (sqrt (2 * ecj / el))), (sqrt (sqrt (4 * EC self / el))),
    (sqrt (8 * el * ecj)), (sqrt (16 * EC self * el)).
  assert (Hphi : sqrt (8 * el * ecj) = 2 * el * sqrt (sqrt (2 * ecj / el)) ^ 2).
  { replace (sqrt (sqrt (2 * ecj / el)) ^ 2) with (sqrt (2 * ecj / el))
      by (simpl; rewrite Rmult_1_r, sqrt_sqrt;
          [reflexivity | apply sqrt_pos]).
    replace (2 * el) with (sqrt ((2 * el) * (2 * el)))
      by (apply sqrt_square; lra).
    rewrite <- sqrt_mult by nra. f_equal. field. lra. }
  assert (Hzeta : sqrt (16 * EC self * el)
                  = 2 * el * sqrt (sqrt (4 * EC self / el)) ^ 2).
  { replace (sqrt (sqrt (4 * EC self / el)) ^ 2) with (sqrt (4 * EC self / el))
      by (simpl; rewrite Rmult_1_r, sqrt_sqrt;
          [reflexivity | apply sqrt_pos]).
    replace (2 * el) with (sqrt ((2 * el) * (2 * el)))
      by (apply sqrt_square; lra).
    rewrite <- sqrt_mult by nra. f_equal. field. lra. }
  repeat split; try assumption.
  - unfold phi_osc. rewrite Eecj, Eel; cbn [bind].
    rewrite py_div_nonzero by lra; cbn [bind].
    rewrite pow_quarter_nonneg by lra. reflexivity.
  - unfold zeta_osc. rewrite Eel; cbn [bind].
    rewrite py_div_nonzero by lra; cbn [bind].
    rewrite pow_quarter_nonneg by lra. reflexivity.
  - unfold phi_plasma. rewrite Eel, Eecj; cbn [bind].
    apply math_sqrt_nonneg. nra.
  - unfold zeta_plasma. rewrite Eel; cbn [bind].
    apply math_sqrt_nonneg. nra.
  - apply pow_quarter_pos, P1.
  - apply pow_quarter_pos, P2.
  - apply sqrt_lt_R0. nra.
  - apply sqrt_lt_R0. nra.
Qed.

Lemma plasma_energy_and_oscillator_length_witness :
  exists el l_phi w_phi : R,
    _disordered_el default_qubit = Ok el
    /\ phi_osc default_qubit = Ok (RtoC l_phi)
    /\ phi_plasma default_qubit = Ok w_phi
    /\ w_phi = 2 * el * l_phi ^ 2.
Proof.
  destruct (plasma_energy_and_oscillator_length default_qubit_valid)
    as (el & lp & lz & wp & wz & H1 & H2 & _ & H4 & _ & _ & _ & _ & _ & _
        & H5 & _).
  exists el, lp, wp. repeat split; assumption.
Defined.

(** ** The operators of the charge subspace *)

Lemma dia0_mult_l (d : nat -> C) (n : nat) (A : Matrix n n) (i j : nat) :
  (i < n)%nat -> Mmult (dia_matrix d 0 n) A i j = (d i * A i j)%C.
Proof.
  intros Hi. cbn [coeff Mmult dia_matrix].
  rewrite Csum_ext
    with (g := fun k => if (k =? i)%nat then (d k * A k j)%C else C0).
  - rewrite Csum_delta.
    replace (i <? n)%nat with true by (symmetry; apply Nat.ltb_lt; exact Hi).
    reflexivity.
  - intros k _.
    destruct (Z.eqb_spec (Z.of_nat k - Z.of_nat i) 0);
      destruct (Nat.eqb_spec k i); try lia; Csolve.
Qed.

Lemma dia0_mult_r (d : nat -> C) (n : nat) (A : Matrix n n) (i j : nat) :
  (j < n)%nat -> Mmult A (dia_matrix d 0 n) i j = (A i j * d j)%C.
Proof.
  intros Hj. cbn [coeff Mmult dia_matrix].
  rewrite Csum_ext
    with (g := fun k => if (k =? j)%nat then (A i k * d j)%C else C0).
  - rewrite Csum_delta.
    replace (j <? n)%nat with true by (symmetry; apply Nat.ltb_lt; exact Hj).
    reflexivity.
  - intros k _.
    destruct (Z.eqb_spec (Z.of_nat j - Z.of_nat k) 0);
      destruct (Nat.eqb_spec k j); try lia; Csolve.
Qed.

(** The products of the two shift matrices. *)
Lemma shift_up_down (n i j : nat) :
  (i < n)%nat ->
  Mmult (dia_matrix ones 1 n) (dia_matrix ones (-1) n) i j
  = if ((i =? j) && (S i <? n))%nat then C1 else C0.
Proof.
  intros Hi. cbn [coeff Mmult dia_matrix ones].
  rewrite Csum_ext
    with (g := fun k => if (k =? S i)%nat
                        then (if (i =? j)%nat then C1 else C0) else C0).
  - rewrite Csum_delta.
    destruct (Nat.ltb_spec (S i) n); destruct (i =? j)%nat; reflexivity.
  - intros k _.
    destruct (Z.eqb_spec (Z.of_nat k - Z.of_nat i) 1);
      destruct (Z.eqb_spec (Z.of_nat j - Z.of_nat k) (-1));
      destruct (Nat.eqb_spec k (S i));
      destruct (Nat.eqb_spec i j); try lia; Csolve.
Qed.

Lemma shift_down_up (n i j : nat) :
  (i < n)%nat ->
  Mmult (dia_matrix ones (-1) n) (dia_matrix ones 1 n) i j
  = if ((i =? j) && (1 <=? i))%nat then C1 else C0.
Proof.
  intros Hi. cbn [coeff Mmult dia_matrix ones].
  rewrite Csum_ext
    with (g := fun k => if (k =? pred i)%nat
                        then (if ((i =? j) && (1 <=? i))%nat
                              then C1 else C0) else C0).
  - rewrite Csum_delta.
    replace (pred i <? n)%nat with true by (symmetry; apply Nat.ltb_lt; lia).
    reflexivity.
  - intros k _.
    destruct (Z.eqb_spec (Z.of_nat k - Z.of_nat i) (-1));
      destruct (Z.eqb_spec (Z.of_nat j - Z.of_nat k) 1);
      destruct (Nat.eqb_spec k (pred i));
      destruct (Nat.eqb_spec i j);
      destruct (Nat.leb_spec 1 i); cbn [andb]; try lia; Csolve.
Qed.

(** X22. In the charge subspace the operators of [_n_theta_operator],
    [_cos_theta_operator] and [_sin_theta_operator] satisfy
    [[n, cos] = i sin] and [[n, sin] = -i cos] exactly, and
    [cos^2 + sin^2] is diagonal with the entry one, except for the first
    and the last charge state, where the truncation leaves one half. *)
Theorem theta_operator_algebra (self : Cos2PhiQubit) :
  (commutator (_n_theta_operator self) (_cos_theta_operator self)
   == Ci *s _sin_theta_operator self)%M
  /\ (commutator (_n_theta_operator self) (_sin_theta_operator self)
      == (- Ci)%C *s _cos_theta_operator self)%M
  /\ (Mpow2 (_cos_theta_operator self) + Mpow2 (_sin_theta_operator self)
      == mk_matrix (fun i j =>
           if (i =? j)%nat
           then RtoC ((if (1 <=? i)%nat then 1 / 2 else 0)
                      + (if (S i <? ntheta self)%nat then 1 / 2 else 0))
           else C0))%M.
Proof.
  assert (Hn : forall A i j,
             (i < ntheta self)%nat -> (j < ntheta self)%nat ->
             commutator (_n_theta_operator self) A i j
             = (RtoC (IZR (Z.of_nat i - Z.of_nat j)) * A i j)%C).
  { intros A i j Hi Hj. unfold commutator, _n_theta_operator.
    cbn [coeff Mminus]. cbv zeta.
    rewrite dia0_mult_l, dia0_mult_r by assumption.
    replace (Z.of_nat i - Z.of_nat j)%Z
      with ((- ncut self + Z.of_nat i) - (- ncut self + Z.of_nat j))%Z by lia.
    rewrite minus_IZR. Csolve. }
  split; [| split].
  - intros i j Hi Hj. rewrite Hn by assumption.
    unfold _cos_theta_operator, _sin_theta_operator.
    cbn [coeff Mplus Mminus scale dia_matrix ones].
    destruct (Z.eqb_spec (Z.of_nat j - Z.of_nat i) 1) as [E1 | N1];
      destruct (Z.eqb_spec (Z.of_nat j - Z.of_nat i) (-1)) as [E2 | N2];
      try lia.
    + replace (Z.of_nat i - Z.of_nat j)%Z with (-1)%Z by lia. Csolve.
    + replace (Z.of_nat i - Z.of_nat j)%Z with 1%Z by lia. Csolve.
    + Csolve.
  - intros i j Hi Hj. rewrite Hn by assumption.
    unfold _cos_theta_operator, _sin_theta_operator.
    cbn [coeff Mplus Mminus scale dia_matrix ones].
    destruct (Z.eqb_spec (Z.of_nat j - Z.of_nat i) 1) as [E1 | N1];
      destruct (Z.eqb_spec (Z.of_nat j - Z.of_nat i) (-1)) as [E2 | N2];
      try lia.
    + replace (Z.of_nat i - Z.of_nat j)%Z with (-1)%Z by lia. Csolve.
    + replace (Z.of_nat i - Z.of_nat j)%Z with 1%Z by lia. Csolve.
    + Csolve.
  - intros i j Hi Hj.
    unfold _cos_theta_operator, _sin_theta_operator, Mpow2.
    cbv zeta. cbn [coeff Mplus].
    repeat (rewrite ?Mmult_scale_l, ?Mmult_scale_r, ?Mmult_plus_l,
              ?Mmult_minus_l, ?Mmult_minus_r, ?Mmult_plus_r).
    rewrite (shift_up_down j Hi), (shift_down_up j Hi).
    generalize (Mmult (dia_matrix ones 1 (ntheta self))
                  (dia_matrix ones 1 (ntheta self)) i j)
               (Mmult (dia_matrix ones (-1) (ntheta self))
                  (dia_matrix ones (-1) (ntheta self)) i j).
    intros uu dd.
    remember (if ((i =? j) && (S i <? ntheta self))%nat then C1 else C0)
      as p eqn:Hp.
    remember (if ((i =? j) && (1 <=? i))%nat then C1 else C0) as q eqn:Hq.
    transitivity (RtoC (1 / 2) * (p + q))%C; [Csolve |].
    subst p q. cbn [coeff].
    destruct (i =? j)%nat, (1 <=? i)%nat, (S i <? ntheta self)%nat;
      cbn [andb]; Csolve.
Qed.

Lemma theta_operator_algebra_witness :
  (Mpow2 (_cos_theta_operator default_qubit)
   + Mpow2 (_sin_theta_operator default_qubit))%M 3%nat 3%nat
  = RtoC (1 / 2 + 1 / 2).
Proof.
  destruct (theta_operator_algebra default_qubit) as (_ & _ & H).
  apply (H 3%nat 3%nat); unfold ntheta; simpl; lia.
Defined.

(** ** The default capacitive quality factor *)

Lemma Rpower_base_1 (y : R) : Rpower 1 y = 1.
Proof. unfold Rpower. rewrite ln_1, Rmult_0_r. apply exp_0. Qed.

Lemma default_q_cap_value {ext : Collaborators} (omega : R) :
  to_standard_units omega <> 0 ->
  NoisyCos2PhiQubit.default_q_cap_fun omega
  = Ok (1000000
        * Rpower (2 * PI * 6000000000 / Rabs (to_standard_units omega))
            (7 / 10)).
Proof.
  intros N. unfold NoisyCos2PhiQubit.default_q_cap_fun.
  pose proof (Rabs_pos_lt _ N).
  rewrite py_div_nonzero by lra. reflexivity.
Qed.

(** X23. The quality factor that [t1_capacitive] and [t1_purcell] use
    when [Q_cap] is [None] is positive, depends on [omega] only through
    the magnitude of the angular frequency in standard units, equals
    [10^6] at [2 pi 6 GHz] and decreases strictly as that magnitude
    grows; a number given as [Q_cap] is used at every frequency. *)
Theorem default_capacitive_quality {ext : Collaborators}
  (omega omega' : R) :
  to_standard_units omega <> 0 ->
  to_standard_units omega' <> 0 ->
  exists Q Q' : R,
    NoisyCos2PhiQubit.q_cap_fun NoisyCos2PhiQubit.QNone omega = Ok Q
    /\ NoisyCos2PhiQubit.q_cap_fun NoisyCos2PhiQubit.QNone omega' = Ok Q'
    /\ 0 < Q
    /\ (Rabs (to_standard_units omega) = 2 * PI * 6000000000 ->
        Q = 1000000)
    /\ (Rabs (to_standard_units omega) = Rabs (to_standard_units omega') ->
        Q = Q')
    /\ (Rabs (to_standard_units omega) < Rabs (to_standard_units omega') ->
        Q' < Q)
    /\ forall x : R,
         NoisyCos2PhiQubit.q_cap_fun (NoisyCos2PhiQubit.QNum x) omega = Ok x.
Proof.
  intros N N'.
  pose proof (Rabs_pos_lt _ N) as P. pose proof (Rabs_pos_lt _ N') as P'.
  pose proof PI_RGT_0 as Ppi.
  do 2 eexists.
  split; [exact (default_q_cap_value omega N) |].
  split; [exact (default_q_cap_value omega' N') |].
  split; [| split; [| split; [| split]]].
  - apply Rmult_lt_0_compat; [lra |]. unfold Rpower. apply exp_pos.
  - intros ->.
    replace (2 * PI * 6000000000 / (2 * PI * 6000000000)) with 1
      by (field; lra).
    rewrite Rpower_base_1. ring.
  - intros ->. reflexivity.
  - intros L. apply Rmult_lt_compat_l; [lra |].
    apply Rlt_Rpower_l; [lra |]. split.
    + apply Rdiv_lt_0_compat; lra.
    + unfold Rdiv. apply Rmult_lt_compat_l; [lra |].
      apply Rinv_lt_contravar; [nra | exact L].
  - intros x. reflexivity.
Qed.

Lemma default_capacitive_quality_witness :
  exists Q Q' : R,
    NoisyCos2PhiQubit.q_cap_fun (ext := example_collaborators)
      NoisyCos2PhiQubit.QNone 1 = Ok Q
    /\ NoisyCos2PhiQubit.q_cap_fun (ext := example_collaborators)
         NoisyCos2PhiQubit.QNone 2 = Ok Q'
    /\ Q' < Q.
Proof.
  assert (N1 : to_standard_units (Collaborators := example_collaborators) 1
               <> 0) by (simpl; lra).
  assert (N2 : to_standard_units (Collaborators := example_collaborators) 2
               <> 0) by (simpl; lra).
  destruct (@default_capacitive_quality example_collaborators 1 2 N1 N2)
    as (Q & Q' & E & E' & _ & _ & _ & Hlt & _).
  exists Q, Q'. split; [exact E |]. split; [exact E' |].
  apply Hlt. simpl. rewrite !Rabs_pos_eq by lra. lra.
Defined.

(** ** A complex prefactor in the sibling functions *)

(** [a_plus_adag_sparse] and [iadag_minus_ia_sparse] multiply by the
    prefactor out of place, so a complex prefactor, which [number] and
    [number_sparse] cannot store in their [float64] diagonal, scales the
    matrix they return. *)
Lemma quadrature_complex_prefactor (dimension : nat) (z : C) :
  (op.a_plus_adag_sparse dimension (op.PComplex z)
   == z *s (op.annihilation_sparse dimension
            + op.creation_sparse dimension))%M
  /\ (op.iadag_minus_ia_sparse dimension (op.PComplex z)
      == z *s (Ci *s (op.creation_sparse dimension
                      - op.annihilation_sparse dimension)))%M.
Proof.
  split; intros i j _ _.
  - reflexivity.
  - unfold op.iadag_minus_ia_sparse, op.prefactor_or_one.
    cbn [coeff scale Mminus]. Csolve.
Qed.
